(** * jeff65: parser generator, scoped passes and assembler passes

    A shallow embedding of [jeff65/parsing.py], [jeff65/gold/asm.py],
    [jeff65/gold/storage.py] and [jeff65/gold/passes/binding.py], with the
    properties of the specification stated over it.

    Python integers are [Z]; [str] is [string]; a [dict] whose iteration
    order is observable is an association list with the insertion-order
    discipline of Python, other dicts are [gmap]; a [set] is [gset];
    exceptions are the [Raise] branch of [result]. *)

From Stdlib Require Import ZArith Lia.
From stdpp Require Import base option list strings gmap pretty.

Open Scope Z_scope.

(** ** Exceptions *)

Inductive exn : Type :=
  | StopIteration
  | AssertionError (msg : string)
  | KeyError
  | IndexError
  | TypeError
  | ValueError
  | AttributeError
  | UnboundLocalError
  | NotImplementedError
  | StructError
  | Exception (msg : string)
  | ParseError (msg : string)
  | AssemblyError (msg : string).

Inductive result (A : Type) : Type :=
  | Ok (a : A)
  | Raise (e : exn).
Arguments Ok {A} a.
Arguments Raise {A} e.

Global Instance result_ret : MRet result := λ A a, Ok a.
Global Instance result_bind : MBind result := λ A B k r,
  match r with
  | Ok a => k a
  | Raise e => Raise e
  end.

Definition is_ok {A} (r : result A) : Prop :=
  match r with Ok _ => True | Raise _ => False end.

(** ** Symbols

    Grammar symbols are arbitrary Python objects: a [str] is a bare
    nonterminal, anything else is a terminal (a token type).  [Grammar.EMPTY]
    is a fresh [object()], hence one more non-[str] object. *)

Inductive symbol : Type :=
  | Terminal (tt_ : string)
  | Nonterminal (name : string)
  | EMPTY.

Global Instance symbol_eq_dec : EqDecision symbol.
Proof. solve_decision. Defined.

Global Instance symbol_countable : Countable symbol.
Proof.
  refine (inj_countable'
    (λ s, match s with
          | Terminal x => inl x
          | Nonterminal x => inr (Some x)
          | EMPTY => inr None
          end)
    (λ c, match c with
          | inl x => Terminal x
          | inr (Some x) => Nonterminal x
          | inr None => EMPTY
          end) _).
  by intros [].
Defined.

(** ** TextSpan (parsing.py, class TextSpan) *)

Module TextSpan.

Record t : Type := Raw {
  start_line : Z;
  start_column : Z;
  end_line : Z;
  end_column : Z
}.

Global Instance eq_dec : EqDecision t.
Proof. solve_decision. Defined.

(** Python compares tuples lexicographically. *)
Definition pos_lt (p q : Z * Z) : bool :=
  (p.1 <? q.1) || ((p.1 =? q.1) && (p.2 <? q.2)).
Definition pos_le (p q : Z * Z) : bool :=
  (p.1 <? q.1) || ((p.1 =? q.1) && (p.2 <=? q.2)).
Definition pos_gt (p q : Z * Z) : bool := pos_lt q p.

Definition start (s : t) : Z * Z := (start_line s, start_column s).
Definition end_ (s : t) : Z * Z := (end_line s, end_column s).

(** [__attrs_post_init__]: the generated [__init__] stores the four
    fields, then the hook swaps them when [start > end]. *)
Definition __attrs_post_init__ (s : t) : t :=
  if pos_gt (start s) (end_ s) then
    {| start_line := end_line s; start_column := end_column s;
       end_line := start_line s; end_column := start_column s |}
  else s.

(** The constructor call [TextSpan(a, b, c, d)]. *)
Definition make (a b c d : Z) : t :=
  __attrs_post_init__
    {| start_line := a; start_column := b; end_line := c; end_column := d |}.

(** The [__eq__] that [attrs] generates: all four attributes take part. *)
Definition __eq__ (s other : t) : bool := bool_decide (s = other).

Definition __bool__ (s : t) : bool := pos_lt (start s) (end_ s).

Definition __contains__ (s other : t) : bool :=
  pos_le (start s) (start other) && pos_le (end_ other) (end_ s).

Definition pos_min (p q : Z * Z) : Z * Z := if pos_lt q p then q else p.
Definition pos_max (p q : Z * Z) : Z * Z := if pos_lt p q then q else p.

(** [cover(spans)]; [min] and [max] of an empty sequence raise
    [ValueError]. *)
Definition cover (spans : list t) : result t :=
  match spans with
  | [] => Raise ValueError
  | s :: rest =>
      let lo := foldl (λ acc x, pos_min acc (start x)) (start s) rest in
      let hi := foldl (λ acc x, pos_max acc (end_ x)) (end_ s) rest in
      Ok (make lo.1 lo.2 hi.1 hi.2)
  end.

End TextSpan.

(** ** Token (parsing.py, class Token)

    [attr.s] generates [__eq__] from the attributes declared with
    [cmp=True]: it compares the tuples of those attributes. [channel] and
    [span] are declared [cmp=False]. *)

Module Token.

Record t : Type := Make {
  t_ : symbol;
  text : option string;
  channel : Z;
  span : option TextSpan.t
}.

(** The tuple [attrs] compares: the attributes with [cmp=True], in
    declaration order. *)
Definition cmp_key (k : t) : symbol * option string := (t_ k, text k).

Definition __eq__ (a b : t) : bool := bool_decide (cmp_key a = cmp_key b).

End Token.

(** ** ReStream (parsing.py, class ReStream) *)

(** The part of a match object the module uses: [group()] and [end()]. *)
Record Match : Type := { m_group : string; m_end : Z }.

(** A compiled pattern is used only through [regex.match(string, pos)]. *)
Definition Regex : Type := string → Z → option Match.

Module ReStream.

Definition CHANNEL_ALL : Z := -1.
Definition CHANNEL_DEFAULT : Z := 0.
Definition CHANNEL_HIDDEN : Z := 1.

(** [stream] holds the lines the iterator has not yet yielded. *)
Record t : Type := Make {
  stream : list string;
  current : string;
  line : Z;
  column : Z
}.

Definition len (s : string) : Z := Z.of_nat (String.length s).

Definition advance_line (s : t) : result t :=
  match stream s with
  | [] => Raise StopIteration
  | l :: rest =>
      Ok {| stream := rest; current := l; line := line s + 1; column := 0 |}
  end.

Definition __init__ (lines : list string) : t :=
  let s := {| stream := lines; current := ""; line := 0; column := 0 |} in
  match advance_line s with
  | Ok s' => s'
  | Raise _ => {| stream := stream s; current := ""; line := 1; column := 0 |}
  end.

Definition assure_line (s : t) : result t :=
  if column s =? len (current s) then advance_line s else Ok s.

Definition match_ (s : t) (regex : Regex) : result (option Match * t) :=
  s' ← assure_line s;
  Ok (regex (current s') (column s'), s').

Definition produce (s : t) (sym : symbol) (m : Match) (channel : Z)
  : Token.t * t :=
  let token :=
    Token.Make sym (Some (m_group m)) channel
      (Some (TextSpan.make (line s) (column s) (line s) (m_end m))) in
  (token, {| stream := stream s; current := current s;
             line := line s; column := m_end m |}).

Definition rewind (s : t) (token : Token.t) : result t :=
  match Token.span token with
  | None => Raise AttributeError
  | Some sp =>
      if bool_decide (TextSpan.end_ sp = (line s, column s)) then
        Ok {| stream := stream s; current := current s;
              line := line s; column := TextSpan.start_column sp |}
      else Raise (AssertionError "")
  end.

Definition produce_eof (s : t) (sym : symbol) : Token.t :=
  Token.Make sym None CHANNEL_ALL
    (Some (TextSpan.make (line s) (column s) (line s) (column s))).

End ReStream.

(** ** Lexer (parsing.py, class Lexer) *)

(** [Parser.NORMAL_MODE] *)
Definition NORMAL_MODE : Z := 0.

Module Lexer.

(** The three shapes of a rule tuple accepted by [__init__]. *)
Inductive rule_spec : Type :=
  | PT (pattern : Regex) (tt_ : symbol)
  | MPT (mode : Z) (pattern : Regex) (tt_ : symbol)
  | MPTC (mode : Z) (pattern : Regex) (tt_ : symbol) (channel : Z).

Record t : Type := Make {
  eof : symbol;
  mode_rules : gmap Z (list (Regex * symbol * Z))
}.

Definition add_rule (mr : gmap Z (list (Regex * symbol * Z)))
    (mptc : rule_spec) : gmap Z (list (Regex * symbol * Z)) :=
  let '(mode, pattern, tt_, channel) :=
    match mptc with
    | PT p tt_ => (NORMAL_MODE, p, tt_, ReStream.CHANNEL_DEFAULT)
    | MPT m p tt_ => (m, p, tt_, ReStream.CHANNEL_DEFAULT)
    | MPTC m p tt_ c => (m, p, tt_, c)
    end in
  let rs := default [] (mr !! mode) in
  <[mode := rs ++ [(pattern, tt_, channel)]]> mr.

Definition __init__ (eof : symbol) (rules : list rule_spec) : t :=
  {| eof := eof; mode_rules := foldl add_rule ∅ rules |}.

(** The [for regex, tt, channel in self.mode_rules[mode]] loop, with the
    [assert False] that follows it. *)
Fixpoint try_rules (rules : list (Regex * symbol * Z)) (stream : ReStream.t)
  : result (Token.t * ReStream.t) :=
  match rules with
  | [] => Raise (AssertionError "no match!")
  | (regex, tt_, channel) :: rest =>
      '(m, stream') ← ReStream.match_ stream regex;
      match m with
      | Some m => Ok (ReStream.produce stream' tt_ m channel)
      | None => try_rules rest stream'
      end
  end.

Definition __call__ (self : t) (stream : ReStream.t) (mode : Z)
  : result (Token.t * ReStream.t) :=
  match ReStream.assure_line stream with
  | Raise StopIteration => Ok (ReStream.produce_eof stream (eof self), stream)
  | Raise e => Raise e
  | Ok stream' =>
      match mode_rules self !! mode with
      | None => Raise KeyError
      | Some rules => try_rules rules stream'
      end
  end.

End Lexer.

(** ** Python dicts with observable iteration order

    A [dict] iterates in insertion order; assigning to a key that is
    present keeps the key's position. *)

Module Dict.
Section Dict.
Context {K : Type} `{EqDecision K} {V : Type}.

Definition t : Type := list (K * V).

Fixpoint get (d : t) (k : K) : option V :=
  match d with
  | [] => None
  | (k', v) :: rest => if decide (k = k') then Some v else get rest k
  end.

Fixpoint set (d : t) (k : K) (v : V) : t :=
  match d with
  | [] => [(k, v)]
  | (k', v') :: rest =>
      if decide (k = k') then (k, v) :: rest else (k', v') :: set rest k v
  end.

Definition keys (d : t) : list K := d.*1.
End Dict.
Arguments t : clear implicits.
End Dict.

(** ** Rule (parsing.py, class Rule)

    A rule of the grammar the user writes has bare symbols; a rule of the
    extended grammar has triples [(state_before, symbol, state_after)]. *)

Inductive state_ref : Type :=
  | State (n : nat)
  | NoState          (* [None], in the end symbols of an extended grammar *)
  | END.             (* [Grammar.END] *)

Global Instance state_ref_eq_dec : EqDecision state_ref.
Proof. solve_decision. Defined.

Global Instance state_ref_countable : Countable state_ref.
Proof.
  refine (inj_countable'
    (λ s, match s with State n => inl n | NoState => inr true | END => inr false end)
    (λ c, match c with inl n => State n | inr true => NoState | inr false => END end)
    _).
  by intros [].
Defined.

Definition xsymbol : Type := state_ref * symbol * state_ref.

Definition symbol_str (s : symbol) : string :=
  match s with
  | Terminal x => x
  | Nonterminal x => x
  | EMPTY => "<object>"
  end.

Module Rule.

Record t (S : Type) : Type := Make {
  lhs : S;
  rhs : list S;
  prec : option Z;
  rassoc : bool;
  mode : Z;
  pointer : option nat
}.
Arguments Make {S}.
Arguments lhs {S}.
Arguments rhs {S}.
Arguments prec {S}.
Arguments rassoc {S}.
Arguments mode {S}.
Arguments pointer {S}.

Global Instance eq_dec {S} `{EqDecision S} : EqDecision (t S).
Proof. solve_decision. Defined.

Global Instance countable {S} `{Countable S} : Countable (t S).
Proof.
  refine (inj_countable'
    (λ r, (lhs r, rhs r, prec r, rassoc r, mode r, pointer r))
    (λ '(l, r, p, a, m, q), Make l r p a m q) _).
  by intros [].
Defined.

Section Rule.
Context {S : Type}.

Definition with_pointer (self : t S) (p : option nat) : t S :=
  Make (lhs self) (rhs self) (prec self) (rassoc self) (mode self) p.

Definition next_symbol (self : t S) : result (option S) :=
  match pointer self with
  | None => Raise (Exception "Rule has no pointer")
  | Some p =>
      if bool_decide (p = length (rhs self)) then Ok None
      else match rhs self !! p with
           | Some x => Ok (Some x)
           | None => Raise IndexError
           end
  end.

Definition advanced (self : t S) : result (t S) :=
  match pointer self with
  | None => Raise (Exception "Rule has no pointer")
  | Some p =>
      if bool_decide (p = length (rhs self))
      then Raise (Exception "Rule cannot be advanced")
      else Ok (with_pointer self (Some (p + 1)%nat))
  end.

(** [__repr__], over the [str] of the symbols. *)
Definition __repr__ (str : S → string) (self : t S) : string :=
  let toks := str <$> rhs self in
  let toks :=
    match pointer self with
    | Some p => take p toks ++ "." :: drop p toks
    | None => toks
    end in
  let rhs_ := String.concat " " toks in
  match prec self with
  | Some p => str (lhs self) +:+ " -> " +:+ rhs_ +:+ " (" +:+ pretty p +:+ ")"
  | None => str (lhs self) +:+ " -> " +:+ rhs_
  end.
End Rule.

(** [parent]: the rule an extended rule comes from. *)
Definition parent (self : t xsymbol) : t symbol :=
  Make (lhs self).1.2 ((λ s : xsymbol, s.1.2) <$> rhs self)
       (prec self) (rassoc self) (mode self) (pointer self).

End Rule.

(** The newline character. *)
Definition nl : string := String (Ascii.ascii_of_nat 10) "".

(** Left-to-right monadic fold: a [for] loop whose body may raise. *)
Definition foldM {A B} (f : B → A → result B) (l : list A) (b : B) : result B :=
  foldl (λ acc a, b ← acc; f b a) (Ok b) l.

(** A loop that may not terminate is run on [fuel]: [None] means the fuel
    ran out, [Some r] that the Python code finished with [r]. *)
Definition fbind {A B} (m : option (result A)) (k : A → option (result B))
  : option (result B) :=
  match m with
  | None => None
  | Some (Raise e) => Some (Raise e)
  | Some (Ok a) => k a
  end.

Notation "x ⇐ m ; k" := (fbind m (λ x, k))
  (at level 20, m at level 100, k at level 200, only parsing).
Notation "' x ⇐ m ; k" := (fbind m (λ x, k))
  (at level 20, x pattern, m at level 100, k at level 200, only parsing).

Definition foldF {A B} (f : B → A → option (result B)) (l : list A) (b : B)
  : option (result B) :=
  foldl (λ acc a, b ⇐ acc; f b a) (Some (Ok b)) l.

(** [l[i]] *)
Definition index {A} (l : list A) (i : nat) : result A :=
  match l !! i with
  | Some a => Ok a
  | None => Raise IndexError
  end.

(** The entries of the action/goto table: the tuples
    [('shift', None, t)], [('reduce', lhs, n)], [('accept', None, None)],
    and a bare state number for a goto. *)
Inductive entry : Type :=
  | Shift (t : nat)
  | Reduce (lhs : symbol) (n : nat)
  | Accept
  | Goto (t : nat).

Global Instance entry_eq_dec : EqDecision entry.
Proof. solve_decision. Defined.

(** ** Grammar (parsing.py, class Grammar) *)

Module Grammar.

Record t (S : Type) : Type := Make {
  rules : list (Rule.t S);
  start_symbol : S;
  end_symbols : list S
}.
Arguments Make {S}.
Arguments rules {S}.
Arguments start_symbol {S}.
Arguments end_symbols {S}.

(** [is_terminal]: a [str] is a nonterminal; a triple is unpacked and its
    middle component examined; any other object is a terminal. *)
Definition is_terminal (s : symbol) : bool :=
  match s with
  | Nonterminal _ => false
  | _ => true
  end.

Definition is_terminal_x (s : xsymbol) : bool := is_terminal s.1.2.

Definition symbols {S} `{Countable S} (self : t S) : gset S :=
  foldl (λ ts rule, ts ∪ {[Rule.lhs rule]} ∪ list_to_set (Rule.rhs rule))
        ∅ (rules self).

Definition find_rule_indices {S} `{EqDecision S} (self : t S)
    (symbols : list S) : list nat :=
  (λ kr, kr.1) <$>
    filter (λ kr, Rule.lhs kr.2 ∈ symbols) (imap (λ k r, (k, r)) (rules self)).

Definition find_rules {S} `{EqDecision S} (self : t S)
    (symbols : list S) : list (Rule.t S) :=
  filter (λ r, Rule.lhs r ∈ symbols) (rules self).

Definition find_starting_rule_index {S} `{EqDecision S} (self : t S)
  : result nat :=
  match find_rule_indices self [start_symbol self] with
  | [] => Raise (Exception "No starting rule found")
  | [k] =>
      match rules self !! k with
      | Some r =>
          if bool_decide (length (Rule.rhs r) ≠ 1%nat)
          then Raise (Exception "Starting rule must have one token")
          else Ok k
      | None => Raise IndexError
      end
  | _ => Raise (Exception "Multiple starting rules found")
  end.

(** *** FIRST and FOLLOW sets

    Both builders are run on the extended grammar ([build_parser] calls
    [extended_grammar.build_followsets()]), whose symbols are triples; the
    sets hold bare terminals ([sym[1]]) and [EMPTY].

    [firstsets] and [followsets] are dicts pre-populated with a key for
    every symbol of the grammar, and every later subscript is by a symbol
    of some rule, so no subscript can raise [KeyError]: [m !!! k] stands
    for [m[k]]. *)

Local Abbreviation setmap := (gmap xsymbol (gset symbol)).

(** [m[k].update(s)] *)
Definition update (m : setmap) (k : xsymbol) (s : gset symbol) : setmap :=
  <[k := (m !!! k) ∪ s]> m.

Definition prepopulate (init : xsymbol → gset symbol) (self : t xsymbol)
  : setmap :=
  foldl (λ m sym, <[sym := init sym]> m) ∅ (elements (symbols self)).

(** Rules 1 and 2 of [build_firstsets], collecting [nzrules]. *)
Definition first_base (acc : setmap * list (Rule.t xsymbol))
    (rule : Rule.t xsymbol) : setmap * list (Rule.t xsymbol) :=
  let '(firstsets, nzrules) := acc in
  match Rule.rhs rule with
  | [] => (update firstsets (Rule.lhs rule) {[EMPTY]}, nzrules)
  | x :: _ =>
      if is_terminal_x x
      then (update firstsets (Rule.lhs rule) (firstsets !!! x), nzrules)
      else (firstsets, nzrules ++ [rule])
  end.

(** The inner [for symbol in rule.rhs: ... else: ...] of rule 3. *)
Fixpoint first_scan (firstsets : setmap) (lhs : xsymbol)
    (rhs : list xsymbol) : setmap :=
  match rhs with
  | [] => update firstsets lhs {[EMPTY]}
  | symbol :: rest =>
      if bool_decide (EMPTY ∉ firstsets !!! symbol)
      then update firstsets lhs (firstsets !!! symbol)
      else first_scan (update firstsets lhs (firstsets !!! symbol ∖ {[EMPTY]}))
                      lhs rest
  end.

(** The body of [for rule in nzrules]. *)
Definition first_step (acc : setmap * bool) (rule : Rule.t xsymbol)
  : setmap * bool :=
  let '(firstsets, updated) := acc in
  let old_len := size (firstsets !!! Rule.lhs rule) in
  let firstsets' := first_scan firstsets (Rule.lhs rule) (Rule.rhs rule) in
  (firstsets',
   updated || bool_decide (old_len < size (firstsets' !!! Rule.lhs rule))%nat).

(** One turn of the [while updated] loop. *)
Definition first_pass (firstsets : setmap) (nzrules : list (Rule.t xsymbol))
  : setmap * bool :=
  foldl first_step (firstsets, false) nzrules.

(** The [while updated] loop; [None] when [fuel] turns do not reach the
    fixed point. *)
Fixpoint first_loop (fuel : nat) (firstsets : setmap)
    (nzrules : list (Rule.t xsymbol)) : option setmap :=
  match fuel with
  | O => None
  | S fuel =>
      let '(firstsets', updated) := first_pass firstsets nzrules in
      if updated then first_loop fuel firstsets' nzrules else Some firstsets'
  end.

Definition build_firstsets (fuel : nat) (self : t xsymbol) : option setmap :=
  let firstsets :=
    prepopulate (λ sym, if is_terminal_x sym then {[sym.1.2]} else ∅) self in
  let '(firstsets, nzrules) := foldl first_base (firstsets, []) (rules self) in
  first_loop fuel firstsets nzrules.

(** [for k in range(len(rule.rhs) - 1)]: a nonterminal at position [k]
    receives the FIRST set of the symbol at position [k+1]. *)
Fixpoint follow_adjacent (firstsets followsets : setmap)
    (rhs : list xsymbol) : setmap :=
  match rhs with
  | d :: (b :: _) as rest =>
      follow_adjacent firstsets
        (if is_terminal_x d then followsets
         else update followsets d (firstsets !!! b))
        rest
  | _ => followsets
  end.

(** The body of [for rule in self.rules] in the second [while updated]
    loop. *)
Definition follow_step (acc : setmap * bool) (rule : Rule.t xsymbol)
  : setmap * bool :=
  let '(followsets, updated) := acc in
  match last (Rule.rhs rule) with
  | None => (followsets, updated)
  | Some d =>
      if is_terminal d.1.2 then (followsets, updated)
      else
        let old_len := size (followsets !!! d) in
        let followsets' :=
          update followsets d (followsets !!! Rule.lhs rule) in
        (followsets',
         updated || bool_decide (old_len < size (followsets' !!! d))%nat)
  end.

(** One turn of that loop. *)
Definition follow_pass (followsets : setmap) (rules : list (Rule.t xsymbol))
  : setmap * bool :=
  foldl follow_step (followsets, false) rules.

Fixpoint follow_loop (fuel : nat) (followsets : setmap)
    (rules : list (Rule.t xsymbol)) : option setmap :=
  match fuel with
  | O => None
  | S fuel =>
      let '(followsets', updated) := follow_pass followsets rules in
      if updated then follow_loop fuel followsets' rules else Some followsets'
  end.

Definition build_followsets (fuel : nat) (self : t xsymbol) : option setmap :=
  firstsets ← build_firstsets fuel self;
  let followsets :=
    prepopulate
      (λ sym, if bool_decide (sym = start_symbol self)
              then list_to_set ((λ s : xsymbol, s.1.2) <$> end_symbols self)
              else ∅) self in
  let followsets :=
    foldl (λ fs rule, follow_adjacent firstsets fs (Rule.rhs rule))
          followsets (rules self) in
  follow_loop fuel followsets (rules self).

End Grammar.

(** ** ItemSet (parsing.py, class ItemSet)

    An item set is its [items]; a Python [set] is iterated in the order of
    [elements]. *)

Module ItemSet.

Local Abbreviation item := (Rule.t symbol).

(** [{r.next_symbol for r in self.items if r.next_symbol is not None
    and not grammar.is_terminal(r.next_symbol)}] *)
Definition nexts (items : gset item) : result (gset symbol) :=
  foldM (λ acc r,
           n ← Rule.next_symbol r;
           Ok (match n with
               | Some x => if Grammar.is_terminal x then acc else acc ∪ {[x]}
               | None => acc
               end))
        (elements items) ∅.

(** The [while True] loop of [__init__]. *)
Fixpoint complete (fuel : nat) (grammar : Grammar.t symbol)
    (items : gset item) : option (result (gset item)) :=
  match fuel with
  | O => None
  | S fuel =>
      ns ⇐ Some (nexts items);
      let added :=
        omap (λ k, (λ r, Rule.with_pointer r (Some 0%nat))
                     <$> (Grammar.rules grammar !! k))
             (Grammar.find_rule_indices grammar (elements ns)) in
      let items' := items ∪ list_to_set added in
      if bool_decide (size items' = size items) then Some (Ok items')
      else complete fuel grammar items'
  end.

Definition __init__ (fuel : nat) (grammar : Grammar.t symbol)
    (items : gset item) : option (result (gset item)) :=
  complete fuel grammar items.

Definition next_symbols (items : gset item) : result (gset symbol) :=
  foldM (λ acc r,
           n ← Rule.next_symbol r;
           Ok (match n with Some x => acc ∪ {[x]} | None => acc end))
        (elements items) ∅.

Definition advance (items : gset item) (symbol : symbol)
  : result (gset item) :=
  foldM (λ acc i,
           n ← Rule.next_symbol i;
           if bool_decide (n = Some symbol)
           then a ← Rule.advanced i; Ok (acc ∪ {[a]})
           else Ok acc)
        (elements items) ∅.

(** [[i for i in self.items if i.pointer > 0]], as [build_modes] and
    [build_parser] write it. *)
Definition partials (items : gset item) : result (list item) :=
  foldr (λ i acc,
           acc ← acc;
           match Rule.pointer i with
           | None => Raise TypeError
           | Some p => Ok (if bool_decide (0 < p)%nat then i :: acc else acc)
           end)
        (Ok []) (elements items).

End ItemSet.

(** ** TranslationTable (parsing.py, class TranslationTable) *)

Module TranslationTable.

Local Abbreviation item := (Rule.t symbol).

Record t : Type := Make {
  end_symbols : list symbol;
  translation_table : Dict.t (nat * symbol) nat;
  itemsets : list (gset item);
  itemset_index : gmap (gset item) nat
}.

(** The body of [for symbol in self.itemsets[current].next_symbols]. *)
Definition step (fuel : nat) (grammar : Grammar.t symbol) (current : nat)
    (self : t) (symbol : symbol) : option (result t) :=
  cur ⇐ Some (index (itemsets self) current);
  key ⇐ Some (ItemSet.advance cur symbol);
  match itemset_index self !! key with
  | Some itemset =>
      Some (Ok (Make (end_symbols self)
                     (Dict.set (translation_table self) (current, symbol) itemset)
                     (itemsets self) (itemset_index self)))
  | None =>
      let itemset := length (itemsets self) in
      new ⇐ ItemSet.__init__ fuel grammar key;
      Some (Ok (Make (end_symbols self)
                     (Dict.set (translation_table self) (current, symbol) itemset)
                     (itemsets self ++ [new])
                     (<[key := itemset]> (itemset_index self))))
  end.

(** [while current < len(self.itemsets)] *)
Fixpoint loop (fuel : nat) (grammar : Grammar.t symbol) (current : nat)
    (self : t) : option (result t) :=
  match fuel with
  | O => None
  | S fuel =>
      if bool_decide (current < length (itemsets self))%nat then
        cur ⇐ Some (index (itemsets self) current);
        syms ⇐ Some (ItemSet.next_symbols cur);
        self ⇐ foldF (step fuel grammar current) (elements syms) self;
        loop fuel grammar (S current) self
      else Some (Ok self)
  end.

Definition __init__ (fuel : nat) (grammar : Grammar.t symbol)
  : option (result t) :=
  start ⇐ Some (Grammar.find_starting_rule_index grammar);
  rule ⇐ Some (index (Grammar.rules grammar) start);
  let startitem := Rule.with_pointer rule (Some 0%nat) in
  first ⇐ ItemSet.__init__ fuel grammar {[startitem]};
  loop fuel grammar 0
       (Make (Grammar.end_symbols grammar) [] [first] {[ {[startitem]} := 0%nat ]}).

Definition items (self : t) : list ((nat * symbol) * nat) :=
  translation_table self.

(** [self.translation_table[key]] *)
Definition translate (self : t) (key : nat * symbol) : result nat :=
  match Dict.get (translation_table self) key with
  | Some t => Ok t
  | None => Raise KeyError
  end.

(** The body of [for rule in itemset.items], past the [continue]: the
    extended rule, and the left-hand side when it is the one assigned to
    [start_symbol]. *)
Definition extend_rule (self : t) (current : nat) (rule : item)
  : result (Rule.t xsymbol * option xsymbol) :=
  '(_, rhs) ← foldM (λ '(state, rhs) symbol,
                       next ← translate self (state, symbol);
                       Ok (next, rhs ++ [(State state, symbol, State next)]))
                    (Rule.rhs rule) (current, []);
  match Dict.get (translation_table self) (current, Rule.lhs rule) with
  | Some t =>
      Ok (Rule.Make (State current, Rule.lhs rule, State t) rhs
                    (Rule.prec rule) (Rule.rassoc rule) (Rule.mode rule) None,
          None)
  | None =>
      let lhs := (State current, Rule.lhs rule, END) in
      Ok (Rule.Make lhs rhs
                    (Rule.prec rule) (Rule.rassoc rule) (Rule.mode rule) None,
          Some lhs)
  end.

Definition build_extended_grammar (self : t) : result (Grammar.t xsymbol) :=
  '(extended_rules, start_symbol) ←
    foldM (λ acc '(current, itemset),
             foldM (λ '(extended_rules, start_symbol) rule,
                      if bool_decide (Rule.pointer rule ≠ Some 0%nat)
                      then Ok (extended_rules, start_symbol)
                      else
                        '(xrule, start) ← extend_rule self current rule;
                        Ok (extended_rules ∪ {[xrule]},
                            match start with
                            | Some s => Some s
                            | None => start_symbol
                            end))
                   (elements (itemset : gset item)) acc)
          (imap (λ k i, (k, i)) (itemsets self))
          ((∅ : gset (Rule.t xsymbol)), None);
  match start_symbol with
  | None => Raise UnboundLocalError
  | Some start_symbol =>
      Ok (Grammar.Make (elements extended_rules) start_symbol
            ((λ s, (NoState, s, NoState)) <$> end_symbols self))
  end.

Definition build_modes (self : t) : result (list Z) :=
  foldM (λ modes itemset,
           partials ← ItemSet.partials itemset;
           let ms : gset Z := list_to_set (Rule.mode <$> partials) in
           match elements ms with
           | [] => Ok (modes ++ [NORMAL_MODE])
           | [m] => Ok (modes ++ [m])
           | _ =>
               Raise (AssertionError
                        ("mode/mode conflict: [" +:+
                         String.concat ", "
                           (Rule.__repr__ symbol_str <$> partials) +:+ "]"))
           end)
        (itemsets self) [].

End TranslationTable.

(** ** Parser (parsing.py, class Parser) *)

Module Parser.

Local Unset Elimination Schemes.
Inductive t : Type :=
  Make (agtable : Dict.t (nat * symbol) entry) (modes : list Z)
       (hidden : Dict.t Z t) (channel : Z).
Local Set Elimination Schemes.

Definition agtable (p : t) := let 'Make a _ _ _ := p in a.
Definition modes (p : t) := let 'Make _ m _ _ := p in m.
Definition hidden (p : t) := let 'Make _ _ h _ := p in h.
Definition channel (p : t) := let 'Make _ _ _ c := p in c.

(** What the output stack and [children] hold: tokens and the values
    [make_node] returned. *)
Inductive child (A : Type) : Type :=
  | CToken (tok : Token.t)
  | CNode (a : A).
Arguments CToken {A}.
Arguments CNode {A}.

(** [l[-1]] *)
Definition top {A} (l : list A) : result A :=
  match last l with
  | Some a => Ok a
  | None => Raise IndexError
  end.

(** [l[-n:]] and the list after [del l[-n:]], for [n > 0]. *)
Definition suffix {A} (n : nat) (l : list A) : list A :=
  drop (length l - n) l.
Definition del_suffix {A} (n : nat) (l : list A) : list A :=
  take (length l - n) l.

(** The symbols the error message lists: the [token] of every key
    [(state, token)] of the table with [state == set_stack[-1]], in the
    table's iteration order. *)
Definition expected (agtable : Dict.t (nat * symbol) entry) (state : nat)
  : list symbol :=
  (λ k : nat * symbol, k.2) <$>
    filter (λ k : nat * symbol, k.1 = state) (Dict.keys agtable).

Section Run.
(** [str(token)]: the [__repr__] that [attrs] generates. *)
Variable token_str : Token.t → string.

Definition error_message (agtable : Dict.t (nat * symbol) entry)
    (state : nat) (lookahead : Token.t) : string :=
  String.concat nl
    (("Got " +:+ token_str lookahead +:+ " but expected one of:")
       :: ((λ token, "  " +:+ symbol_str token) <$> expected agtable state)).

Definition lexer_t : Type := ReStream.t → Z → result (Token.t * ReStream.t).

(** The span of a reduction. *)
Definition reduction_span {A} (arg : nat)
    (output : list (child A * option TextSpan.t)) (lookahead : Token.t)
  : result TextSpan.t :=
  if bool_decide (0 < arg)%nat then
    match suffix arg output with
    | [] => Raise ValueError
    | popped =>
        spans ← foldr (λ cs acc,
                         acc ← acc;
                         match cs.2 with
                         | Some sp => Ok (sp :: acc)
                         | None => Raise AttributeError
                         end) (Ok []) popped;
        TextSpan.cover spans
    end
  else
    match Token.span lookahead with
    | None => Raise AttributeError
    | Some la =>
        let end_ := TextSpan.start la in
        start ← match last output with
                 | Some (_, Some sp) => Ok (TextSpan.end_ sp)
                 | Some (_, None) => Raise AttributeError
                 | None => Ok end_
                 end;
        Ok (TextSpan.make start.1 start.2 end_.1 end_.2)
    end.

Fixpoint __call__ (fuel : nat) {A : Type} (self : t) (stream : ReStream.t)
    (next_token : lexer_t)
    (make_node : symbol → TextSpan.t → list (child A) → Z → A)
    {struct fuel} : option (result (child A * ReStream.t)) :=
  match fuel with
  | O => None
  | S fuel =>
      '(lookahead, stream) ⇐
         next_token_skip_hidden fuel self stream next_token 0%nat;
      loop fuel self stream next_token make_node [] [0%nat] lookahead
  end

with next_token_skip_hidden (fuel : nat) (self : t) (stream : ReStream.t)
    (next_token : lexer_t) (state : nat)
    {struct fuel} : option (result (Token.t * ReStream.t)) :=
  match fuel with
  | O => None
  | S fuel =>
      mode ⇐ Some (index (modes self) state);
      '(lookahead, stream') ⇐ Some (next_token stream mode);
      if bool_decide (Token.channel lookahead = channel self)
         || bool_decide (Token.channel lookahead = ReStream.CHANNEL_ALL)
      then Some (Ok (lookahead, stream'))
      else
        stream' ⇐ Some (ReStream.rewind stream' lookahead);
        p ⇐ Some (match Dict.get (hidden self) (Token.channel lookahead) with
                  | Some p => Ok p
                  | None => Raise KeyError
                  end);
        '(_, stream') ⇐
           __call__ fuel (A := unit) p stream' next_token (λ _ _ _ _, ());
        next_token_skip_hidden fuel self stream' next_token state
  end

(** The [while True] loop of [__call__]. *)
with loop (fuel : nat) {A : Type} (self : t) (stream : ReStream.t)
    (next_token : lexer_t)
    (make_node : symbol → TextSpan.t → list (child A) → Z → A)
    (output : list (child A * option TextSpan.t)) (set_stack : list nat)
    (lookahead : Token.t)
    {struct fuel} : option (result (child A * ReStream.t)) :=
  match fuel with
  | O => None
  | S fuel =>
      state ⇐ Some (top set_stack);
      match Dict.get (agtable self) (state, Token.t_ lookahead) with
      | None =>
          Some (Raise (ParseError
                         (error_message (agtable self) state lookahead)))
      | Some (Goto _) => Some (Raise TypeError)
      | Some Accept =>
          match output with
          | [(node, _)] => Some (Ok (node, stream))
          | _ => Some (Raise (AssertionError ""))
          end
      | Some (Shift arg) =>
          let output := output ++ [(CToken lookahead, Token.span lookahead)] in
          let set_stack := set_stack ++ [arg] in
          '(lookahead, stream) ⇐
             next_token_skip_hidden fuel self stream next_token arg;
          loop fuel self stream next_token make_node
               output set_stack lookahead
      | Some (Reduce sym arg) =>
          span ⇐ Some (reduction_span arg output lookahead);
          let children :=
            if bool_decide (0 < arg)%nat
            then (λ cs : child A * option TextSpan.t, cs.1)
                   <$> suffix arg output
            else [] in
          let output :=
            if bool_decide (0 < arg)%nat then del_suffix arg output
            else output in
          let set_stack :=
            if bool_decide (0 < arg)%nat then del_suffix arg set_stack
            else set_stack in
          state ⇐ Some (top set_stack);
          goto ⇐ Some (match Dict.get (agtable self) (state, sym) with
                       | None => Raise KeyError
                       | Some (Goto t) => Ok t
                       | Some _ => Raise TypeError
                       end);
          let set_stack := set_stack ++ [goto] in
          mode ⇐ Some (index (modes self) goto);
          let output :=
            output ++ [(CNode (make_node sym span children mode), Some span)] in
          loop fuel self stream next_token make_node
               output set_stack lookahead
      end
  end.
End Run.

End Parser.

(** ** Grammar.build_parser (parsing.py)

    [itemsets] are the states of the translation table, [finalset_rules]
    and [finalset_followsets] the merged final sets, indexed by state. *)

Module BuildParser.

Local Abbreviation agtable_t := (Dict.t (nat * symbol) entry).

(** [f'shift/reduce:\n  {shift_rule}\n  {finalset_rules[k]}'] *)
Definition conflict_msg (shift_rule : Rule.t symbol)
    (reduce_rule : option (Rule.t symbol)) : string :=
  "shift/reduce:" +:+ nl +:+ "  " +:+ Rule.__repr__ symbol_str shift_rule
    +:+ nl +:+ "  " +:+
    match reduce_rule with
    | Some r => Rule.__repr__ symbol_str r
    | None => "None"
    end.

(** The body of [if (k, symbol) in agtable]: [true] stands for
    [continue], the shift entry stays. *)
Definition resolve_conflict (itemsets : list (gset (Rule.t symbol)))
    (reduce_rule : option (Rule.t symbol)) (existing : entry) : result bool :=
  shift_index ← match existing with
                 | Shift t => Ok t
                 | Reduce _ n => Ok n
                 | Accept | Goto _ => Raise TypeError
                 end;
  items ← match itemsets !! shift_index with
           | Some i => Ok i
           | None => Raise IndexError
           end;
  ps ← ItemSet.partials items;
  match ps with
  | [shift_rule] =>
      match Rule.prec shift_rule with
      | None => Raise (AssertionError (conflict_msg shift_rule reduce_rule))
      | Some sp =>
          let msg := conflict_msg shift_rule reduce_rule in
          reduce_rule ← match reduce_rule with
                         | Some r => Ok r
                         | None => Raise AttributeError
                         end;
          match Rule.prec reduce_rule with
          | None => Raise (AssertionError msg)
          | Some rp =>
              Ok ((rp <? sp) || (Rule.rassoc shift_rule && (sp =? rp)))
          end
      end
  | _ => Raise (AssertionError "shift/reduce (GENERATOR BUG)")
  end.

(** The body of [for symbol in followset], for state [k]. *)
Definition add_reduction (self : Grammar.t symbol)
    (itemsets : list (gset (Rule.t symbol)))
    (finalset_rules : list (option (Rule.t symbol)))
    (k : nat) (agtable : agtable_t) (symbol : symbol) : result agtable_t :=
  let reduce_rule := mjoin (finalset_rules !! k) in
  keep ← match Dict.get agtable (k, symbol) with
          | Some existing => resolve_conflict itemsets reduce_rule existing
          | None => Ok false
          end;
  if (keep : bool) then Ok agtable
  else
    reduce_rule ← match reduce_rule with
                   | Some r => Ok r
                   | None => Raise AttributeError
                   end;
    if bool_decide (Rule.lhs reduce_rule = Grammar.start_symbol self)
       && bool_decide (symbol ∈ Grammar.end_symbols self)
    then Ok (Dict.set agtable (k, symbol) Accept)
    else Ok (Dict.set agtable (k, symbol)
               (Reduce (Rule.lhs reduce_rule) (length (Rule.rhs reduce_rule)))).

(** [for k, followset in enumerate(finalset_followsets)] *)
Definition add_reductions (self : Grammar.t symbol)
    (itemsets : list (gset (Rule.t symbol)))
    (finalset_rules : list (option (Rule.t symbol)))
    (finalset_followsets : list (gset symbol))
    (agtable : agtable_t) : result agtable_t :=
  foldM (λ agtable '(k, followset),
           foldM (add_reduction self itemsets finalset_rules k)
                 (elements followset) agtable)
        (imap (λ k f, (k, f)) finalset_followsets) agtable.


(** [for (f, s), t in translation_table.items()] *)
Definition copy_translations (translations : list ((nat * symbol) * nat))
  : agtable_t :=
  foldl (λ agtable '((f, s), t),
           Dict.set agtable (f, s)
             (if Grammar.is_terminal s then Shift t else Goto t))
        [] translations.

(** [f'reduce/reduce:\n  {finalset_rules[final]}\n  {rule.parent}'] *)
Definition reduce_reduce_msg (a b : Rule.t symbol) : string :=
  "reduce/reduce:" +:+ nl +:+ "  " +:+ Rule.__repr__ symbol_str a
    +:+ nl +:+ "  " +:+ Rule.__repr__ symbol_str b.

(** The body of [for rule in extended_grammar.rules]. *)
Definition merge_final (followsets : gmap xsymbol (gset symbol))
    (acc : list (option (Rule.t symbol)) * list (gset symbol))
    (rule : Rule.t xsymbol)
  : result (list (option (Rule.t symbol)) * list (gset symbol)) :=
  let '(finalset_rules, finalset_followsets) := acc in
  final ← match last (Rule.rhs rule) with
           | None => Ok (Rule.lhs rule).1.1
           | Some x => Ok x.2
           end;
  final ← match final with
           | State n => Ok n
           | _ => Raise TypeError
           end;
  existing ← index finalset_rules final;
  _ ← match existing with
      | Some r =>
          if bool_decide (r = Rule.parent rule) then Ok ()
          else Raise (AssertionError (reduce_reduce_msg r (Rule.parent rule)))
      | None => Ok ()
      end;
  follow ← index finalset_followsets final;
  Ok (<[final := Some (Rule.parent rule)]> finalset_rules,
      <[final := follow ∪ followsets !!! Rule.lhs rule]> finalset_followsets).

(** The tables of one grammar: [agtable] and [modes]. *)
Definition build_tables (fuel : nat) (self : Grammar.t symbol)
  : option (result (agtable_t * list Z)) :=
  translation_table ⇐ TranslationTable.__init__ fuel self;
  extended_grammar ⇐
    Some (TranslationTable.build_extended_grammar translation_table);
  modes ⇐ Some (TranslationTable.build_modes translation_table);
  match Grammar.build_followsets fuel extended_grammar with
  | None => None
  | Some followsets =>
      let agtable :=
        copy_translations (TranslationTable.items translation_table) in
      let n := length (TranslationTable.itemsets translation_table) in
      '(finalset_rules, finalset_followsets) ⇐
        Some (foldM (merge_final followsets)
                    (Grammar.rules extended_grammar)
                    (replicate n None, replicate n ∅));
      agtable ⇐
        Some (add_reductions self
                (TranslationTable.itemsets translation_table)
                finalset_rules finalset_followsets agtable);
      Some (Ok (agtable, modes))
  end.

(** [build_parser(hidden, channel)]; an auxiliary grammar is built with
    its channel and no hidden grammars of its own. *)
Definition build_parser (fuel : nat) (self : Grammar.t symbol)
    (hidden : list (Z * Grammar.t symbol)) (channel : Z)
  : option (result Parser.t) :=
  '(agtable, modes) ⇐ build_tables fuel self;
  hidden_parsers ⇐
    foldF (λ parsers '(channel, aux_grammar),
             '(agtable, modes) ⇐ build_tables fuel aux_grammar;
             Some (Ok (Dict.set parsers channel
                         (Parser.Make agtable modes [] channel))))
          hidden [];
  Some (Ok (Parser.Make agtable modes hidden_parsers channel)).

End BuildParser.

(** ** Storage classes (gold/storage.py) *)

Module storage.

Inductive t : Type :=
  | AbsoluteStorage (address width : Z)
  | ImmediateStorage (value width : Z).

Global Instance eq_dec : EqDecision t.
Proof. solve_decision. Defined.

Global Instance countable : Countable t.
Proof.
  refine (inj_countable'
            (λ s, match s with
                  | AbsoluteStorage a w => inl (a, w)
                  | ImmediateStorage v w => inr (v, w)
                  end)
            (λ x, match x with
                  | inl (a, w) => AbsoluteStorage a w
                  | inr (v, w) => ImmediateStorage v w
                  end) _).
  by intros [].
Defined.

End storage.

(** ** Dict keys *)

(** The hashable values a dict is keyed by. [True == 1] and
    [hash(True) == hash(1)]: a [bool] is the key of its integer. The
    storage classes define neither [__eq__] nor [__hash__] and are keyed
    by identity; a value of the model stands for one object. *)
Inductive dict_key : Type :=
  | KNone
  | KInt (n : Z)
  | KStr (s : string)
  | KStorage (s : storage.t).

Global Instance dict_key_eq_dec : EqDecision dict_key.
Proof. solve_decision. Defined.

Global Instance dict_key_countable : Countable dict_key.
Proof.
  refine (inj_countable'
            (λ k, match k with
                  | KNone => inl (inl ())
                  | KInt n => inl (inr n)
                  | KStr s => inr (inl s)
                  | KStorage s => inr (inr s)
                  end)
            (λ x, match x with
                  | inl (inl _) => KNone
                  | inl (inr n) => KInt n
                  | inr (inl s) => KStr s
                  | inr (inr s) => KStorage s
                  end) _).
  by intros [].
Defined.

(** ** AST nodes and the values they hold *)

(** Modelled from the spec: the class [AstNode] is not among the sources.
    A node is [(kind, position, attrs: map<string, any>, children)]; the
    trees drawn in [binding.py] have plain integers and strings among the
    children, so children and attribute values are arbitrary Python values.
    [AstNode] defines neither [__bool__] nor [__len__]: a node is truthy. *)
Local Unset Elimination Schemes.
Inductive value : Type :=
  | VNone
  | VBool (b : bool)
  | VInt (n : Z)
  | VStr (s : string)
  | VStorage (s : storage.t)
  | VDict (d : gmap dict_key value)
  | VNode (n : AstNode)
with AstNode : Type :=
  | Node (t : string) (position : option (Z * Z))
         (attrs : gmap string value) (children : list value).
Local Set Elimination Schemes.

Module ast.

Definition t_ (n : AstNode) := let 'Node t _ _ _ := n in t.
Definition position (n : AstNode) := let 'Node _ p _ _ := n in p.
Definition attrs (n : AstNode) := let 'Node _ _ a _ := n in a.
Definition children (n : AstNode) := let 'Node _ _ _ c := n in c.

Definition with_attrs (n : AstNode) (a : gmap string value) : AstNode :=
  Node (t_ n) (position n) a (children n).

(** Modelled from the spec: [AstNode.get_attr_default(attr, default)] is
    not among the sources. It yields the attribute, storing the default
    first when the attribute is absent: [bind_name] and [bind_constant]
    write into the dict it returns, and the write must reach the node. *)
Definition get_attr_default (n : AstNode) (attr : string) (default : value)
  : value * AstNode :=
  match attrs n !! attr with
  | Some v => (v, n)
  | None => (default, with_attrs n (<[attr := default]> (attrs n)))
  end.

(** Modelled from the spec: [AstNode.__hash__] is not among the
    sources. Nodes are "value trees", compared by value, and a class
    that defines [__eq__] and no [__hash__] is unhashable: hashing a
    node raises [TypeError]. *)
Definition __hash__ (n : AstNode) : result dict_key := Raise TypeError.

(** [node.attrs[key]] *)
Definition attr (n : AstNode) (key : string) : result value :=
  match attrs n !! key with
  | Some v => Ok v
  | None => Raise KeyError
  end.

End ast.

(** Python truthiness, [bool(v)]. *)
Definition truthy (v : value) : bool :=
  match v with
  | VNone => false
  | VBool b => b
  | VInt n => negb (n =? 0)
  | VStr s => negb (String.eqb s "")
  | VStorage _ => true
  | VDict d => negb (bool_decide (dom d = ∅))
  | VNode _ => true
  end.

(** ** Assembler passes (gold/asm.py) *)

Module asm.

Record AsmRun : Type := { data : list Z }.

(** [struct.pack] with the formats the module uses: ["<"] is
    little-endian without padding, [B] an unsigned byte, [H] an unsigned
    16-bit integer; a value out of range raises [struct.error]. *)
Definition pack_B (v : Z) : result (list Z) :=
  if (0 <=? v) && (v <=? 255) then Ok [v] else Raise StructError.

Definition pack_H (v : Z) : result (list Z) :=
  if (0 <=? v) && (v <=? 65535)
  then Ok [Z.land v 255; Z.shiftr v 8]
  else Raise StructError.

Definition pack_BB (a b : Z) : result (list Z) :=
  x ← pack_B a; y ← pack_B b; Ok (x ++ y).

Definition pack_BH (a b : Z) : result (list Z) :=
  x ← pack_B a; y ← pack_H b; Ok (x ++ y).

Definition enter_lda (node : AstNode) : result AsmRun :=
  s ← ast.attr node "storage";
  match s with
  | VStorage (storage.ImmediateStorage value width) =>
      if bool_decide (width ≠ 1) then
        Raise (AssemblyError
                 ("LDA loads one byte (" +:+ pretty width +:+ " given)"))
      else
        d ← pack_BB 0xa9 value; Ok {| data := d |}
  | _ => Raise NotImplementedError
  end.

Definition enter_sta (node : AstNode) : result AsmRun :=
  s ← ast.attr node "storage";
  match s with
  | VStorage (storage.AbsoluteStorage address width) =>
      if bool_decide (width ≠ 1) then
        Raise (AssemblyError
                 ("STA stores one byte (" +:+ pretty width +:+ " given)"))
      else
        d ← pack_BH 0x8d address; Ok {| data := d |}
  | _ => Raise NotImplementedError
  end.

Definition enter_jmp (node : AstNode) : result AsmRun :=
  s ← ast.attr node "storage";
  match s with
  | VStorage (storage.AbsoluteStorage address width) =>
      d ← pack_BH 0x4c address; Ok {| data := d |}
  | _ => Raise NotImplementedError
  end.

Definition enter_rts (node : AstNode) : result AsmRun :=
  Ok {| data := [0x60] |}.

(** The node constructors at the end of the module; the [assert] on the
    argument's type is the [AssertionError]. *)
Definition lda (position : option (Z * Z)) (arg : storage.t) : result AstNode :=
  match arg with
  | storage.ImmediateStorage _ _ =>
      Ok (Node "lda" position
            (<["storage" := VStorage arg]> (<["size" := VInt 2]> ∅)) [])
  | _ => Raise (AssertionError "")
  end.

Definition sta (position : option (Z * Z)) (arg : storage.t) : result AstNode :=
  match arg with
  | storage.AbsoluteStorage _ _ =>
      Ok (Node "sta" position
            (<["storage" := VStorage arg]> (<["size" := VInt 3]> ∅)) [])
  | _ => Raise (AssertionError "")
  end.

Definition jmp (position : option (Z * Z)) (arg : storage.t) : result AstNode :=
  match arg with
  | storage.AbsoluteStorage _ _ =>
      Ok (Node "jmp" position
            (<["storage" := VStorage arg]> (<["size" := VInt 3]> ∅)) [])
  | _ => Raise (AssertionError "")
  end.

Definition rts (position : option (Z * Z)) : AstNode :=
  Node "rts" position (<["size" := VInt 1]> ∅) [].

(** The four opcodes [AssembleWithRelocations] has an [enter_] method
    for. *)
Inductive opcode : Type := LDA | STA | JMP | RTS.

Definition kind (op : opcode) : string :=
  match op with LDA => "lda" | STA => "sta" | JMP => "jmp" | RTS => "rts" end.

(** Modelled from the spec: [TranslationPass.transform_enter] is not among
    the sources; for a node of kind [K] it calls [enter_K(node)]. *)
Definition transform_enter (op : opcode) (node : AstNode) : result AsmRun :=
  match op with
  | LDA => enter_lda node
  | STA => enter_sta node
  | JMP => enter_jmp node
  | RTS => enter_rts node
  end.

End asm.

(** ** Name binding passes (gold/passes/binding.py) *)

Module binding.

(** The state of a [ScopedPass]: [self.scopes], the innermost scope last.
    The scope nodes are shared objects; a write into a dict obtained from
    a scope is a write into that scope, so the stack is threaded through
    every method. *)
Record ScopedPass : Type := { scopes : list AstNode }.

Definition scoped_types : list string := ["unit"; "fun"].

(** The key a value is filed under, [hash(v)]: a dict is unhashable
    and raises [TypeError]. *)
Definition as_key (v : value) : result dict_key :=
  match v with
  | VNone => Ok KNone
  | VBool b => Ok (KInt (if b then 1 else 0))
  | VInt n => Ok (KInt n)
  | VStr s => Ok (KStr s)
  | VStorage s => Ok (KStorage s)
  | VDict _ => Raise TypeError
  | VNode n => ast.__hash__ n
  end.

(** [key in d], with [d[key]] when it is: the key is hashed first. *)
Definition dict_find (d : gmap dict_key value) (key : value)
  : result (option value) :=
  k ← as_key key; Ok (d !! k).

(** [n in s] for two [str]: [n] occurs in [s]. *)
Definition is_substring (n s : string) : bool :=
  match String.index 0 n s with Some _ => true | None => false end.

(** [known[name] = value], where [known] is what the innermost scope
    holds under [attr], a dict unless the tree came with something
    else there: none of the other values supports item assignment
    ([AstNode], which is not among the sources, is taken not to). *)
Definition bind_in (attr : string) (self : ScopedPass) (name : value)
    (v : value) : result ScopedPass :=
  match last (scopes self) with
  | None => Raise IndexError
  | Some scope =>
      let '(known, scope) := ast.get_attr_default scope attr (VDict ∅) in
      match known with
      | VDict d =>
          k ← as_key name;
          let scope :=
            ast.with_attrs scope
              (<[attr := VDict (<[k := v]> d)]> (ast.attrs scope)) in
          Ok {| scopes := removelast (scopes self) ++ [scope] |}
      | _ => Raise TypeError
      end
  end.

(** [for scope in reversed(self.scopes)], over the reversed stack.
    On a dict, [name in known] hashes the name. On a [str], [in] is
    the substring test, which wants a [str] on its left, and
    [known[name]] then raises [TypeError], an index being an integer.
    The other values are not containers ([AstNode], which is not among
    the sources, is taken not to be one): [in] raises [TypeError]. *)
Fixpoint look_up_in (attr : string) (rscopes : list AstNode) (name : value)
  : result (value * list AstNode) :=
  match rscopes with
  | [] => Ok (VNone, [])
  | scope :: rest =>
      let '(known, scope) := ast.get_attr_default scope attr (VDict ∅) in
      match known with
      | VDict d =>
          found ← dict_find d name;
          match found with
          | Some v => Ok (v, scope :: rest)
          | None =>
              '(v, rest) ← look_up_in attr rest name;
              Ok (v, scope :: rest)
          end
      | VStr s =>
          match name with
          | VStr n =>
              if is_substring n s then Raise TypeError
              else
                '(v, rest) ← look_up_in attr rest name;
                Ok (v, scope :: rest)
          | _ => Raise TypeError
          end
      | _ => Raise TypeError
      end
  end.

Definition look_up (attr : string) (self : ScopedPass) (name : value)
  : result (value * ScopedPass) :=
  '(v, rscopes) ← look_up_in attr (reverse (scopes self)) name;
  Ok (v, {| scopes := reverse rscopes |}).

Definition bind_name := bind_in "known_names".
Definition look_up_name := look_up "known_names".
Definition bind_constant := bind_in "known_constants".
Definition look_up_constant := look_up "known_constants".

Module ShadowNames.
Definition exit_constant (self : ScopedPass) (node : AstNode)
  : result (AstNode * ScopedPass) :=
  name ← ast.attr node "name";
  self ← bind_name self name (VBool true);
  Ok (node, self).
End ShadowNames.

Module BindNamesToTypes.
Definition exit_constant (self : ScopedPass) (node : AstNode)
  : result (AstNode * ScopedPass) :=
  name ← ast.attr node "name";
  ty ← ast.attr node "type";
  self ← bind_name self name ty;
  Ok (node, self).
End BindNamesToTypes.

Module EvaluateConstants.
(** [exit_constant] returns the empty list: the node is deleted from
    its parent. *)
Definition exit_constant (self : ScopedPass) (node : AstNode)
  : result (list value * ScopedPass) :=
  name ← ast.attr node "name";
  v ← match ast.children node with
       | v :: _ => Ok v
       | [] => Raise IndexError
       end;
  self ← bind_constant self name v;
  Ok ([], self).
End EvaluateConstants.

Module ResolveConstants.
Definition exit_identifier (self : ScopedPass) (node : AstNode)
  : result (value * ScopedPass) :=
  name ← ast.attr node "name";
  '(v, self) ← look_up_constant self name;
  if negb (truthy v) then Ok (VNode node, self) else Ok (v, self).

Definition exit__scope (node : AstNode) : AstNode :=
  ast.with_attrs node (delete "known_constants" (ast.attrs node)).
End ResolveConstants.

End binding.

(** ** Predicates of the statements *)

(** Every set of [fs'] includes the set [fs] has under the same key. *)
Definition grows (fs fs' : gmap xsymbol (gset symbol)) : Prop :=
  ∀ k, fs !!! k ⊆ fs' !!! k.

(** The dict [known_constants] of [scope] binds [name] to [v]. *)
Definition binds_constant (scope : AstNode) (name : string) (v : value) : Prop :=
  ∃ d, ast.attrs scope !! "known_constants" = Some (VDict d)
       ∧ d !! KStr name = Some v.

(** [scope] has no binding for [name]: it has no [known_constants], or the
    dict lacks the key. *)
Definition lacks_constant (scope : AstNode) (name : string) : Prop :=
  ast.attrs scope !! "known_constants" = None
  ∨ ∃ d, ast.attrs scope !! "known_constants" = Some (VDict d)
         ∧ d !! KStr name = None.

(** ** Worked inputs *)

Module examples.

Definition eof : symbol := Terminal "eof".

(** The grammar [S -> E (prec 1); E -> E eof (prec 0); E -> n], start
    symbol [S], end symbols [[eof]]. Its states:
    0 = {S -> . E, E -> . E eof, E -> . n}, 1 = {S -> E ., E -> E . eof},
    2 = {E -> n .}, 3 = {E -> E eof .}. *)
Definition accept_grammar : Grammar.t symbol :=
  Grammar.Make
    [ Rule.Make (Nonterminal "S") [Nonterminal "E"] (Some 1) false 0 None;
      Rule.Make (Nonterminal "E") [Nonterminal "E"; eof] (Some 0) false 0 None;
      Rule.Make (Nonterminal "E") [Terminal "n"] None false 0 None ]
    (Nonterminal "S") [eof].

Definition rule_S : Rule.t symbol :=
  Rule.Make (Nonterminal "S") [Nonterminal "E"] (Some 1) false 0 None.
Definition rule_E_eof : Rule.t symbol :=
  Rule.Make (Nonterminal "E") [Nonterminal "E"; eof] (Some 0) false 0 None.
Definition rule_E_n : Rule.t symbol :=
  Rule.Make (Nonterminal "E") [Terminal "n"] None false 0 None.

Definition accept_itemsets : list (gset (Rule.t symbol)) :=
  [ {[ Rule.with_pointer rule_S (Some 0%nat);
       Rule.with_pointer rule_E_eof (Some 0%nat);
       Rule.with_pointer rule_E_n (Some 0%nat) ]};
    {[ Rule.with_pointer rule_S (Some 1%nat);
       Rule.with_pointer rule_E_eof (Some 1%nat) ]};
    {[ Rule.with_pointer rule_E_n (Some 1%nat) ]};
    {[ Rule.with_pointer rule_E_eof (Some 2%nat) ]} ].

(** The table after the shifts and gotos have been copied in. *)
Definition accept_agtable : Dict.t (nat * symbol) entry :=
  [ ((0%nat, Nonterminal "E"), Goto 1);
    ((0%nat, Terminal "n"), Shift 2);
    ((1%nat, eof), Shift 3) ].

Definition accept_finalset_rules : list (option (Rule.t symbol)) :=
  [None; Some rule_S; Some rule_E_n; Some rule_E_eof].

(** A pattern matching one literal string. *)
Definition lit (p : string) : Regex := λ s pos,
  if bool_decide (0 ≤ pos)
     && String.eqb (String.substring (Z.to_nat pos) (String.length p) s) p
  then Some {| m_group := p; m_end := pos + ReStream.len p |}
  else None.

(** A stand-in for the [repr] of a token: its type and text. *)
Definition token_str (tok : Token.t) : string :=
  symbol_str (Token.t_ tok) +:+ "=" +:+ default "None" (Token.text tok).

(** The grammar [S -> E; E -> n] and its parser: state 0 shifts [n] to
    state 2 and goes to state 1 on [E]; state 1 accepts on [eof]; state 2
    reduces [E -> n] on [eof]. *)
Definition small_grammar : Grammar.t symbol :=
  Grammar.Make
    [ Rule.Make (Nonterminal "S") [Nonterminal "E"] None false 0 None;
      Rule.Make (Nonterminal "E") [Terminal "n"] None false 0 None ]
    (Nonterminal "S") [eof].

Definition small_parser : Parser.t :=
  Parser.Make
    [ ((0%nat, Nonterminal "E"), Goto 1);
      ((0%nat, Terminal "n"), Shift 2);
      ((1%nat, eof), Accept);
      ((2%nat, eof), Reduce (Nonterminal "E") 1) ]
    [0; 0; 0] [] 0.

Definition small_lexer : Lexer.t :=
  Lexer.__init__ eof
    [Lexer.PT (lit "n") (Terminal "n"); Lexer.PT (lit "+") (Terminal "+")].

(** [make_node] building a parse tree. *)
Local Unset Elimination Schemes.
Inductive tree : Type :=
  | Branch (sym : symbol) (children : list (Parser.child tree)).
Local Set Elimination Schemes.

Definition make_tree (sym : symbol) (span : TextSpan.t)
    (children : list (Parser.child tree)) (mode : Z) : tree :=
  Branch sym children.

(** [constant K = 0] in a unit, and a use of [K]. *)
Definition unit_scope : AstNode := Node "unit" None ∅ [].
Definition constant_K : AstNode :=
  Node "constant" None {["name" := VStr "K"]} [VInt 0].
Definition identifier_K : AstNode :=
  Node "identifier" None {["name" := VStr "K"]} [].

(** The grammar [S -> R; R -> D B; D -> d; B -> (empty)], which derives
    the one sentence [d], and the extended grammar the translation table
    gives for it. *)
Definition nullable_grammar : Grammar.t symbol :=
  Grammar.Make
    [ Rule.Make (Nonterminal "S") [Nonterminal "R"] None false 0 None;
      Rule.Make (Nonterminal "R") [Nonterminal "D"; Nonterminal "B"]
                None false 0 None;
      Rule.Make (Nonterminal "D") [Terminal "d"] None false 0 None;
      Rule.Make (Nonterminal "B") [] None false 0 None ]
    (Nonterminal "S") [eof].

Definition xS : xsymbol := (State 0, Nonterminal "S", END).
Definition xR : xsymbol := (State 0, Nonterminal "R", State 1).
Definition xD : xsymbol := (State 0, Nonterminal "D", State 2).
Definition xB : xsymbol := (State 2, Nonterminal "B", State 4).
Definition xd : xsymbol := (State 0, Terminal "d", State 3).

Definition nullable_xgrammar : Grammar.t xsymbol :=
  Grammar.Make
    [ Rule.Make xB [] None false 0 None;
      Rule.Make xS [xR] None false 0 None;
      Rule.Make xD [xd] None false 0 None;
      Rule.Make xR [xD; xB] None false 0 None ]
    xS [(NoState, eof, NoState)].

Definition d_lexer : Lexer.t :=
  Lexer.__init__ eof [Lexer.PT (lit "d") (Terminal "d")].

End examples.

(** ** Predicates of the further statements *)

(** A lexer rule tuple with the defaults [Lexer.__init__] applies to it. *)
Definition rule_tuple (mptc : Lexer.rule_spec) : Z * (Regex * symbol * Z) :=
  match mptc with
  | Lexer.PT p tt_ => (NORMAL_MODE, (p, tt_, ReStream.CHANNEL_DEFAULT))
  | Lexer.MPT m p tt_ => (m, (p, tt_, ReStream.CHANNEL_DEFAULT))
  | Lexer.MPTC m p tt_ c => (m, (p, tt_, c))
  end.

(** The rules given for [mode], in the order given. *)
Definition rules_of_mode (mode : Z) (rules : list Lexer.rule_spec)
  : list (Regex * symbol * Z) :=
  omap (λ mptc, if bool_decide ((rule_tuple mptc).1 = mode)
                then Some (rule_tuple mptc).2 else None) rules.

(** An item: a rule with its pointer on or between the symbols of its
    right-hand side. *)
Definition is_item (r : Rule.t symbol) : Prop :=
  ∃ p, Rule.pointer r = Some p ∧ (p ≤ length (Rule.rhs r))%nat.

(** [items] is closed: whenever the pointer of an item is before a
    nonterminal, every rule producing that nonterminal is in [items]
    with its pointer at 0. *)
Definition closed_itemset (grammar : Grammar.t symbol)
    (items : gset (Rule.t symbol)) : Prop :=
  ∀ r N rule,
    r ∈ items → Rule.next_symbol r = Ok (Some N) →
    Grammar.is_terminal N = false →
    rule ∈ Grammar.rules grammar → Rule.lhs rule = N →
    Rule.with_pointer rule (Some 0%nat) ∈ items.

(** Every set of [fs] is within [U]. *)
Definition bounded (U : gset symbol) (fs : gmap xsymbol (gset symbol)) : Prop :=
  ∀ k, fs !!! k ⊆ U.

(** The total size of the sets of [fs] under the keys [K]. *)
Definition weight (K : list xsymbol) (fs : gmap xsymbol (gset symbol)) : nat :=
  sum_list ((λ k, size (fs !!! k)) <$> K).

(** What rule 3 of [build_firstsets] asks of the sets for a rule
    [lhs -> rhs]: FIRST of each symbol, without [EMPTY], is in FIRST of
    [lhs] as long as the symbols before it can be empty; the first
    symbol that cannot be empty contributes all of its FIRST set and
    ends the scan; if all can be empty, so can [lhs]. *)
Fixpoint first_rule_holds (fs : gmap xsymbol (gset symbol)) (lhs : xsymbol)
    (rhs : list xsymbol) : Prop :=
  match rhs with
  | [] => EMPTY ∈ fs !!! lhs
  | symbol :: rest =>
      if bool_decide (EMPTY ∉ fs !!! symbol)
      then fs !!! symbol ⊆ fs !!! lhs
      else fs !!! symbol ∖ {[EMPTY]} ⊆ fs !!! lhs
           ∧ first_rule_holds fs lhs rest
  end.

(** The bare symbols that the sets of a grammar can hold: [EMPTY] and
    the middle component of each of its symbols. *)
Definition bare_symbols (g : Grammar.t xsymbol) : gset symbol :=
  {[EMPTY]} ∪ list_to_set ((λ s : xsymbol, s.1.2) <$> elements (Grammar.symbols g)).

(** The dict that [scope] holds under [attr] binds [name] to [v]. *)
Definition binds (attr : string) (scope : AstNode) (name v : value) : Prop :=
  ∃ k d, binding.as_key name = Ok k
         ∧ ast.attrs scope !! attr = Some (VDict d) ∧ d !! k = Some v.

(** [self'] is [self] with [name] bound to [v] under [attr] in the
    innermost scope, the enclosing scopes being the same. *)
Definition bound_innermost (attr : string) (self self' : binding.ScopedPass)
    (name v : value) : Prop :=
  removelast (binding.scopes self') = removelast (binding.scopes self)
  ∧ ∃ scope', last (binding.scopes self') = Some scope'
              ∧ binds attr scope' name v.

(** * Properties *)

(** ** Text spans and tokens *)

Lemma pos_gt_asym p q : TextSpan.pos_gt p q = true → TextSpan.pos_gt q p = false.
Proof. unfold TextSpan.pos_gt, TextSpan.pos_lt. destruct p, q; simpl. lia. Qed.

Lemma pos_gt_false_le p q : TextSpan.pos_gt p q = false → TextSpan.pos_le p q = true.
Proof. unfold TextSpan.pos_gt, TextSpan.pos_lt, TextSpan.pos_le. destruct p, q; simpl. lia. Qed.

Lemma pos_gt_le p q : TextSpan.pos_gt p q = true → TextSpan.pos_le q p = true.
Proof. unfold TextSpan.pos_gt, TextSpan.pos_lt, TextSpan.pos_le. destruct p, q; simpl. lia. Qed.

Lemma pos_gt_total p q :
  TextSpan.pos_gt p q = false → TextSpan.pos_gt q p = false → p = q.
Proof.
  unfold TextSpan.pos_gt, TextSpan.pos_lt. destruct p, q; simpl.
  intros. f_equal; lia.
Qed.

Lemma make_ordered a b c d :
  TextSpan.pos_le (TextSpan.start (TextSpan.make a b c d))
                  (TextSpan.end_ (TextSpan.make a b c d)) = true.
Proof.
  unfold TextSpan.make, TextSpan.__attrs_post_init__.
  destruct (TextSpan.pos_gt _ _) eqn:E;
    unfold TextSpan.start, TextSpan.end_ in *; simpl in *.
  - by apply pos_gt_le.
  - by apply pos_gt_false_le.
Qed.

Lemma make_swap a b c d : TextSpan.make a b c d = TextSpan.make c d a b.
Proof.
  unfold TextSpan.make, TextSpan.__attrs_post_init__, TextSpan.start,
    TextSpan.end_; simpl.
  pose proof (pos_gt_asym (a, b) (c, d)) as Hasym.
  pose proof (pos_gt_total (a, b) (c, d)) as Htot.
  destruct (TextSpan.pos_gt (a, b) (c, d)), (TextSpan.pos_gt (c, d) (a, b));
    try done.
  - by specialize (Hasym eq_refl).
  - by injection (Htot eq_refl eq_refl) as -> ->.
Qed.

Lemma make_endpoints a b c d :
  TextSpan.make a b c d
  = if TextSpan.pos_le (a, b) (c, d)
    then TextSpan.Raw a b c d else TextSpan.Raw c d a b.
Proof.
  unfold TextSpan.make, TextSpan.__attrs_post_init__, TextSpan.start,
    TextSpan.end_, TextSpan.pos_gt, TextSpan.pos_lt, TextSpan.pos_le; simpl.
  destruct (c <? a) eqn:E1, (c =? a) eqn:E2, (d <? b) eqn:E3,
    (a <? c) eqn:E4, (a =? c) eqn:E5, (b <=? d) eqn:E6; simpl; try done; lia.
Qed.

(** C5. [TextSpan(a, b, c, d)] and [TextSpan(c, d, a, b)] compare equal;
    the start of a constructed span is lexicographically at most its
    end; and the constructed span has the endpoints given: [(a, b)] to
    [(c, d)] as they are when [(a, b) <= (c, d)], swapped otherwise. *)
Theorem TextSpan_normalizes (a b c d : Z) :
  TextSpan.__eq__ (TextSpan.make a b c d) (TextSpan.make c d a b) = true
  ∧ TextSpan.pos_le (TextSpan.start (TextSpan.make a b c d))
                    (TextSpan.end_ (TextSpan.make a b c d)) = true
  ∧ TextSpan.make a b c d
    = if TextSpan.pos_le (a, b) (c, d)
      then TextSpan.Raw a b c d else TextSpan.Raw c d a b.
Proof.
  split; [|split; [apply make_ordered|apply make_endpoints]].
  unfold TextSpan.__eq__. apply bool_decide_eq_true. apply make_swap.
Qed.

(** C9. Two tokens compare equal exactly when their [t] and [text] agree;
    [channel] and [span] play no part. *)
Theorem Token_eq_ignores_channel_and_span (a b : Token.t) :
  Token.__eq__ a b = true ↔ Token.t_ a = Token.t_ b ∧ Token.text a = Token.text b.
Proof.
  unfold Token.__eq__, Token.cmp_key. rewrite bool_decide_eq_true.
  split; [by intros [= -> ->]|by intros [-> ->]].
Qed.


(** ** The stream: [produce] and [rewind] *)

Lemma make_same_line l c e :
  c ≤ e → TextSpan.make l c l e = TextSpan.Raw l c l e.
Proof.
  intros H. unfold TextSpan.make, TextSpan.__attrs_post_init__, TextSpan.pos_gt,
    TextSpan.pos_lt, TextSpan.start, TextSpan.end_; simpl.
  replace (l <? l) with false by lia. replace (e <? c) with false by lia.
  by rewrite andb_false_r.
Qed.

(** C10. A token made by [produce] from a match ending at or after the
    current column has a span on one line, ending at the stream's position
    after the call; [rewind] with that token gives back the stream as it
    was before [produce], and touches the column only. *)
Theorem produce_then_rewind (s : ReStream.t) (sym : symbol) (m : Match)
    (channel : Z) (Hend : ReStream.column s ≤ m_end m) :
  let token := (ReStream.produce s sym m channel).1 in
  let s' := (ReStream.produce s sym m channel).2 in
  (∃ sp, Token.span token = Some sp
         ∧ TextSpan.start_line sp = TextSpan.end_line sp
         ∧ TextSpan.end_ sp = (ReStream.line s', ReStream.column s'))
  ∧ ReStream.rewind s' token = Ok s
  ∧ ReStream.stream s = ReStream.stream s'
  ∧ ReStream.current s = ReStream.current s'
  ∧ ReStream.line s = ReStream.line s'.
Proof.
  destruct s as [st cur l c]; simpl in *.
  rewrite make_same_line by done.
  split; [by eexists|].
  split; [|done].
  unfold ReStream.rewind; simpl.
  by rewrite bool_decide_eq_true_2.
Qed.

Lemma produce_then_rewind_witness :
  let s := ReStream.Make [] "let x" 1 0 in
  let m := {| m_group := "let"; m_end := 3 |} in
  ReStream.column s ≤ m_end m
  ∧ ReStream.rewind (ReStream.produce s (Terminal "LET") m 0).2
                    (ReStream.produce s (Terminal "LET") m 0).1 = Ok s.
Proof.
  split; [simpl; lia|].
  apply (produce_then_rewind (ReStream.Make [] "let x" 1 0) (Terminal "LET")
           {| m_group := "let"; m_end := 3 |} 0).
  simpl; lia.
Defined.

(** ** Assembly *)

Lemma pack_B_ok v : 0 ≤ v ≤ 255 → asm.pack_B v = Ok [v].
Proof.
  intros H. unfold asm.pack_B.
  replace (0 <=? v) with true by lia. by replace (v <=? 255) with true by lia.
Qed.

Lemma pack_B_is_ok v : is_ok (asm.pack_B v) ↔ 0 ≤ v ≤ 255.
Proof.
  unfold asm.pack_B.
  destruct (0 <=? v) eqn:E1, (v <=? 255) eqn:E2; simpl; lia.
Qed.

(** [pack_H] writes the low byte first. *)
Lemma pack_H_ok v : 0 ≤ v ≤ 65535 → asm.pack_H v = Ok [v mod 256; v / 256].
Proof.
  intros H. unfold asm.pack_H.
  replace (0 <=? v) with true by lia. replace (v <=? 65535) with true by lia.
  simpl. do 3 f_equal.
  - change 255 with (Z.ones 8). rewrite Z.land_ones by lia. done.
  - rewrite Z.shiftr_div_pow2 by lia. done.
Qed.

Lemma pack_H_is_ok v : is_ok (asm.pack_H v) ↔ 0 ≤ v ≤ 65535.
Proof.
  unfold asm.pack_H.
  destruct (0 <=? v) eqn:E1, (v <=? 65535) eqn:E2; simpl; lia.
Qed.

Lemma pack_BH_ok op v :
  0 ≤ op ≤ 255 → 0 ≤ v ≤ 65535 → asm.pack_BH op v = Ok [op; v mod 256; v / 256].
Proof.
  intros. unfold asm.pack_BH. rewrite pack_B_ok by done. simpl.
  by rewrite pack_H_ok.
Qed.

Lemma attr_lookup node key v :
  ast.attrs node !! key = Some v → ast.attr node key = Ok v.
Proof. unfold ast.attr. by intros ->. Qed.

Lemma enter_lda_bytes node v :
  ast.attrs node !! "storage" = Some (VStorage (storage.ImmediateStorage v 1)) →
  0 ≤ v ≤ 255 →
  asm.enter_lda node = Ok {| asm.data := [0xa9; v] |}.
Proof.
  intros Hs Hv. unfold asm.enter_lda. rewrite (attr_lookup _ _ _ Hs). simpl.
  unfold asm.pack_BB. rewrite (pack_B_ok 169) by lia. simpl.
  by rewrite pack_B_ok.
Qed.

Lemma enter_sta_bytes node addr :
  ast.attrs node !! "storage" = Some (VStorage (storage.AbsoluteStorage addr 1)) →
  0 ≤ addr ≤ 65535 →
  asm.enter_sta node = Ok {| asm.data := [0x8d; addr mod 256; addr / 256] |}.
Proof.
  intros Hs Hv. unfold asm.enter_sta. rewrite (attr_lookup _ _ _ Hs). simpl.
  by rewrite pack_BH_ok by lia.
Qed.

Lemma enter_jmp_bytes node addr w :
  ast.attrs node !! "storage" = Some (VStorage (storage.AbsoluteStorage addr w)) →
  0 ≤ addr ≤ 65535 →
  asm.enter_jmp node = Ok {| asm.data := [0x4c; addr mod 256; addr / 256] |}.
Proof.
  intros Hs Hv. unfold asm.enter_jmp. rewrite (attr_lookup _ _ _ Hs). simpl.
  by rewrite pack_BH_ok by lia.
Qed.

(** C8. The bytes emitted: [lda] of an immediate byte [v] gives [A9 v];
    [sta] of a 16-bit address of width 1 gives [8D lo hi]; [jmp] of a
    16-bit address of any width gives [4C lo hi]; [rts] gives [60]; and
    [sta] of [$D020] gives [8D 20 D0]. *)
Theorem emitted_bytes (n_lda n_sta n_jmp n_rts n_d020 : AstNode)
    (v addr target w : Z)
    (Hlda : ast.attrs n_lda !! "storage"
            = Some (VStorage (storage.ImmediateStorage v 1)))
    (Hv : 0 ≤ v ≤ 255)
    (Hsta : ast.attrs n_sta !! "storage"
            = Some (VStorage (storage.AbsoluteStorage addr 1)))
    (Haddr : 0 ≤ addr ≤ 65535)
    (Hjmp : ast.attrs n_jmp !! "storage"
            = Some (VStorage (storage.AbsoluteStorage target w)))
    (Htarget : 0 ≤ target ≤ 65535)
    (Hd020 : ast.attrs n_d020 !! "storage"
             = Some (VStorage (storage.AbsoluteStorage 0xD020 1))) :
  asm.enter_lda n_lda = Ok {| asm.data := [0xA9; v] |}
  ∧ asm.enter_sta n_sta = Ok {| asm.data := [0x8D; addr mod 256; addr / 256] |}
  ∧ asm.enter_jmp n_jmp
    = Ok {| asm.data := [0x4C; target mod 256; target / 256] |}
  ∧ asm.enter_rts n_rts = Ok {| asm.data := [0x60] |}
  ∧ asm.enter_sta n_d020 = Ok {| asm.data := [0x8D; 0x20; 0xD0] |}.
Proof.
  repeat split.
  - by apply enter_lda_bytes.
  - by apply enter_sta_bytes.
  - by eapply enter_jmp_bytes.
  - by rewrite (enter_sta_bytes _ _ Hd020).
Qed.

Lemma emitted_bytes_witness :
  let imm := Node "lda" None {["storage" := VStorage (storage.ImmediateStorage 42 1)]} [] in
  let d020 := Node "sta" None {["storage" := VStorage (storage.AbsoluteStorage 0xD020 1)]} [] in
  let j := Node "jmp" None {["storage" := VStorage (storage.AbsoluteStorage 0x1000 2)]} [] in
  asm.enter_lda imm = Ok {| asm.data := [0xA9; 0x2A] |}
  ∧ asm.enter_sta d020 = Ok {| asm.data := [0x8D; 0x20; 0xD0] |}
  ∧ asm.enter_jmp j = Ok {| asm.data := [0x4C; 0x00; 0x10] |}
  ∧ asm.enter_rts (asm.rts None) = Ok {| asm.data := [0x60] |}
  ∧ asm.enter_sta d020 = Ok {| asm.data := [0x8D; 0x20; 0xD0] |}.
Proof.
  apply (emitted_bytes
           (Node "lda" None {["storage" := VStorage (storage.ImmediateStorage 42 1)]} [])
           (Node "sta" None {["storage" := VStorage (storage.AbsoluteStorage 0xD020 1)]} [])
           (Node "jmp" None {["storage" := VStorage (storage.AbsoluteStorage 0x1000 2)]} [])
           (asm.rts None)
           (Node "sta" None {["storage" := VStorage (storage.AbsoluteStorage 0xD020 1)]} [])
           42 0xD020 0x1000 2);
    first [reflexivity | lia].
Defined.

Lemma pack_BB_is_ok op v : 0 ≤ op ≤ 255 → is_ok (asm.pack_BB op v) ↔ 0 ≤ v ≤ 255.
Proof.
  intros Hop. unfold asm.pack_BB. rewrite (pack_B_ok op) by done. simpl.
  rewrite <- pack_B_is_ok. by destruct (asm.pack_B v).
Qed.

Lemma pack_BH_is_ok op v : 0 ≤ op ≤ 255 → is_ok (asm.pack_BH op v) ↔ 0 ≤ v ≤ 65535.
Proof.
  intros Hop. unfold asm.pack_BH. rewrite (pack_B_ok op) by done. simpl.
  rewrite <- pack_H_is_ok. by destruct (asm.pack_H v).
Qed.

Lemma is_ok_bind_data (r : result (list Z)) :
  is_ok (d ← r; Ok {| asm.data := d |}) ↔ is_ok r.
Proof. by destruct r. Qed.

Lemma attr_missing node key :
  ast.attrs node !! key = None → ast.attr node key = Raise KeyError.
Proof. unfold ast.attr. by intros ->. Qed.

(** C2, as the code has it, for every node, [val] being what the node
    holds under [storage], if anything. [rts] succeeds on every node: it
    reads no operand, and the nodes [rts] builds have no [storage].
    [lda] succeeds exactly on an immediate of width 1 whose value is a
    byte, [sta] exactly on an absolute of width 1 whose address has 16
    bits, [jmp] exactly on an absolute whose address has 16 bits; [lda]
    and [sta] on their own storage kind with another width raise
    [AssemblyError] with the mnemonic and the width; any other value
    under [storage] raises [NotImplementedError], and a node without
    [storage] raises [KeyError]. *)
Theorem assemble_outcomes (op : asm.opcode) (node : AstNode)
    (val : option value)
    (Hs : ast.attrs node !! "storage" = val) :
  match op, val with
  | asm.RTS, _ => is_ok (asm.transform_enter op node)
  | asm.LDA, Some (VStorage (storage.ImmediateStorage v w)) =>
      (is_ok (asm.transform_enter op node) ↔ w = 1 ∧ 0 ≤ v ≤ 255)
      ∧ (w ≠ 1 →
         asm.transform_enter op node
         = Raise (AssemblyError
                    ("LDA loads one byte (" +:+ pretty w +:+ " given)")))
  | asm.STA, Some (VStorage (storage.AbsoluteStorage a w)) =>
      (is_ok (asm.transform_enter op node) ↔ w = 1 ∧ 0 ≤ a ≤ 65535)
      ∧ (w ≠ 1 →
         asm.transform_enter op node
         = Raise (AssemblyError
                    ("STA stores one byte (" +:+ pretty w +:+ " given)")))
  | asm.JMP, Some (VStorage (storage.AbsoluteStorage a w)) =>
      is_ok (asm.transform_enter op node) ↔ 0 ≤ a ≤ 65535
  | _, Some _ => asm.transform_enter op node = Raise NotImplementedError
  | _, None => asm.transform_enter op node = Raise KeyError
  end.
Proof.
  destruct op; simpl;
    unfold asm.enter_lda, asm.enter_sta, asm.enter_jmp, asm.enter_rts;
    [| | |by destruct val as [[]|]];
    (destruct val as [val|]; [rewrite (attr_lookup _ _ _ Hs)
                             |by rewrite (attr_missing _ _ Hs)]); simpl.
  - destruct val as [| | | |[a w|v w]| |]; try done.
    case_bool_decide as Hw.
    + split; [|done]. simpl. split; [done|]. by intros [? _].
    + split; [|done]. rewrite is_ok_bind_data, pack_BB_is_ok by lia.
      tauto.
  - destruct val as [| | | |[a w|v w]| |]; try done.
    case_bool_decide as Hw.
    + split; [|done]. simpl. split; [done|]. by intros [? _].
    + split; [|done]. rewrite is_ok_bind_data, pack_BH_is_ok by lia.
      tauto.
  - destruct val as [| | | |[a w|v w]| |]; try done.
    by rewrite is_ok_bind_data, pack_BH_is_ok by lia.
Qed.

Lemma assemble_outcomes_witness :
  let node :=
    Node "lda" None {["storage" := VStorage (storage.ImmediateStorage 42 2)]} [] in
  ((is_ok (asm.transform_enter asm.LDA node) ↔ 2 = 1 ∧ 0 ≤ 42 ≤ 255)
   ∧ (2 ≠ 1 →
      asm.transform_enter asm.LDA node
      = Raise (AssemblyError ("LDA loads one byte (" +:+ pretty 2 +:+ " given)"))))
  ∧ is_ok (asm.transform_enter asm.RTS (asm.rts None))
  ∧ asm.transform_enter asm.JMP (asm.rts None) = Raise KeyError.
Proof.
  split; [|split].
  - apply (assemble_outcomes asm.LDA
             (Node "lda" None
                {["storage" := VStorage (storage.ImmediateStorage 42 2)]} [])
             (Some (VStorage (storage.ImmediateStorage 42 2)))).
    reflexivity.
  - apply (assemble_outcomes asm.RTS (asm.rts None) None). reflexivity.
  - apply (assemble_outcomes asm.JMP (asm.rts None) None). reflexivity.
Defined.

(** C2, as stated, fails: [lda] on an absolute storage raises
    [NotImplementedError], not [AssemblyError]; and [lda] on an immediate
    of width 1 whose value is not a byte does not succeed. *)
Lemma assemble_wrong_kind_not_assembly_error :
  let node :=
    Node "lda" None {["storage" := VStorage (storage.AbsoluteStorage 0x1000 1)]} [] in
  asm.transform_enter asm.LDA node = Raise NotImplementedError
  ∧ (∀ msg, asm.transform_enter asm.LDA node ≠ Raise (AssemblyError msg))
  ∧ ¬ is_ok (asm.lda None (storage.ImmediateStorage 256 1)
             ≫= asm.transform_enter asm.LDA).
Proof.
  split; [reflexivity|]. split; [by intros msg|].
  vm_compute. tauto.
Qed.

(** ** Table assembly: shift/reduce conflicts *)

Lemma Dict_get_set {K} `{EqDecision K} {V} (d : Dict.t K V) k v :
  Dict.get (Dict.set d k v) k = Some v.
Proof.
  induction d as [|[k' v'] d IH]; simpl.
  - by rewrite decide_True.
  - destruct (decide (k = k')) as [->|Hne]; simpl.
    + by rewrite decide_True.
    + by rewrite decide_False.
Qed.

Lemma Dict_get_set_ne {K} `{EqDecision K} {V} (d : Dict.t K V) k k' v :
  k ≠ k' → Dict.get (Dict.set d k v) k' = Dict.get d k'.
Proof.
  intros Hne. induction d as [|[k0 v0] d IH]; simpl.
  - by rewrite decide_False.
  - destruct (decide (k = k0)) as [->|Hne0]; simpl.
    + by rewrite !decide_False.
    + destruct (decide (k' = k0)); [done|apply IH].
Qed.

Lemma Dict_keys_set {K} `{EqDecision K} {V} (d : Dict.t K V) k v k' :
  k' ∈ Dict.keys (Dict.set d k v) ↔ k' = k ∨ k' ∈ Dict.keys d.
Proof.
  unfold Dict.keys. induction d as [|[k0 v0] d IH]; simpl.
  - rewrite list_elem_of_singleton. split; [by left|].
    by intros [?|?%elem_of_nil].
  - destruct (decide (k = k0)) as [->|Hne]; simpl; rewrite !elem_of_cons.
    + split; [by intros [?|?]; [left|right; right]|].
      by intros [?|[?|?]]; [left|left|right].
    + rewrite IH. split.
      * by intros [?|[?|?]]; [right; left|left|right; right].
      * by intros [?|[?|?]]; [right; left|left|right; right].
Qed.

(** Assignment keeps the keys of a dict distinct. *)
Lemma Dict_set_NoDup {K} `{EqDecision K} {V} (d : Dict.t K V) k v :
  NoDup (Dict.keys d) → NoDup (Dict.keys (Dict.set d k v)).
Proof.
  unfold Dict.keys. induction d as [|[k0 v0] d IH]; simpl; intros Hnd.
  - apply NoDup_singleton.
  - apply NoDup_cons in Hnd as [Hnotin Hnd].
    destruct (decide (k = k0)) as [->|Hne]; simpl; apply NoDup_cons.
    + done.
    + split; [|by apply IH].
      intros Hin. apply (Dict_keys_set d k v k0) in Hin as [?|?]; [congruence|done].
Qed.

(** An exception raised in the body of a [for] loop leaves the loop. *)
Lemma foldM_raise {A B} (f : B → A → result B) l e :
  foldl (λ acc a, b ← acc; f b a) (Raise e) l = Raise e.
Proof. induction l; [done|]. simpl. apply IHl. Qed.

Lemma foldM_cons_raise {A B} (f : B → A → result B) a l b e :
  f b a = Raise e → foldM f (a :: l) b = Raise e.
Proof. intros H. unfold foldM. simpl. rewrite H. apply foldM_raise. Qed.

(** C4, as the code has it. When [(k, symbol)] holds a shift to state [t],
    [t] has a single partially applied rule and the reducing rule is known:
    with both precedences present the shift stays exactly when the shift
    rule's precedence is greater, or is equal and the shift rule is
    right-associative, and otherwise the entry becomes the accept entry if
    the reducing rule produces the start symbol and [symbol] is an end
    symbol, the reduce entry if not; with a precedence missing the body
    raises [AssertionError]. *)
Theorem shift_reduce_resolution (self : Grammar.t symbol)
    (itemsets : list (gset (Rule.t symbol)))
    (finalset_rules : list (option (Rule.t symbol)))
    (k : nat) (agtable : Dict.t (nat * symbol) entry) (sym : symbol)
    (t : nat) (items : gset (Rule.t symbol)) (shift_rule reduce_rule : Rule.t symbol)
    (Hentry : Dict.get agtable (k, sym) = Some (Shift t))
    (Hitems : itemsets !! t = Some items)
    (Hpartials : ItemSet.partials items = Ok [shift_rule])
    (Hrule : finalset_rules !! k = Some (Some reduce_rule)) :
  match Rule.prec shift_rule, Rule.prec reduce_rule with
  | Some sp, Some rp =>
      ∃ agtable',
        BuildParser.add_reduction self itemsets finalset_rules k agtable sym
        = Ok agtable'
        ∧ (Dict.get agtable' (k, sym) = Some (Shift t)
           ↔ rp < sp ∨ (sp = rp ∧ Rule.rassoc shift_rule = true))
        ∧ (¬ (rp < sp ∨ (sp = rp ∧ Rule.rassoc shift_rule = true)) →
           Dict.get agtable' (k, sym)
           = Some (if bool_decide (Rule.lhs reduce_rule = Grammar.start_symbol self)
                      && bool_decide (sym ∈ Grammar.end_symbols self)
                   then Accept
                   else Reduce (Rule.lhs reduce_rule)
                               (length (Rule.rhs reduce_rule))))
  | _, _ =>
      ∃ msg,
        BuildParser.add_reduction self itemsets finalset_rules k agtable sym
        = Raise (AssertionError msg)
  end.
Proof.
  unfold BuildParser.add_reduction, BuildParser.resolve_conflict.
  rewrite Hentry, Hrule. simpl. rewrite Hitems. simpl. rewrite Hpartials. simpl.
  destruct (Rule.prec shift_rule) as [sp|] eqn:Hsp; [|by eexists].
  simpl. destruct (Rule.prec reduce_rule) as [rp|] eqn:Hrp; [|by eexists].
  simpl.
  destruct ((rp <? sp) || (Rule.rassoc shift_rule && (sp =? rp))) eqn:Hkeep.
  - exists agtable. split; [done|].
    assert (rp < sp ∨ sp = rp ∧ Rule.rassoc shift_rule = true) as Hc.
    { destruct (Rule.rassoc shift_rule); simpl in Hkeep; lia. }
    split; [done|]. by intros [].
  - assert (¬ (rp < sp ∨ sp = rp ∧ Rule.rassoc shift_rule = true)) as Hc.
    { destruct (Rule.rassoc shift_rule); simpl in Hkeep; [lia|].
      intros [?|[_ [=]]]. lia. }
    destruct (bool_decide (Rule.lhs reduce_rule = Grammar.start_symbol self)
              && bool_decide (sym ∈ Grammar.end_symbols self));
      eexists; (split; [done|]); rewrite Dict_get_set;
      (split; [|done]); (split; [by intros [=]|done]).
Qed.

Lemma shift_reduce_resolution_witness :
  ∃ agtable',
    BuildParser.add_reduction examples.accept_grammar examples.accept_itemsets
      examples.accept_finalset_rules 1 examples.accept_agtable examples.eof
    = Ok agtable'
    ∧ (Dict.get agtable' (1%nat, examples.eof) = Some (Shift 3)
       ↔ 1 < 0 ∨ (0 = 1 ∧ false = true))
    ∧ (¬ (1 < 0 ∨ (0 = 1 ∧ false = true)) →
       Dict.get agtable' (1%nat, examples.eof) = Some Accept).
Proof.
  apply (shift_reduce_resolution examples.accept_grammar
           examples.accept_itemsets examples.accept_finalset_rules 1
           examples.accept_agtable examples.eof 3
           {[ Rule.with_pointer examples.rule_E_eof (Some 2%nat) ]}
           (Rule.with_pointer examples.rule_E_eof (Some 2%nat))
           examples.rule_S);
    reflexivity.
Defined.

(** C4, as stated, fails: here the shift on [eof] in state 1 loses to the
    rule [S -> E], both rules have a precedence, and the entry installed
    is the accept entry, not a reduce entry. *)
Lemma shift_reduce_installs_accept :
  Dict.get examples.accept_agtable (1%nat, examples.eof) = Some (Shift 3)
  ∧ ItemSet.partials {[ Rule.with_pointer examples.rule_E_eof (Some 2%nat) ]}
    = Ok [Rule.with_pointer examples.rule_E_eof (Some 2%nat)]
  ∧ Rule.prec examples.rule_E_eof = Some 0
  ∧ Rule.prec examples.rule_S = Some 1
  ∧ ∃ agtable',
      BuildParser.add_reduction examples.accept_grammar examples.accept_itemsets
        examples.accept_finalset_rules 1 examples.accept_agtable examples.eof
      = Ok agtable'
      ∧ Dict.get agtable' (1%nat, examples.eof) = Some Accept
      ∧ ∀ lhs n, Dict.get agtable' (1%nat, examples.eof) ≠ Some (Reduce lhs n).
Proof.
  repeat (split; [reflexivity|]).
  eexists. split; [vm_compute; reflexivity|].
  split; [reflexivity|]. intros lhs n. by vm_compute.
Qed.

(** ** The parser runtime: the error message *)

Lemma Dict_get_is_Some {K} `{EqDecision K} {V} (d : Dict.t K V) k :
  is_Some (Dict.get d k) ↔ k ∈ Dict.keys d.
Proof.
  unfold Dict.keys. induction d as [|[k' v] d IH]; simpl.
  - split; [by intros [? [=]]|by intros ?%elem_of_nil].
  - rewrite elem_of_cons. destruct (decide (k = k')) as [->|Hne].
    + split; [by left|by eexists].
    + rewrite IH. split; [by right|]. by intros [?|?].
Qed.

Lemma expected_spec (agtable : Dict.t (nat * symbol) entry) state σ :
  σ ∈ Parser.expected agtable state ↔ is_Some (Dict.get agtable (state, σ)).
Proof.
  rewrite Dict_get_is_Some. unfold Parser.expected.
  rewrite list_elem_of_fmap. split.
  - intros [[s' σ'] [-> [Hs Hin]%list_elem_of_filter]]. simpl in *. by subst.
  - intros Hin. exists (state, σ). split; [done|].
    by apply list_elem_of_filter.
Qed.

Lemma expected_NoDup (agtable : Dict.t (nat * symbol) entry) state :
  NoDup (Dict.keys agtable) → NoDup (Parser.expected agtable state).
Proof.
  intros Hnd. unfold Parser.expected.
  apply NoDup_fmap_2_strong; [|by apply NoDup_filter].
  intros [s1 x1] [s2 x2] [H1 _]%list_elem_of_filter [H2 _]%list_elem_of_filter.
  simpl in *. by intros ->; subst.
Qed.

(** C7, as the code has it. With no entry for (top state, lookahead type)
    the loop raises [ParseError]; the message names the lookahead and then
    lists, once each, exactly the symbols -- terminals and nonterminals --
    that have an entry in the table for the top state. *)
Theorem parse_error_lists_table_keys (token_str : Token.t → string)
    (fuel : nat) (A : Type) (self : Parser.t) (stream : ReStream.t)
    (next_token : Parser.lexer_t)
    (make_node : symbol → TextSpan.t → list (Parser.child A) → Z → A)
    (output : list (Parser.child A * option TextSpan.t))
    (set_stack : list nat) (lookahead : Token.t) (state : nat)
    (Hdict : NoDup (Dict.keys (Parser.agtable self)))
    (Htop : last set_stack = Some state)
    (Hmiss : Dict.get (Parser.agtable self) (state, Token.t_ lookahead) = None) :
  ∃ listed : list symbol,
    Parser.loop token_str (S fuel) self stream next_token make_node
                output set_stack lookahead
    = Some (Raise (ParseError
        (String.concat nl
           (("Got " +:+ token_str lookahead +:+ " but expected one of:")
              :: ((λ σ, "  " +:+ symbol_str σ) <$> listed)))))
    ∧ NoDup listed
    ∧ ∀ σ, σ ∈ listed ↔ is_Some (Dict.get (Parser.agtable self) (state, σ)).
Proof.
  exists (Parser.expected (Parser.agtable self) state).
  split; [|split].
  - simpl. unfold Parser.top. rewrite Htop. simpl. by rewrite Hmiss.
  - by apply expected_NoDup.
  - intros σ. apply expected_spec.
Qed.

Lemma parse_error_lists_table_keys_witness :
  ∃ listed : list symbol,
    Parser.loop examples.token_str 1 examples.small_parser
      (ReStream.Make [] "+" 1 1) (Lexer.__call__ examples.small_lexer)
      examples.make_tree [] [0%nat]
      (Token.Make (Terminal "+") (Some "+") 0 (Some (TextSpan.make 1 0 1 1)))
    = Some (Raise (ParseError
        (String.concat nl
           ("Got +=+ but expected one of:"
              :: ((λ σ, "  " +:+ symbol_str σ) <$> listed)))))
    ∧ NoDup listed
    ∧ ∀ σ, σ ∈ listed
           ↔ is_Some (Dict.get (Parser.agtable examples.small_parser) (0%nat, σ)).
Proof.
  apply (parse_error_lists_table_keys examples.token_str 0 examples.tree
           examples.small_parser (ReStream.Make [] "+" 1 1)
           (Lexer.__call__ examples.small_lexer) examples.make_tree [] [0%nat]
           (Token.Make (Terminal "+") (Some "+") 0 (Some (TextSpan.make 1 0 1 1)))
           0%nat).
  - apply (bool_decide_eq_true_1 _). reflexivity.
  - reflexivity.
  - reflexivity.
Defined.

(** C7, as stated, fails: parsing the input [+] with the table of
    [S -> E; E -> n] raises a [ParseError] whose message lists [E], which
    is a nonterminal and not a token. *)
Lemma parse_error_lists_nonterminal :
  Parser.__call__ examples.token_str 2 examples.small_parser
    (ReStream.__init__ ["+"]) (Lexer.__call__ examples.small_lexer)
    examples.make_tree
  = Some (Raise (ParseError
      ("Got +=+ but expected one of:" +:+ nl +:+ "  E" +:+ nl +:+ "  n")))
  ∧ Parser.expected (Parser.agtable examples.small_parser) 0
    = [Nonterminal "E"; Terminal "n"]
  ∧ Grammar.is_terminal (Nonterminal "E") = false.
Proof. by vm_compute. Qed.

(** ** The lexer *)

Lemma assure_line_within s :
  ReStream.column s ≠ ReStream.len (ReStream.current s) →
  ReStream.assure_line s = Ok s.
Proof.
  intros H. unfold ReStream.assure_line.
  by replace (_ =? _) with false by lia.
Qed.

Lemma assure_line_exhausted s :
  ReStream.assure_line s = Raise StopIteration
  ↔ ReStream.column s = ReStream.len (ReStream.current s)
    ∧ ReStream.stream s = [].
Proof.
  unfold ReStream.assure_line, ReStream.advance_line.
  destruct (_ =? _) eqn:E; [|split; [done|lia]].
  destruct (ReStream.stream s).
  - split; [|done]. intros _. split; [lia|done].
  - split; [done|]. by intros [_ ?].
Qed.

(** With characters left on the current line, the rules are tried in the
    order listed and the first that matches produces the token. *)
Lemma try_rules_first_match pre regex tt_ channel post s m :
  ReStream.column s ≠ ReStream.len (ReStream.current s) →
  Forall (λ r : Regex * symbol * Z,
            r.1.1 (ReStream.current s) (ReStream.column s) = None) pre →
  regex (ReStream.current s) (ReStream.column s) = Some m →
  Lexer.try_rules (pre ++ (regex, tt_, channel) :: post) s
  = Ok (ReStream.produce s tt_ m channel).
Proof.
  intros Hcol Hpre Hm. induction pre as [|[[r t'] c'] pre IH]; simpl.
  - unfold ReStream.match_. rewrite assure_line_within by done. simpl.
    by rewrite Hm.
  - apply Forall_cons in Hpre as [Hr Hpre].
    unfold ReStream.match_. rewrite assure_line_within by done. simpl in *.
    rewrite Hr. by apply IH.
Qed.

(** With characters left and no rule matching, the loop falls through to
    [assert False]. *)
Lemma try_rules_no_match rules s :
  ReStream.column s ≠ ReStream.len (ReStream.current s) →
  Forall (λ r : Regex * symbol * Z,
            r.1.1 (ReStream.current s) (ReStream.column s) = None) rules →
  Lexer.try_rules rules s = Raise (AssertionError "no match!").
Proof.
  intros Hcol Hall. induction rules as [|[[r t'] c'] rules IH]; [done|].
  apply Forall_cons in Hall as [Hr Hall].
  simpl. unfold ReStream.match_. rewrite assure_line_within by done.
  simpl in *. rewrite Hr. by apply IH.
Qed.

Lemma lexer_first_match self s mode pre regex tt_ channel post m :
  ReStream.column s ≠ ReStream.len (ReStream.current s) →
  Lexer.mode_rules self !! mode = Some (pre ++ (regex, tt_, channel) :: post) →
  Forall (λ r : Regex * symbol * Z,
            r.1.1 (ReStream.current s) (ReStream.column s) = None) pre →
  regex (ReStream.current s) (ReStream.column s) = Some m →
  Lexer.__call__ self s mode = Ok (ReStream.produce s tt_ m channel).
Proof.
  intros Hcol Hrules Hpre Hm. unfold Lexer.__call__.
  rewrite assure_line_within, Hrules by done.
  by apply try_rules_first_match.
Qed.

(** At the end of the last line the lexer returns the EOF token, on
    channel [ALL]. *)
Lemma lexer_eof self s mode :
  ReStream.column s = ReStream.len (ReStream.current s) →
  ReStream.stream s = [] →
  Lexer.__call__ self s mode = Ok (ReStream.produce_eof s (Lexer.eof self), s)
  ∧ Token.channel (ReStream.produce_eof s (Lexer.eof self))
    = ReStream.CHANNEL_ALL.
Proof.
  intros Hcol Hs. unfold Lexer.__call__.
  by rewrite (proj2 (assure_line_exhausted s) (conj Hcol Hs)).
Qed.

Lemma lexer_no_match self s mode rules :
  ReStream.column s ≠ ReStream.len (ReStream.current s) →
  Lexer.mode_rules self !! mode = Some rules →
  Forall (λ r : Regex * symbol * Z,
            r.1.1 (ReStream.current s) (ReStream.column s) = None) rules →
  Lexer.__call__ self s mode = Raise (AssertionError "no match!").
Proof.
  intros Hcol Hrules Hall. unfold Lexer.__call__.
  rewrite assure_line_within, Hrules by done.
  by apply try_rules_no_match.
Qed.

(** C6. On the one-line stream [x], with rules for [n] and [+] only, the
    line is not exhausted and no rule matches: the lexer stops on the
    failed [assert False, "no match!"], an [AssertionError]; the module has
    no lexer error of its own. *)
Theorem lexer_no_match_raises_assertion_error :
  Lexer.mode_rules examples.small_lexer !! 0
  = Some [(examples.lit "n", Terminal "n", 0); (examples.lit "+", Terminal "+", 0)]
  ∧ examples.lit "n" "x" 0 = None
  ∧ examples.lit "+" "x" 0 = None
  ∧ Lexer.__call__ examples.small_lexer (ReStream.__init__ ["x"]) 0
    = Raise (AssertionError "no match!").
Proof. repeat split; reflexivity. Qed.

(** After the last token of a line that is followed by an empty line, the
    [StopIteration] raised inside [stream.match] is not caught. *)
Lemma lexer_stop_iteration_escapes :
  Lexer.__call__ examples.small_lexer (ReStream.Make [""] "n" 1 1) 0
  = Raise StopIteration.
Proof. reflexivity. Qed.

(** ** Constants *)

Lemma look_up_in_lacks attr rscopes name k :
  binding.as_key name = Ok k →
  Forall (λ scope,
            ast.attrs scope !! attr = None
            ∨ ∃ d, ast.attrs scope !! attr = Some (VDict d) ∧ d !! k = None)
         rscopes →
  ∃ rscopes', binding.look_up_in attr rscopes name = Ok (VNone, rscopes').
Proof.
  intros Hkey.
  induction rscopes as [|scope rest IH]; intros Hall; [by eexists|].
  apply Forall_cons in Hall as [Hscope Hrest].
  destruct (IH Hrest) as [rest' Hrest']. simpl.
  unfold ast.get_attr_default, binding.dict_find.
  destruct Hscope as [Hnone|[d [Hd Hname]]].
  - rewrite Hnone, Hkey. simpl. rewrite lookup_empty, Hrest'. by eexists.
  - rewrite Hd, Hkey. simpl. rewrite Hname, Hrest'. by eexists.
Qed.

Lemma look_up_in_innermost attr inner scope outer name k v d :
  binding.as_key name = Ok k →
  Forall (λ scope,
            ast.attrs scope !! attr = None
            ∨ ∃ d, ast.attrs scope !! attr = Some (VDict d) ∧ d !! k = None)
         inner →
  ast.attrs scope !! attr = Some (VDict d) → d !! k = Some v →
  ∃ rscopes',
    binding.look_up_in attr (inner ++ scope :: outer) name = Ok (v, rscopes').
Proof.
  intros Hkey Hinner Hd Hname.
  induction inner as [|s inner IH]; simpl.
  - unfold ast.get_attr_default, binding.dict_find.
    rewrite Hd, Hkey. simpl. rewrite Hname. by eexists.
  - apply Forall_cons in Hinner as [Hs Hinner].
    destruct (IH Hinner) as [rest' Hrest'].
    unfold ast.get_attr_default, binding.dict_find.
    destruct Hs as [Hnone|[d' [Hd' Hname']]].
    + rewrite Hnone, Hkey. simpl. rewrite lookup_empty, Hrest'. by eexists.
    + rewrite Hd', Hkey. simpl. rewrite Hname', Hrest'. by eexists.
Qed.

(** An identifier whose name no enclosing scope binds is returned as it
    is. *)
Lemma exit_identifier_unbound self node name :
  ast.attrs node !! "name" = Some (VStr name) →
  Forall (λ scope, lacks_constant scope name) (binding.scopes self) →
  ∃ self',
    binding.ResolveConstants.exit_identifier self node = Ok (VNode node, self').
Proof.
  intros Hname Hall.
  unfold binding.ResolveConstants.exit_identifier.
  rewrite (attr_lookup _ _ _ Hname). simpl.
  unfold binding.look_up_constant, binding.look_up.
  destruct (look_up_in_lacks "known_constants" (reverse (binding.scopes self))
              (VStr name) (KStr name) eq_refl)
    as [rs Hrs].
  { by apply Forall_reverse. }
  rewrite Hrs. simpl. by eexists.
Qed.

(** An identifier whose innermost binding is a truthy value is replaced
    by that value. *)
Lemma exit_identifier_bound_truthy outer scope inner node name v :
  ast.attrs node !! "name" = Some (VStr name) →
  binds_constant scope name v →
  Forall (λ scope, lacks_constant scope name) inner →
  truthy v = true →
  ∃ self',
    binding.ResolveConstants.exit_identifier
      {| binding.scopes := outer ++ scope :: inner |} node
    = Ok (v, self').
Proof.
  intros Hname [d [Hd Hv]] Hinner Htruthy.
  unfold binding.ResolveConstants.exit_identifier.
  rewrite (attr_lookup _ _ _ Hname). simpl.
  unfold binding.look_up_constant, binding.look_up. simpl.
  rewrite reverse_app, reverse_cons, <- app_assoc. simpl.
  destruct (look_up_in_innermost "known_constants" (reverse inner) scope
              (reverse outer) (VStr name) (KStr name) v d eq_refl)
    as [rs Hrs]; [|done..|].
  { by apply Forall_reverse. }
  rewrite Hrs. simpl. rewrite Htruthy. by eexists.
Qed.

(** C3. In a unit where [EvaluateConstants] has bound [K = 0], the use of
    [K] is looked up, found to be [0], and left in place by
    [ResolveConstants.exit_identifier], because [0] is falsy. *)
Theorem resolve_constants_keeps_zero_constant :
  ∃ self self',
    binding.EvaluateConstants.exit_constant
      {| binding.scopes := [examples.unit_scope] |} examples.constant_K
    = Ok ([], self)
    ∧ Forall (λ scope, binds_constant scope "K" (VInt 0)) (binding.scopes self)
    ∧ binding.look_up_constant self (VStr "K") = Ok (VInt 0, self')
    ∧ binding.ResolveConstants.exit_identifier self examples.identifier_K
      = Ok (VNode examples.identifier_K, self').
Proof.
  eexists _, _. split; [reflexivity|]. split; [|split; reflexivity].
  apply Forall_singleton. eexists. split; [reflexivity|]. reflexivity.
Qed.

(** ** The worked tables are the generator's *)

Lemma small_parser_generated :
  BuildParser.build_parser 20 examples.small_grammar [] 0
  = Some (Ok examples.small_parser).
Proof. vm_compute. reflexivity. Qed.

Lemma accept_inputs_generated :
  (tt ⇐ TranslationTable.__init__ 20 examples.accept_grammar;
   Some (Ok (BuildParser.copy_translations (TranslationTable.items tt),
             elements <$> TranslationTable.itemsets tt)))
  = Some (Ok (examples.accept_agtable, elements <$> examples.accept_itemsets)).
Proof. vm_compute. reflexivity. Qed.

Lemma accept_parser_generated :
  (p ⇐ BuildParser.build_parser 20 examples.accept_grammar [] 0;
   Some (Ok (Dict.get (Parser.agtable p) (1%nat, examples.eof))))
  = Some (Ok (Some Accept)).
Proof. vm_compute. reflexivity. Qed.

(** ** FOLLOW sets *)

Lemma nullable_xgrammar_generated :
  (tt ⇐ TranslationTable.__init__ 20 examples.nullable_grammar;
   Some (TranslationTable.build_extended_grammar tt))
  = Some (Ok examples.nullable_xgrammar).
Proof. vm_compute. reflexivity. Qed.

(** C1. For [S -> R; R -> D B; D -> d; B -> (empty)] the suffix [B] of
    [R -> D B] derives the empty string, and [eof] follows [R]; yet the
    FOLLOW set computed for [D] is [{EMPTY}], without [eof]: only the FIRST
    set of the next symbol is added, [EMPTY] included, and FOLLOW of the
    left-hand side is passed to the last symbol alone. *)
Theorem followsets_miss_nullable_suffix :
  Rule.Make examples.xR [examples.xD; examples.xB] None false 0 None
    ∈ Grammar.rules examples.nullable_xgrammar
  ∧ (λ firstsets : gmap xsymbol (gset symbol),
       elements (firstsets !!! examples.xB))
      <$> Grammar.build_firstsets 3 examples.nullable_xgrammar
    = Some [EMPTY]
  ∧ (λ followsets : gmap xsymbol (gset symbol),
       (elements (followsets !!! examples.xR),
        elements (followsets !!! examples.xD)))
      <$> Grammar.build_followsets 3 examples.nullable_xgrammar
    = Some ([Terminal "eof"], [EMPTY]).
Proof.
  split; [|split].
  - apply list_elem_of_lookup. by exists 3%nat.
  - vm_compute. reflexivity.
  - vm_compute. reflexivity.
Qed.

(** The consequence: the parser built for that grammar reduces [D -> d]
    on the lookahead [EMPTY] only, and rejects the sentence [d]. *)
Lemma nullable_parser_rejects_sentence :
  (p ⇐ BuildParser.build_parser 20 examples.nullable_grammar [] 0;
   Some (Ok (Dict.get (Parser.agtable p) (3%nat, EMPTY),
             Dict.get (Parser.agtable p) (3%nat, examples.eof))))
  = Some (Ok (Some (Reduce (Nonterminal "D") 1), None))
  ∧ (p ⇐ BuildParser.build_parser 20 examples.nullable_grammar [] 0;
     Parser.__call__ examples.token_str 10 p (ReStream.__init__ ["d"])
       (Lexer.__call__ examples.d_lexer) examples.make_tree)
    = Some (Raise (ParseError
        ("Got eof=None but expected one of:" +:+ nl +:+ "  <object>"))).
Proof. split; vm_compute; reflexivity. Qed.

(** *** What the computed FOLLOW sets do satisfy *)

Section follow.
Local Abbreviation setmap := (gmap xsymbol (gset symbol)).
Implicit Types (fs firstsets followsets : setmap) (k d b : xsymbol).
Implicit Types (rule : Rule.t xsymbol) (rules : list (Rule.t xsymbol)).

Lemma grows_refl fs : grows fs fs.
Proof. by intros k. Qed.

Lemma grows_trans fs1 fs2 fs3 : grows fs1 fs2 → grows fs2 fs3 → grows fs1 fs3.
Proof. intros H1 H2 k. by transitivity (fs2 !!! k). Qed.

Lemma update_lookup fs k s k' :
  Grammar.update fs k s !!! k'
  = if decide (k = k') then fs !!! k ∪ s else fs !!! k'.
Proof.
  unfold Grammar.update. destruct (decide (k = k')) as [->|Hne].
  - by rewrite lookup_total_insert_eq.
  - by rewrite lookup_total_insert_ne.
Qed.

Lemma update_grows fs k s : grows fs (Grammar.update fs k s).
Proof.
  intros k'. rewrite update_lookup.
  destruct (decide (k = k')) as [->|]; [apply union_subseteq_l|done].
Qed.

Lemma follow_step_grows acc rule : grows acc.1 (Grammar.follow_step acc rule).1.
Proof.
  destruct acc as [fs u]. unfold Grammar.follow_step.
  destruct (last _) as [d|]; [|apply grows_refl].
  destruct (Grammar.is_terminal _); [apply grows_refl|apply update_grows].
Qed.

Lemma follow_fold_grows rules acc : grows acc.1 (foldl Grammar.follow_step acc rules).1.
Proof.
  revert acc. induction rules as [|rule rules IH]; intros acc; cbn [foldl].
  - apply grows_refl.
  - eapply grows_trans; [apply follow_step_grows|apply IH].
Qed.

Lemma follow_step_updated fs rule : (Grammar.follow_step (fs, true) rule).2 = true.
Proof.
  unfold Grammar.follow_step. destruct (last _); [|done].
  by destruct (Grammar.is_terminal _).
Qed.

Lemma follow_fold_updated rules fs : (foldl Grammar.follow_step (fs, true) rules).2 = true.
Proof.
  revert fs. induction rules as [|rule rules IH]; intros fs; [done|].
  cbn [foldl].
  destruct (Grammar.follow_step (fs, true) rule) as [fs' u] eqn:E.
  pose proof (follow_step_updated fs rule) as Hu. rewrite E in Hu.
  simpl in Hu. subst u. apply IH.
Qed.

(** A turn that reports no update has changed no set, and then every
    rule ending in a nonterminal passes FOLLOW of its left-hand side to
    that nonterminal. *)
Lemma follow_fold_stable rules fs fs' :
  foldl Grammar.follow_step (fs, false) rules = (fs', false) →
  (∀ k, fs' !!! k = fs !!! k)
  ∧ ∀ rule d, rule ∈ rules → last (Rule.rhs rule) = Some d →
      Grammar.is_terminal d.1.2 = false →
      fs !!! Rule.lhs rule ⊆ fs !!! d.
Proof.
  revert fs. induction rules as [|rule rules IH]; intros fs Hfold.
  { simpl in Hfold. injection Hfold as <-. split; [done|].
    by intros ?? ?%elem_of_nil. }
  cbn [foldl] in Hfold.
  destruct (Grammar.follow_step (fs, false) rule) as [fs1 u1] eqn:Hstep.
  destruct u1.
  { pose proof (follow_fold_updated rules fs1) as Hu.
    rewrite Hfold in Hu. done. }
  destruct (IH _ Hfold) as [Heq Hrest].
  assert ((∀ k, fs1 !!! k = fs !!! k)
          ∧ ∀ d, last (Rule.rhs rule) = Some d →
              Grammar.is_terminal d.1.2 = false →
              fs !!! Rule.lhs rule ⊆ fs !!! d) as [Heq1 Hrule].
  { unfold Grammar.follow_step in Hstep.
    destruct (last (Rule.rhs rule)) as [d|] eqn:Hlast;
      [|injection Hstep as <-; by split].
    destruct (Grammar.is_terminal d.1.2) eqn:Hterm;
      [injection Hstep as <-; split; [done|]; by intros ? [= <-]; congruence|].
    injection Hstep as <- Hsize. simpl in Hsize.
    apply bool_decide_eq_false in Hsize.
    rewrite update_lookup, decide_True in Hsize by done.
    assert (fs !!! d ∪ fs !!! Rule.lhs rule = fs !!! d) as Hunion.
    { symmetry. apply set_subseteq_size_eq; [apply union_subseteq_l|lia]. }
    split.
    - intros k. rewrite update_lookup.
      destruct (decide (d = k)) as [<-|]; [done|done].
    - intros d' [= <-] _. rewrite <- Hunion. apply union_subseteq_r. }
  split.
  - intros k. by rewrite Heq, Heq1.
  - intros rule' d [->|Hin]%elem_of_cons Hlast Hterm; [by apply Hrule|].
    rewrite <- !Heq1. by apply Hrest.
Qed.

Lemma follow_loop_grows fuel fs rules fs' :
  Grammar.follow_loop fuel fs rules = Some fs' → grows fs fs'.
Proof.
  revert fs. induction fuel as [|fuel IH]; intros fs; [done|]. simpl.
  unfold Grammar.follow_pass.
  pose proof (follow_fold_grows rules (fs, false)) as Hg.
  destruct (foldl Grammar.follow_step (fs, false) rules) as [fs1 u].
  destruct u.
  - intros H. eapply grows_trans; [apply Hg|by apply IH].
  - by intros [= <-].
Qed.

Lemma follow_loop_fixed fuel fs rules fs' :
  Grammar.follow_loop fuel fs rules = Some fs' →
  ∀ rule d, rule ∈ rules → last (Rule.rhs rule) = Some d →
    Grammar.is_terminal d.1.2 = false →
    fs' !!! Rule.lhs rule ⊆ fs' !!! d.
Proof.
  revert fs. induction fuel as [|fuel IH]; intros fs; [done|]. simpl.
  unfold Grammar.follow_pass.
  destruct (foldl Grammar.follow_step (fs, false) rules) as [fs1 u] eqn:Hfold.
  destruct u; [apply IH|].
  intros [= <-] rule d Hin Hlast Hterm.
  destruct (follow_fold_stable _ _ _ Hfold) as [Heq Hrules].
  rewrite !Heq. by eapply Hrules.
Qed.

(** The pass over adjacent symbols. *)
Lemma follow_adjacent_grows firstsets rhs fs :
  grows fs (Grammar.follow_adjacent firstsets fs rhs).
Proof.
  revert fs. induction rhs as [|d rhs IH]; intros fs; [apply grows_refl|].
  destruct rhs as [|b rest]; [apply grows_refl|].
  cbn [Grammar.follow_adjacent]. eapply grows_trans; [|apply IH].
  destruct (Grammar.is_terminal_x d); [apply grows_refl|apply update_grows].
Qed.

Lemma follow_adjacent_spec firstsets rhs fs i d b :
  rhs !! i = Some d → rhs !! S i = Some b →
  Grammar.is_terminal_x d = false →
  firstsets !!! b ⊆ Grammar.follow_adjacent firstsets fs rhs !!! d.
Proof.
  revert fs i. induction rhs as [|d0 rhs IH]; intros fs i Hd Hb Hterm; [done|].
  destruct rhs as [|b0 rest]; [by destruct i|].
  destruct i as [|i].
  - simpl in Hd, Hb. injection Hd as ->. injection Hb as ->.
    cbn [Grammar.follow_adjacent]. rewrite Hterm.
    transitivity (Grammar.update fs d (firstsets !!! b) !!! d).
    + rewrite update_lookup, decide_True by done. apply union_subseteq_r.
    + apply (follow_adjacent_grows firstsets (b :: rest) _ d).
  - cbn [Grammar.follow_adjacent]. by apply (IH _ i).
Qed.

Lemma adjacent_fold_grows firstsets rules fs :
  grows fs (foldl (λ fs rule,
                     Grammar.follow_adjacent firstsets fs (Rule.rhs rule))
                  fs rules).
Proof.
  revert fs. induction rules as [|rule rules IH]; intros fs; simpl.
  - apply grows_refl.
  - eapply grows_trans; [apply follow_adjacent_grows|apply IH].
Qed.

Lemma adjacent_fold_spec firstsets rules fs rule i d b :
  rule ∈ rules →
  Rule.rhs rule !! i = Some d → Rule.rhs rule !! S i = Some b →
  Grammar.is_terminal_x d = false →
  firstsets !!! b
  ⊆ foldl (λ fs rule, Grammar.follow_adjacent firstsets fs (Rule.rhs rule))
          fs rules !!! d.
Proof.
  revert fs. induction rules as [|r rules IH]; intros fs Hin Hd Hb Hterm.
  { by apply elem_of_nil in Hin. }
  simpl. apply elem_of_cons in Hin as [<-|Hin].
  - transitivity (Grammar.follow_adjacent firstsets fs (Rule.rhs rule) !!! d).
    + by eapply follow_adjacent_spec.
    + apply (adjacent_fold_grows firstsets rules _ d).
  - by apply IH.
Qed.

(** The pre-populated dict. *)
Lemma prepopulate_lookup init (g : Grammar.t xsymbol) k :
  k ∈ Grammar.symbols g → Grammar.prepopulate init g !!! k = init k.
Proof.
  unfold Grammar.prepopulate. rewrite <- elem_of_elements.
  generalize (elements (Grammar.symbols g)) as l.
  intros l. generalize (∅ : setmap) as m.
  induction l as [|x l IH] using rev_ind; intros m Hin.
  { by apply elem_of_nil in Hin. }
  rewrite foldl_app. simpl.
  destruct (decide (x = k)) as [->|Hne].
  - by rewrite lookup_total_insert_eq.
  - rewrite lookup_total_insert_ne by done. apply IH.
    apply elem_of_app in Hin as [?|Hin]; [done|].
    apply list_elem_of_singleton in Hin. congruence.
Qed.

(** What [build_followsets] guarantees when it returns: the end symbols
    follow the start symbol; the FIRST set of the next symbol follows a
    nonterminal; FOLLOW of the left-hand side follows a final
    nonterminal. *)
Lemma build_followsets_guarantees fuel (g : Grammar.t xsymbol)
    firstsets followsets :
  Grammar.build_firstsets fuel g = Some firstsets →
  Grammar.build_followsets fuel g = Some followsets →
  (Grammar.start_symbol g ∈ Grammar.symbols g →
   ∀ e, e ∈ Grammar.end_symbols g →
     e.1.2 ∈ followsets !!! Grammar.start_symbol g)
  ∧ (∀ rule i d b, rule ∈ Grammar.rules g →
       Rule.rhs rule !! i = Some d → Rule.rhs rule !! S i = Some b →
       Grammar.is_terminal_x d = false →
       firstsets !!! b ⊆ followsets !!! d)
  ∧ (∀ rule d, rule ∈ Grammar.rules g →
       last (Rule.rhs rule) = Some d →
       Grammar.is_terminal_x d = false →
       followsets !!! Rule.lhs rule ⊆ followsets !!! d).
Proof.
  intros Hfirst Hfollow. unfold Grammar.build_followsets in Hfollow.
  rewrite Hfirst in Hfollow. simpl in Hfollow.
  pose proof (follow_loop_grows _ _ _ _ Hfollow) as Hgrow.
  split; [|split].
  - intros Hstart e He. apply (Hgrow (Grammar.start_symbol g)).
    apply (adjacent_fold_grows firstsets (Grammar.rules g) _
             (Grammar.start_symbol g)).
    rewrite prepopulate_lookup by done.
    rewrite bool_decide_eq_true_2 by done.
    apply elem_of_list_to_set, list_elem_of_fmap. by exists e.
  - intros rule i d b Hin Hd Hb Hterm.
    etransitivity; [|apply (Hgrow d)]. by eapply adjacent_fold_spec.
  - intros rule d Hin Hlast Hterm.
    by eapply (follow_loop_fixed _ _ _ _ Hfollow).
Qed.
End follow.

(** * Further properties *)

(** ** [TextSpan.cover] *)

Lemma pos_le_refl p : TextSpan.pos_le p p = true.
Proof. unfold TextSpan.pos_le. destruct p; simpl. lia. Qed.

Lemma pos_le_trans p q r :
  TextSpan.pos_le p q = true → TextSpan.pos_le q r = true →
  TextSpan.pos_le p r = true.
Proof.
  unfold TextSpan.pos_le. destruct p, q, r; simpl.
  rewrite !orb_true_iff, !andb_true_iff, !Z.ltb_lt, !Z.eqb_eq, !Z.leb_le. lia.
Qed.

Lemma pos_min_le_l p q : TextSpan.pos_le (TextSpan.pos_min p q) p = true.
Proof.
  unfold TextSpan.pos_min, TextSpan.pos_le, TextSpan.pos_lt.
  destruct p, q; simpl. case_match; simpl; lia.
Qed.

Lemma pos_min_le_r p q : TextSpan.pos_le (TextSpan.pos_min p q) q = true.
Proof.
  unfold TextSpan.pos_min, TextSpan.pos_le, TextSpan.pos_lt.
  destruct p, q; simpl. case_match; simpl; lia.
Qed.

Lemma pos_max_ge_l p q : TextSpan.pos_le p (TextSpan.pos_max p q) = true.
Proof.
  unfold TextSpan.pos_max, TextSpan.pos_le, TextSpan.pos_lt.
  destruct p, q; simpl. case_match; simpl; lia.
Qed.

Lemma pos_max_ge_r p q : TextSpan.pos_le q (TextSpan.pos_max p q) = true.
Proof.
  unfold TextSpan.pos_max, TextSpan.pos_le, TextSpan.pos_lt.
  destruct p, q; simpl. case_match; simpl; lia.
Qed.

(** The running minimum is below the seed and every element, and is one
    of them. *)
Lemma fold_min_spec {A} (f : A → Z * Z) (l : list A) (init : Z * Z) :
  let lo := foldl (λ acc x, TextSpan.pos_min acc (f x)) init l in
  TextSpan.pos_le lo init = true
  ∧ (∀ x, x ∈ l → TextSpan.pos_le lo (f x) = true)
  ∧ (lo = init ∨ ∃ x, x ∈ l ∧ lo = f x).
Proof.
  revert init. induction l as [|a l IH]; intros init; simpl.
  - split; [apply pos_le_refl|]. split; [by intros ? ?%elem_of_nil|by left].
  - destruct (IH (TextSpan.pos_min init (f a))) as (Hinit & Hall & Hatt).
    split; [|split].
    + eapply pos_le_trans; [exact Hinit|apply pos_min_le_l].
    + intros x [->|Hx]%elem_of_cons; [|by apply Hall].
      eapply pos_le_trans; [exact Hinit|apply pos_min_le_r].
    + destruct Hatt as [Heq|(x & Hx & Heq)].
      * rewrite Heq. unfold TextSpan.pos_min.
        destruct (TextSpan.pos_lt _ _); [right; exists a|by left].
        split; [by left|done].
      * right. exists x. split; [by right|done].
Qed.

Lemma fold_max_spec {A} (f : A → Z * Z) (l : list A) (init : Z * Z) :
  let hi := foldl (λ acc x, TextSpan.pos_max acc (f x)) init l in
  TextSpan.pos_le init hi = true
  ∧ (∀ x, x ∈ l → TextSpan.pos_le (f x) hi = true)
  ∧ (hi = init ∨ ∃ x, x ∈ l ∧ hi = f x).
Proof.
  revert init. induction l as [|a l IH]; intros init; simpl.
  - split; [apply pos_le_refl|]. split; [by intros ? ?%elem_of_nil|by left].
  - destruct (IH (TextSpan.pos_max init (f a))) as (Hinit & Hall & Hatt).
    split; [|split].
    + eapply pos_le_trans; [apply pos_max_ge_l|exact Hinit].
    + intros x [->|Hx]%elem_of_cons; [|by apply Hall].
      eapply pos_le_trans; [apply pos_max_ge_r|exact Hinit].
    + destruct Hatt as [Heq|(x & Hx & Heq)].
      * rewrite Heq. unfold TextSpan.pos_max.
        destruct (TextSpan.pos_lt _ _); [right; exists a|by left].
        split; [by left|done].
      * right. exists x. split; [by right|done].
Qed.

Lemma make_ordered_raw lo hi :
  TextSpan.pos_le lo hi = true →
  TextSpan.make lo.1 lo.2 hi.1 hi.2 = TextSpan.Raw lo.1 lo.2 hi.1 hi.2.
Proof.
  intros H. unfold TextSpan.make, TextSpan.__attrs_post_init__,
    TextSpan.pos_gt, TextSpan.start, TextSpan.end_. simpl.
  replace (TextSpan.pos_lt _ _) with false; [done|].
  unfold TextSpan.pos_le, TextSpan.pos_lt in *. destruct lo, hi; simpl in *. lia.
Qed.

(** For spans whose start is not after their end -- every span the
    constructor builds -- the cover of a non-empty sequence exists,
    starts at the least start, ends at the greatest end, and contains
    every span of the sequence. *)
Lemma cover_bounds (spans : list TextSpan.t) :
  spans ≠ [] →
  Forall (λ s, TextSpan.pos_le (TextSpan.start s) (TextSpan.end_ s) = true) spans →
  ∃ t, TextSpan.cover spans = Ok t
       ∧ (∀ s, s ∈ spans → TextSpan.pos_le (TextSpan.start t) (TextSpan.start s) = true
                           ∧ TextSpan.pos_le (TextSpan.end_ s) (TextSpan.end_ t) = true)
       ∧ (∃ s, s ∈ spans ∧ TextSpan.start t = TextSpan.start s)
       ∧ (∃ s, s ∈ spans ∧ TextSpan.end_ t = TextSpan.end_ s).
Proof.
  intros Hne Hall. destruct spans as [|s rest]; [done|]. clear Hne.
  apply Forall_cons in Hall as [Hs Hrest]. unfold TextSpan.cover.
  destruct (fold_min_spec TextSpan.start rest (TextSpan.start s))
    as (Hlo1 & Hlo2 & Hlo3).
  destruct (fold_max_spec TextSpan.end_ rest (TextSpan.end_ s))
    as (Hhi1 & Hhi2 & Hhi3).
  set (lo := foldl (λ acc x, TextSpan.pos_min acc (TextSpan.start x))
                   (TextSpan.start s) rest) in *.
  set (hi := foldl (λ acc x, TextSpan.pos_max acc (TextSpan.end_ x))
                   (TextSpan.end_ s) rest) in *.
  assert (TextSpan.pos_le lo hi = true) as Hlohi.
  { eapply pos_le_trans; [exact Hlo1|].
    eapply pos_le_trans; [exact Hs|exact Hhi1]. }
  rewrite (make_ordered_raw _ _ Hlohi). eexists. split; [done|].
  replace (TextSpan.start (TextSpan.Raw lo.1 lo.2 hi.1 hi.2)) with lo
    by by destruct lo.
  replace (TextSpan.end_ (TextSpan.Raw lo.1 lo.2 hi.1 hi.2)) with hi
    by by destruct hi.
  split; [|split].
  - intros x [->|Hx]%elem_of_cons; [done|]. split; [by apply Hlo2|by apply Hhi2].
  - destruct Hlo3 as [->|(x & Hx & ->)]; [exists s|exists x];
      (split; [|done]); [by left|by right].
  - destruct Hhi3 as [->|(x & Hx & ->)]; [exists s|exists x];
      (split; [|done]); [by left|by right].
Qed.

(** X1. The cover of a non-empty sequence of spans contains each of
    them. *)
Theorem cover_contains_all (spans : list TextSpan.t)
    (Hne : spans ≠ [])
    (Hord : Forall (λ s, TextSpan.pos_le (TextSpan.start s) (TextSpan.end_ s) = true)
                   spans) :
  ∃ t, TextSpan.cover spans = Ok t
       ∧ ∀ s, s ∈ spans → TextSpan.__contains__ t s = true.
Proof.
  destruct (cover_bounds spans Hne Hord) as (t & Ht & Hall & _).
  exists t. split; [done|]. intros s Hs. unfold TextSpan.__contains__.
  destruct (Hall s Hs) as [-> ->]. done.
Qed.

Lemma cover_contains_all_witness :
  ∃ t, TextSpan.cover [TextSpan.make 2 5 2 9; TextSpan.make 1 3 2 1] = Ok t
       ∧ ∀ s, s ∈ [TextSpan.make 2 5 2 9; TextSpan.make 1 3 2 1] →
              TextSpan.__contains__ t s = true.
Proof.
  apply (cover_contains_all [TextSpan.make 2 5 2 9; TextSpan.make 1 3 2 1]).
  - discriminate.
  - repeat constructor.
Defined.

(** X2. The cover is the least such span: a span that contains every
    span of the sequence contains their cover. *)
Theorem cover_is_least (spans : list TextSpan.t) (t' : TextSpan.t)
    (Hne : spans ≠ [])
    (Hord : Forall (λ s, TextSpan.pos_le (TextSpan.start s) (TextSpan.end_ s) = true)
                   spans)
    (Hall : ∀ s, s ∈ spans → TextSpan.__contains__ t' s = true) :
  ∃ t, TextSpan.cover spans = Ok t ∧ TextSpan.__contains__ t' t = true.
Proof.
  destruct (cover_bounds spans Hne Hord)
    as (t & Ht & _ & (s1 & Hs1 & Hlo) & (s2 & Hs2 & Hhi)).
  exists t. split; [done|]. unfold TextSpan.__contains__. rewrite Hlo, Hhi.
  pose proof (Hall s1 Hs1) as H1. pose proof (Hall s2 Hs2) as H2.
  unfold TextSpan.__contains__ in H1, H2.
  apply andb_true_iff in H1 as [H1 _]. apply andb_true_iff in H2 as [_ H2].
  by rewrite H1, H2.
Qed.

Lemma cover_is_least_witness :
  ∃ t, TextSpan.cover [TextSpan.make 2 5 2 9; TextSpan.make 1 3 2 1] = Ok t
       ∧ TextSpan.__contains__ (TextSpan.make 1 0 3 0) t = true.
Proof.
  apply (cover_is_least [TextSpan.make 2 5 2 9; TextSpan.make 1 3 2 1]
           (TextSpan.make 1 0 3 0)).
  - discriminate.
  - repeat constructor.
  - intros s Hs. apply elem_of_cons in Hs as [->|Hs]; [reflexivity|].
    apply elem_of_cons in Hs as [->|Hs]; [reflexivity|].
    by apply elem_of_nil in Hs.
Defined.

(** ** The lexer: rule table and end of input *)

Lemma add_rule_lookup mr mptc mode :
  Lexer.add_rule mr mptc !! mode
  = if bool_decide ((rule_tuple mptc).1 = mode)
    then Some (default [] (mr !! mode) ++ [(rule_tuple mptc).2])
    else mr !! mode.
Proof.
  unfold Lexer.add_rule.
  destruct mptc as [p t|m p t|m p t c]; simpl; case_bool_decide as Hm;
    subst; by rewrite ?lookup_insert_eq, ?lookup_insert_ne.
Qed.

Lemma mode_rules_init eof rules mode :
  Lexer.mode_rules (Lexer.__init__ eof rules) !! mode
  = match rules_of_mode mode rules with
    | [] => None
    | rs => Some rs
    end.
Proof.
  unfold Lexer.__init__. simpl.
  induction rules as [|mptc rules IH] using rev_ind; [done|].
  rewrite foldl_app. simpl. rewrite add_rule_lookup, IH.
  unfold rules_of_mode. rewrite omap_app. simpl.
  case_bool_decide; simpl.
  - by destruct (omap _ rules).
  - by rewrite app_nil_r.
Qed.

Lemma rules_of_mode_none mode rules :
  Forall (λ mptc, (rule_tuple mptc).1 ≠ mode) rules →
  rules_of_mode mode rules = [].
Proof.
  unfold rules_of_mode. induction 1 as [|mptc rules Hne _ IH]; [done|].
  simpl. by rewrite bool_decide_eq_false_2.
Qed.

(** X3. [Lexer.__init__] files every rule under its mode -- mode 0 when
    the tuple names none -- and keeps the order in which the rules were
    listed; a mode without rules has no entry. *)
Theorem lexer_init_groups_by_mode (eof : symbol)
    (rules : list Lexer.rule_spec) (mode : Z) :
  Lexer.mode_rules (Lexer.__init__ eof rules) !! mode
  = match rules_of_mode mode rules with
    | [] => None
    | rs => Some rs
    end.
Proof. apply mode_rules_init. Qed.

(** X4. A lexer asked for a mode it has no rule for raises [KeyError]
    as soon as there is input left on the line. *)
Theorem lexer_unknown_mode (eof : symbol) (rules : list Lexer.rule_spec)
    (s : ReStream.t) (mode : Z)
    (Hmode : Forall (λ mptc, (rule_tuple mptc).1 ≠ mode) rules)
    (Hcol : ReStream.column s ≠ ReStream.len (ReStream.current s)) :
  Lexer.__call__ (Lexer.__init__ eof rules) s mode = Raise KeyError.
Proof.
  unfold Lexer.__call__. rewrite assure_line_within by done.
  by rewrite mode_rules_init, rules_of_mode_none.
Qed.

Lemma lexer_unknown_mode_witness :
  Lexer.__call__
    (Lexer.__init__ examples.eof [Lexer.PT (examples.lit "n") (Terminal "n")])
    (ReStream.__init__ ["n"]) 1
  = Raise KeyError.
Proof.
  apply (lexer_unknown_mode examples.eof
           [Lexer.PT (examples.lit "n") (Terminal "n")]
           (ReStream.__init__ ["n"]) 1).
  - repeat constructor. simpl. discriminate.
  - simpl. discriminate.
Defined.

(** X5. At the end of the last line the lexer returns the EOF token --
    the lexer's [eof] type, no text, channel [ALL], an empty span at the
    stream's position -- in every mode, also one without rules, and
    leaves the stream as it is, so that every later call returns the
    same token. *)
Theorem lexer_end_of_input (self : Lexer.t) (s : ReStream.t) (mode : Z)
    (Hcol : ReStream.column s = ReStream.len (ReStream.current s))
    (Hlast : ReStream.stream s = []) :
  Lexer.__call__ self s mode
  = Ok (Token.Make (Lexer.eof self) None ReStream.CHANNEL_ALL
          (Some (TextSpan.Raw (ReStream.line s) (ReStream.column s)
                              (ReStream.line s) (ReStream.column s))),
        s).
Proof.
  destruct (lexer_eof self s mode Hcol Hlast) as [-> _].
  unfold ReStream.produce_eof. by rewrite make_same_line.
Qed.

Lemma lexer_end_of_input_witness :
  Lexer.__call__ examples.small_lexer (ReStream.__init__ []) 7
  = Ok (Token.Make examples.eof None ReStream.CHANNEL_ALL
          (Some (TextSpan.Raw 1 0 1 0)),
        ReStream.__init__ []).
Proof.
  apply (lexer_end_of_input examples.small_lexer (ReStream.__init__ []) 7);
    reflexivity.
Defined.

(** X6. With input left on the line, the rules of the mode are tried in
    the order listed, at the current column; the first whose pattern
    matches decides the token, and the stream moves to the end of the
    match. *)
Theorem lexer_first_match_wins (self : Lexer.t) (s : ReStream.t) (mode : Z)
    (pre post : list (Regex * symbol * Z))
    (regex : Regex) (tt_ : symbol) (channel : Z) (m : Match)
    (Hcol : ReStream.column s ≠ ReStream.len (ReStream.current s))
    (Hrules : Lexer.mode_rules self !! mode
              = Some (pre ++ (regex, tt_, channel) :: post))
    (Hpre : Forall (λ r : Regex * symbol * Z,
                      r.1.1 (ReStream.current s) (ReStream.column s) = None) pre)
    (Hm : regex (ReStream.current s) (ReStream.column s) = Some m) :
  ∃ tok s',
    Lexer.__call__ self s mode = Ok (tok, s')
    ∧ Token.t_ tok = tt_ ∧ Token.text tok = Some (m_group m)
    ∧ Token.channel tok = channel
    ∧ ReStream.line s' = ReStream.line s ∧ ReStream.column s' = m_end m.
Proof.
  eexists _, _. split.
  - unfold Lexer.__call__. rewrite assure_line_within, Hrules by done.
    by apply try_rules_first_match.
  - done.
Qed.

Lemma lexer_first_match_wins_witness :
  ∃ tok s',
    Lexer.__call__ examples.small_lexer (ReStream.__init__ ["+n"]) 0
    = Ok (tok, s')
    ∧ Token.t_ tok = Terminal "+" ∧ Token.text tok = Some "+"
    ∧ Token.channel tok = 0
    ∧ ReStream.line s' = 1 ∧ ReStream.column s' = 1.
Proof.
  apply (lexer_first_match_wins examples.small_lexer (ReStream.__init__ ["+n"]) 0
           [(examples.lit "n", Terminal "n", 0)] []
           (examples.lit "+") (Terminal "+") 0
           {| m_group := "+"; m_end := 1 |}).
  - simpl. discriminate.
  - reflexivity.
  - repeat constructor.
  - reflexivity.
Defined.

(** ** Assembly: sizes, ranges, byte order *)

Lemma pack_B_inv v d : asm.pack_B v = Ok d → d = [v] ∧ 0 ≤ v ≤ 255.
Proof.
  unfold asm.pack_B. destruct (0 <=? v) eqn:E1, (v <=? 255) eqn:E2;
    simpl; intros [= <-]. split; [done|lia].
Qed.

Lemma pack_H_inv v d :
  asm.pack_H v = Ok d → d = [v mod 256; v / 256] ∧ 0 ≤ v ≤ 65535.
Proof.
  intros H. assert (0 ≤ v ≤ 65535) as Hv.
  { apply pack_H_is_ok. by rewrite H. }
  rewrite pack_H_ok in H by done. by injection H as <-.
Qed.

Lemma pack_BB_inv a b d :
  asm.pack_BB a b = Ok d → d = [a; b] ∧ 0 ≤ a ≤ 255 ∧ 0 ≤ b ≤ 255.
Proof.
  unfold asm.pack_BB. destruct (asm.pack_B a) as [x|] eqn:Ha; [|done]. simpl.
  destruct (asm.pack_B b) as [y|] eqn:Hb; [|done]. simpl. intros [= <-].
  apply pack_B_inv in Ha as [-> ?]. apply pack_B_inv in Hb as [-> ?]. done.
Qed.

Lemma pack_BH_inv a b d :
  asm.pack_BH a b = Ok d →
  d = [a; b mod 256; b / 256] ∧ 0 ≤ a ≤ 255 ∧ 0 ≤ b ≤ 65535.
Proof.
  unfold asm.pack_BH. destruct (asm.pack_B a) as [x|] eqn:Ha; [|done]. simpl.
  destruct (asm.pack_H b) as [y|] eqn:Hb; [|done]. simpl. intros [= <-].
  apply pack_B_inv in Ha as [-> ?]. apply pack_H_inv in Hb as [-> ?]. done.
Qed.

(** [struct.pack] raises nothing but [struct.error]. *)
Lemma pack_B_raise v e : asm.pack_B v = Raise e → e = StructError.
Proof. unfold asm.pack_B. case_match; [done|]. by intros [= <-]. Qed.

Lemma pack_H_raise v e : asm.pack_H v = Raise e → e = StructError.
Proof. unfold asm.pack_H. case_match; [done|]. by intros [= <-]. Qed.

Lemma pack_BB_raise a b e : asm.pack_BB a b = Raise e → e = StructError.
Proof.
  unfold asm.pack_BB. destruct (asm.pack_B a) eqn:Ha; simpl.
  - destruct (asm.pack_B b) eqn:Hb; simpl; [done|].
    intros [= <-]. by eapply pack_B_raise.
  - intros [= <-]. by eapply pack_B_raise.
Qed.

Lemma pack_BH_raise a b e : asm.pack_BH a b = Raise e → e = StructError.
Proof.
  unfold asm.pack_BH. destruct (asm.pack_B a) eqn:Ha; simpl.
  - destruct (asm.pack_H b) eqn:Hb; simpl; [done|].
    intros [= <-]. by eapply pack_H_raise.
  - intros [= <-]. by eapply pack_B_raise.
Qed.

(** What a successful emission tells: the operand and the bytes. *)
Lemma enter_lda_inv node run :
  asm.enter_lda node = Ok run →
  ∃ v, ast.attrs node !! "storage" = Some (VStorage (storage.ImmediateStorage v 1))
       ∧ asm.data run = [0xa9; v] ∧ 0 ≤ v ≤ 255.
Proof.
  unfold asm.enter_lda, ast.attr.
  destruct (ast.attrs node !! "storage") as [[| | | |[a w|v w]| |]|]; try done.
  simpl. case_bool_decide as Hw; [done|].
  destruct (asm.pack_BB 169 v) as [d|] eqn:Hd; [|done]. simpl. intros [= <-].
  apply pack_BB_inv in Hd as (-> & _ & Hv). exists v.
  assert (w = 1) as -> by (destruct (decide (w = 1)); [done|by destruct Hw]).
  done.
Qed.

Lemma enter_sta_inv node run :
  asm.enter_sta node = Ok run →
  ∃ a, ast.attrs node !! "storage" = Some (VStorage (storage.AbsoluteStorage a 1))
       ∧ asm.data run = [0x8d; a mod 256; a / 256] ∧ 0 ≤ a ≤ 65535.
Proof.
  unfold asm.enter_sta, ast.attr.
  destruct (ast.attrs node !! "storage") as [[| | | |[a w|v w]| |]|]; try done.
  simpl. case_bool_decide as Hw; [done|].
  destruct (asm.pack_BH 141 a) as [d|] eqn:Hd; [|done]. simpl. intros [= <-].
  apply pack_BH_inv in Hd as (-> & _ & Hv). exists a.
  assert (w = 1) as -> by (destruct (decide (w = 1)); [done|by destruct Hw]).
  done.
Qed.

Lemma enter_jmp_inv node run :
  asm.enter_jmp node = Ok run →
  ∃ a w, ast.attrs node !! "storage" = Some (VStorage (storage.AbsoluteStorage a w))
         ∧ asm.data run = [0x4c; a mod 256; a / 256] ∧ 0 ≤ a ≤ 65535.
Proof.
  unfold asm.enter_jmp, ast.attr.
  destruct (ast.attrs node !! "storage") as [[| | | |[a w|v w]| |]|]; try done.
  simpl.
  destruct (asm.pack_BH 76 a) as [d|] eqn:Hd; [|done]. simpl. intros [= <-].
  apply pack_BH_inv in Hd as (-> & _ & Hv). by exists a, w.
Qed.

(** X7. Every byte an instruction emits is in the range 0..255, and the
    first is the instruction's opcode. *)
Theorem emitted_bytes_are_bytes (op : asm.opcode) (node : AstNode)
    (run : asm.AsmRun) (Hrun : asm.transform_enter op node = Ok run) :
  Forall (λ b, 0 ≤ b ≤ 255) (asm.data run)
  ∧ head (asm.data run)
    = Some (match op with
            | asm.LDA => 0xA9 | asm.STA => 0x8D
            | asm.JMP => 0x4C | asm.RTS => 0x60
            end).
Proof.
  assert (∀ a, 0 ≤ a ≤ 65535 → 0 ≤ a mod 256 ≤ 255 ∧ 0 ≤ a / 256 ≤ 255) as Hb.
  { intros a Ha. Z.div_mod_to_equations. lia. }
  destruct op; simpl in Hrun.
  - apply enter_lda_inv in Hrun as (v & _ & -> & Hv).
    split; [|done]. repeat (apply Forall_cons; split); [lia|lia|done].
  - apply enter_sta_inv in Hrun as (a & _ & -> & Ha).
    destruct (Hb a Ha). split; [|done].
    repeat (apply Forall_cons; split); [lia|lia|lia|done].
  - apply enter_jmp_inv in Hrun as (a & w & _ & -> & Ha).
    destruct (Hb a Ha). split; [|done].
    repeat (apply Forall_cons; split); [lia|lia|lia|done].
  - injection Hrun as <-. split; [|done].
    repeat (apply Forall_cons; split); [lia|done].
Qed.

Lemma emitted_bytes_are_bytes_witness :
  Forall (λ b, 0 ≤ b ≤ 255) [0x8D; 0x20; 0xD0]
  ∧ head [0x8D; 0x20; 0xD0] = Some 0x8D.
Proof.
  apply (emitted_bytes_are_bytes asm.STA
           (Node "sta" None
              {["storage" := VStorage (storage.AbsoluteStorage 0xD020 1)]} [])
           {| asm.data := [0x8D; 0x20; 0xD0] |}).
  reflexivity.
Defined.

(** X8. [sta] and [jmp] emit three bytes: the opcode, then the two
    address bytes in little-endian order, low byte first; each is a
    byte, and [lo + 256 * hi] is the address in the node's storage. *)
Theorem absolute_operand_round_trip (op : asm.opcode) (node : AstNode)
    (run : asm.AsmRun) (Hop : op = asm.STA ∨ op = asm.JMP)
    (Hrun : asm.transform_enter op node = Ok run) :
  ∃ lo hi address width,
    asm.data run = [match op with asm.STA => 0x8D | _ => 0x4C end; lo; hi]
    ∧ 0 ≤ lo ≤ 255 ∧ 0 ≤ hi ≤ 255
    ∧ ast.attrs node !! "storage"
      = Some (VStorage (storage.AbsoluteStorage address width))
    ∧ lo + 256 * hi = address.
Proof.
  destruct Hop as [-> | ->]; simpl in Hrun.
  - apply enter_sta_inv in Hrun as (a & Hs & -> & Ha).
    exists (a mod 256), (a / 256), a, 1. split; [done|].
    repeat split; try done; Z.div_mod_to_equations; lia.
  - apply enter_jmp_inv in Hrun as (a & w & Hs & -> & Ha).
    exists (a mod 256), (a / 256), a, w. split; [done|].
    repeat split; try done; Z.div_mod_to_equations; lia.
Qed.

Lemma absolute_operand_round_trip_witness :
  ∃ lo hi address width,
    asm.data {| asm.data := [0x4C; 0x00; 0x10] |}
    = [match asm.JMP with asm.STA => 0x8D | _ => 0x4C end; lo; hi]
    ∧ 0 ≤ lo ≤ 255 ∧ 0 ≤ hi ≤ 255
    ∧ ast.attrs
        (Node "jmp" None
           {["storage" := VStorage (storage.AbsoluteStorage 0x1000 2)]} [])
        !! "storage"
      = Some (VStorage (storage.AbsoluteStorage address width))
    ∧ lo + 256 * hi = address.
Proof.
  apply (absolute_operand_round_trip asm.JMP
           (Node "jmp" None
              {["storage" := VStorage (storage.AbsoluteStorage 0x1000 2)]} [])
           {| asm.data := [0x4C; 0x00; 0x10] |}).
  - by right.
  - reflexivity.
Defined.

(** X9. A node built by [lda], [sta] or [jmp] holds a storage of the
    kind its instruction handles -- the constructor's [assert] refuses
    the other kind -- so emission from it raises neither
    [NotImplementedError] nor [KeyError]. *)
Theorem constructed_nodes_are_implemented (position : option (Z * Z))
    (arg : storage.t) (op : asm.opcode) (node : AstNode)
    (Hnode : match op with
             | asm.LDA => asm.lda position arg
             | asm.STA => asm.sta position arg
             | asm.JMP => asm.jmp position arg
             | asm.RTS => Ok (asm.rts position)
             end = Ok node) :
  asm.transform_enter op node ≠ Raise NotImplementedError
  ∧ asm.transform_enter op node ≠ Raise KeyError
  ∧ ast.t_ node = asm.kind op.
Proof.
  assert (∀ k m, ast.attr (Node k position (<["storage" := VStorage arg]> m) [])
                          "storage" = Ok (VStorage arg)) as Hattr.
  { intros k m. unfold ast.attr. simpl. by rewrite lookup_insert_eq. }
  destruct op, arg as [a w|v w]; simpl in Hnode; try done;
    injection Hnode as <-; (split; [|split; [|done]]);
    unfold asm.transform_enter, asm.enter_lda, asm.enter_sta, asm.enter_jmp,
      asm.enter_rts; rewrite ?Hattr; simpl; try done;
    try (case_bool_decide; [done|]).
  - destruct (asm.pack_BB 169 v) eqn:E; [done|]. by rewrite (pack_BB_raise _ _ _ E).
  - destruct (asm.pack_BB 169 v) eqn:E; [done|]. by rewrite (pack_BB_raise _ _ _ E).
  - destruct (asm.pack_BH 141 a) eqn:E; [done|]. by rewrite (pack_BH_raise _ _ _ E).
  - destruct (asm.pack_BH 141 a) eqn:E; [done|]. by rewrite (pack_BH_raise _ _ _ E).
  - destruct (asm.pack_BH 76 a) eqn:E; [done|]. by rewrite (pack_BH_raise _ _ _ E).
  - destruct (asm.pack_BH 76 a) eqn:E; [done|]. by rewrite (pack_BH_raise _ _ _ E).
Qed.

Lemma constructed_nodes_are_implemented_witness :
  ∃ node, asm.sta None (storage.AbsoluteStorage 0xD020 1) = Ok node
          ∧ asm.transform_enter asm.STA node ≠ Raise NotImplementedError
          ∧ asm.transform_enter asm.STA node ≠ Raise KeyError
          ∧ ast.t_ node = "sta".
Proof.
  eexists. split; [reflexivity|].
  apply (constructed_nodes_are_implemented None
           (storage.AbsoluteStorage 0xD020 1) asm.STA).
  reflexivity.
Defined.

(** X10. The [size] a constructor declares on its node is the number of
    bytes the assembler emits for that node. *)
Theorem declared_size_is_emitted_length (position : option (Z * Z))
    (arg : storage.t) (op : asm.opcode) (node : AstNode) (run : asm.AsmRun)
    (Hnode : match op with
             | asm.LDA => asm.lda position arg
             | asm.STA => asm.sta position arg
             | asm.JMP => asm.jmp position arg
             | asm.RTS => Ok (asm.rts position)
             end = Ok node)
    (Hrun : asm.transform_enter op node = Ok run) :
  ast.attrs node !! "size" = Some (VInt (Z.of_nat (length (asm.data run)))).
Proof.
  destruct op; simpl in Hrun.
  - apply enter_lda_inv in Hrun as (v & _ & -> & _).
    destruct arg; simpl in Hnode; [done|]. by injection Hnode as <-.
  - apply enter_sta_inv in Hrun as (a & _ & -> & _).
    destruct arg; simpl in Hnode; [|done]. by injection Hnode as <-.
  - apply enter_jmp_inv in Hrun as (a & w & _ & -> & _).
    destruct arg; simpl in Hnode; [|done]. by injection Hnode as <-.
  - injection Hrun as <-. by injection Hnode as <-.
Qed.

Lemma declared_size_is_emitted_length_witness :
  ∃ node, asm.lda None (storage.ImmediateStorage 42 1) = Ok node
          ∧ ast.attrs node !! "size" = Some (VInt (Z.of_nat (length [0xA9; 42]))).
Proof.
  eexists. split; [reflexivity|].
  apply (declared_size_is_emitted_length None (storage.ImmediateStorage 42 1)
           asm.LDA _ {| asm.data := [0xA9; 42] |}); reflexivity.
Defined.

(** ** Scopes: binding and lookup *)

Lemma get_attr_default_present n attr default v :
  ast.attrs n !! attr = Some v → ast.get_attr_default n attr default = (v, n).
Proof. unfold ast.get_attr_default. by intros ->. Qed.

Lemma removelast_snoc {A} (l : list A) x : removelast (l ++ [x]) = l.
Proof. rewrite removelast_app by done. simpl. apply app_nil_r. Qed.

Lemma last_removelast {A} (l : list A) x :
  last l = Some x → l = removelast l ++ [x].
Proof.
  induction l as [|a l IH] using rev_ind; [done|].
  rewrite last_snoc. intros [= ->]. by rewrite removelast_snoc.
Qed.

(** What a successful binding does to the stack. *)
Lemma bind_in_inv attr self name v self' :
  binding.bind_in attr self name v = Ok self' →
  ∃ outer scope d k,
    binding.scopes self = outer ++ [scope]
    ∧ (ast.attrs scope !! attr = Some (VDict d)
       ∨ (ast.attrs scope !! attr = None ∧ d = ∅))
    ∧ binding.as_key name = Ok k
    ∧ binding.scopes self'
      = outer ++ [Node (ast.t_ scope) (ast.position scope)
                    (<[attr := VDict (<[k := v]> d)]> (ast.attrs scope))
                    (ast.children scope)].
Proof.
  unfold binding.bind_in.
  destruct (last (binding.scopes self)) as [scope|] eqn:Hlast; [|done].
  apply last_removelast in Hlast.
  unfold ast.get_attr_default.
  destruct (ast.attrs scope !! attr) as [known|] eqn:Hattr.
  - destruct known as [| | | | |d|]; try done.
    destruct (binding.as_key name) as [k|] eqn:Hkey; [|done].
    intros [= <-]. simpl.
    exists (removelast (binding.scopes self)), scope, d, k.
    split; [done|]. split; [by left|]. done.
  - destruct (binding.as_key name) as [k|] eqn:Hkey; [|done].
    intros [= <-]. simpl.
    exists (removelast (binding.scopes self)), scope, ∅, k.
    split; [done|]. split; [by right|]. split; [done|].
    unfold ast.with_attrs. simpl. by rewrite insert_insert_eq.
Qed.

Lemma look_up_after_bind attr self self' name v :
  binding.bind_in attr self name v = Ok self' →
  binding.look_up attr self' name = Ok (v, self').
Proof.
  intros Hbind.
  apply bind_in_inv in Hbind as (outer & scope & d & k & _ & _ & Hkey & Hs').
  unfold binding.look_up. rewrite Hs', reverse_app. simpl.
  rewrite (get_attr_default_present _ _ _ (VDict (<[k := v]> d)))
    by (simpl; apply lookup_insert_eq).
  unfold binding.dict_find. rewrite Hkey. simpl.
  rewrite lookup_insert_eq. simpl.
  destruct self' as [ss]. simpl in *. subst ss.
  by rewrite reverse_cons, reverse_involutive.
Qed.

(** X11. What [bind_name] / [bind_constant] stores, [look_up_name] /
    [look_up_constant] returns: after a successful binding of [name] to
    [v], the lookup of [name] yields [v] and leaves the scopes as they
    are. The name is any value a dict takes as a key. *)
Theorem bind_then_look_up (attr : string) (self self' : binding.ScopedPass)
    (name : value) (v : value)
    (Hbind : binding.bind_in attr self name v = Ok self') :
  binding.look_up attr self' name = Ok (v, self').
Proof. by apply (look_up_after_bind attr self). Qed.

Lemma bind_then_look_up_witness :
  ∃ self',
    binding.bind_constant {| binding.scopes := [examples.unit_scope] |}
      (VStr "K") (VInt 42)
    = Ok self'
    ∧ binding.look_up_constant self' (VStr "K") = Ok (VInt 42, self').
Proof.
  eexists. split; [reflexivity|].
  apply (bind_then_look_up "known_constants"
           {| binding.scopes := [examples.unit_scope] |}).
  reflexivity.
Defined.

(** X12. A binding touches nothing but the dict of the innermost scope:
    the enclosing scopes are the same nodes, and the innermost scope
    keeps its kind, position, children and every other attribute. *)
Theorem bind_changes_innermost_dict_only (attr : string)
    (self self' : binding.ScopedPass) (name : value) (v : value)
    (Hbind : binding.bind_in attr self name v = Ok self') :
  ∃ outer scope scope',
    binding.scopes self = outer ++ [scope]
    ∧ binding.scopes self' = outer ++ [scope']
    ∧ ast.t_ scope' = ast.t_ scope
    ∧ ast.position scope' = ast.position scope
    ∧ ast.children scope' = ast.children scope
    ∧ ∀ a, a ≠ attr → ast.attrs scope' !! a = ast.attrs scope !! a.
Proof.
  apply bind_in_inv in Hbind as (outer & scope & d & k & Hs & _ & _ & Hs').
  eexists outer, scope, _. split; [done|]. split; [done|].
  repeat split. intros a Ha. simpl. by rewrite lookup_insert_ne.
Qed.

Lemma bind_changes_innermost_dict_only_witness :
  ∃ outer scope scope',
    [examples.unit_scope; examples.unit_scope] = outer ++ [scope]
    ∧ binding.scopes
        {| binding.scopes :=
             [examples.unit_scope;
              Node "unit" None
                {["known_names" := VDict {[KStr "x" := VBool true]}]} []] |}
      = outer ++ [scope']
    ∧ ast.t_ scope' = ast.t_ scope
    ∧ ast.position scope' = ast.position scope
    ∧ ast.children scope' = ast.children scope
    ∧ ∀ a, a ≠ "known_names" → ast.attrs scope' !! a = ast.attrs scope !! a.
Proof.
  apply (bind_changes_innermost_dict_only "known_names"
           {| binding.scopes := [examples.unit_scope; examples.unit_scope] |}
           _ (VStr "x") (VBool true)).
  reflexivity.
Defined.

(** The value a lookup returns depends on the scopes only through what
    they hold under the attribute it reads. *)
Lemma look_up_in_same_attr attr rs1 rs2 key :
  Forall2 (λ s1 s2, ast.attrs s1 !! attr = ast.attrs s2 !! attr) rs1 rs2 →
  (binding.look_up_in attr rs1 key ≫= λ p, Ok p.1)
  = (binding.look_up_in attr rs2 key ≫= λ p, Ok p.1).
Proof.
  induction 1 as [|s1 s2 rs1 rs2 Hs _ IH]; [done|]. simpl.
  unfold ast.get_attr_default. rewrite <- Hs.
  destruct (ast.attrs s1 !! attr) as [known|]; simpl.
  - destruct known as [| | |s| |d|]; try done.
    + destruct key as [| | |n| | |]; try done.
      destruct (binding.is_substring n s); [done|].
      destruct (binding.look_up_in attr rs1 (VStr n)) as [[v1 r1]|e1],
               (binding.look_up_in attr rs2 (VStr n)) as [[v2 r2]|e2];
        simpl in *; congruence.
    + destruct (binding.dict_find d key) as [[v|]|]; simpl; try done.
      destruct (binding.look_up_in attr rs1 key) as [[v1 r1]|e1],
               (binding.look_up_in attr rs2 key) as [[v2 r2]|e2];
        simpl in *; congruence.
  - destruct (binding.dict_find ∅ key) as [[v|]|]; simpl; try done.
    destruct (binding.look_up_in attr rs1 key) as [[v1 r1]|e1],
             (binding.look_up_in attr rs2 key) as [[v2 r2]|e2];
      simpl in *; congruence.
Qed.

(** X13. Names and constants are kept apart: binding under one of the
    two attributes changes the outcome of no lookup under the other. *)
Theorem bind_leaves_other_table (attr attr' : string)
    (self self' : binding.ScopedPass) (name : value) (v key : value)
    (Hattr : attr ≠ attr')
    (Hbind : binding.bind_in attr self name v = Ok self') :
  (binding.look_up attr' self' key ≫= λ p, Ok p.1)
  = (binding.look_up attr' self key ≫= λ p, Ok p.1).
Proof.
  apply bind_in_inv in Hbind as (outer & scope & d & k & Hs & _ & _ & Hs').
  unfold binding.look_up. rewrite Hs, Hs', !reverse_snoc.
  match goal with
  | |- (?a ≫= _) ≫= _ = (?b ≫= _) ≫= _ =>
      assert ((a ≫= λ p, Ok p.1) = (b ≫= λ p, Ok p.1)) as Heq;
      [|destruct a as [[??]|], b as [[??]|]; simpl in *; congruence]
  end.
  apply look_up_in_same_attr. apply Forall2_cons.
  split; [simpl; by rewrite lookup_insert_ne|].
  by apply Forall_Forall2_diag, Forall_true.
Qed.

Lemma bind_leaves_other_table_witness :
  (binding.look_up_constant
     {| binding.scopes :=
          [Node "unit" None
             {["known_names" := VDict {[KStr "K" := VBool true]}]} []] |}
     (VStr "K") ≫= λ p, Ok p.1)
  = (binding.look_up_constant {| binding.scopes := [examples.unit_scope] |}
       (VStr "K") ≫= λ p, Ok p.1).
Proof.
  apply (bind_leaves_other_table "known_names" "known_constants"
           {| binding.scopes := [examples.unit_scope] |} _
           (VStr "K") (VBool true)).
  - discriminate.
  - reflexivity.
Defined.

(** X14. Inner definitions shadow outer ones: the lookup returns the
    binding of the innermost scope that has one, whatever the scopes
    around it bind. [k] is the key the name is filed under. *)
Theorem look_up_innermost_wins (attr : string) (outer inner : list AstNode)
    (scope : AstNode) (name : value) (k : dict_key) (v : value)
    (d : gmap dict_key value)
    (Hkey : binding.as_key name = Ok k)
    (Hscope : ast.attrs scope !! attr = Some (VDict d))
    (Hname : d !! k = Some v)
    (Hinner : Forall (λ s, ast.attrs s !! attr = None
                           ∨ ∃ d', ast.attrs s !! attr = Some (VDict d')
                                   ∧ d' !! k = None) inner) :
  ∃ self',
    binding.look_up attr {| binding.scopes := outer ++ scope :: inner |} name
    = Ok (v, self').
Proof.
  unfold binding.look_up. simpl.
  rewrite reverse_app, reverse_cons, <- app_assoc. simpl.
  destruct (look_up_in_innermost attr (reverse inner) scope (reverse outer)
              name k v d Hkey) as [rs Hrs]; [by apply Forall_reverse|done..|].
  rewrite Hrs. simpl. by eexists.
Qed.

Lemma look_up_innermost_wins_witness :
  ∃ self',
    binding.look_up_name
      {| binding.scopes :=
           [Node "unit" None
              {["known_names" := VDict {[KStr "x" := VInt 1]}]} []]
           ++ Node "fun" None
                {["known_names" := VDict {[KStr "x" := VInt 2]}]} []
           :: [Node "fun" None ∅ []] |}
      (VStr "x")
    = Ok (VInt 2, self').
Proof.
  apply (look_up_innermost_wins "known_names"
           [Node "unit" None
              {["known_names" := VDict {[KStr "x" := VInt 1]}]} []]
           [Node "fun" None ∅ []]
           (Node "fun" None
              {["known_names" := VDict {[KStr "x" := VInt 2]}]} [])
           (VStr "x") (KStr "x") (VInt 2) {[KStr "x" := VInt 2]}).
  - reflexivity.
  - reflexivity.
  - reflexivity.
  - apply Forall_singleton. by left.
Defined.

(** X15. Looking up a name that no scope binds returns [None]; it
    raises nothing, also with an empty stack of scopes. *)
Theorem look_up_unbound_is_none (attr : string) (self : binding.ScopedPass)
    (name : value) (k : dict_key)
    (Hkey : binding.as_key name = Ok k)
    (Hnone : Forall (λ s, ast.attrs s !! attr = None
                          ∨ ∃ d, ast.attrs s !! attr = Some (VDict d)
                                 ∧ d !! k = None)
                    (binding.scopes self)) :
  ∃ self', binding.look_up attr self name = Ok (VNone, self').
Proof.
  unfold binding.look_up.
  destruct (look_up_in_lacks attr (reverse (binding.scopes self)) name k Hkey)
    as [rs Hrs]; [by apply Forall_reverse|].
  rewrite Hrs. simpl. by eexists.
Qed.

Lemma look_up_unbound_is_none_witness :
  ∃ self',
    binding.look_up_name
      {| binding.scopes :=
           [Node "unit" None
              {["known_names" := VDict {[KStr "y" := VInt 1]}]} [];
            Node "fun" None ∅ []] |}
      (VStr "x")
    = Ok (VNone, self').
Proof.
  apply (look_up_unbound_is_none "known_names"
           {| binding.scopes :=
                [Node "unit" None
                   {["known_names" := VDict {[KStr "y" := VInt 1]}]} [];
                 Node "fun" None ∅ []] |}
           (VStr "x") (KStr "x")).
  - reflexivity.
  - apply Forall_cons. split.
    + right. eexists. split; reflexivity.
    + apply Forall_singleton. by left.
Defined.

(** X16. [ResolveConstants.exit__scope] removes [known_constants] and
    nothing else: afterwards the node binds no constant, every other
    attribute, the kind, the position and the children are as before,
    and a second application changes nothing. *)
Theorem exit_scope_strips_constants (node : AstNode) :
  ast.attrs (binding.ResolveConstants.exit__scope node) !! "known_constants"
  = None
  ∧ (∀ a, a ≠ "known_constants" →
       ast.attrs (binding.ResolveConstants.exit__scope node) !! a
       = ast.attrs node !! a)
  ∧ ast.t_ (binding.ResolveConstants.exit__scope node) = ast.t_ node
  ∧ ast.position (binding.ResolveConstants.exit__scope node) = ast.position node
  ∧ ast.children (binding.ResolveConstants.exit__scope node) = ast.children node
  ∧ binding.ResolveConstants.exit__scope
      (binding.ResolveConstants.exit__scope node)
    = binding.ResolveConstants.exit__scope node.
Proof.
  unfold binding.ResolveConstants.exit__scope, ast.with_attrs. simpl.
  split; [apply lookup_delete_eq|].
  split; [intros a Ha; by apply lookup_delete_ne|].
  repeat split. by rewrite delete_delete_eq.
Qed.

(** ** The constant passes *)

Lemma bind_in_innermost attr self self' name v :
  binding.bind_in attr self name v = Ok self' →
  bound_innermost attr self self' name v.
Proof.
  intros Hbind.
  apply bind_in_inv in Hbind as (outer & scope & d & k & Hs & _ & Hkey & Hs').
  split.
  - by rewrite Hs, Hs', !removelast_snoc.
  - eexists. rewrite Hs', last_snoc. split; [done|].
    exists k, (<[k := v]> d). split; [done|]. simpl.
    split; apply lookup_insert_eq.
Qed.

Lemma attr_inv node key v :
  ast.attr node key = Ok v → ast.attrs node !! key = Some v.
Proof. unfold ast.attr. destruct (ast.attrs node !! key); [|done]. by intros [= ->]. Qed.

(** X17. [ShadowNames.exit_constant] returns the node it was given and
    binds the constant's name, whatever hashable value it is, to the
    placeholder [True] in the innermost scope, leaving the enclosing
    scopes as they are; the lookup of the name then yields [True]. *)
Theorem shadow_names_binds_placeholder (self self' : binding.ScopedPass)
    (node node' : AstNode)
    (Hexit : binding.ShadowNames.exit_constant self node = Ok (node', self')) :
  node' = node
  ∧ ∃ name, ast.attrs node !! "name" = Some name
            ∧ bound_innermost "known_names" self self' name (VBool true)
            ∧ binding.look_up_name self' name = Ok (VBool true, self').
Proof.
  unfold binding.ShadowNames.exit_constant in Hexit.
  destruct (ast.attr node "name") as [name|] eqn:Hname; [|done].
  simpl in Hexit.
  destruct (binding.bind_name self name (VBool true)) as [s1|] eqn:Hbind;
    [|done].
  simpl in Hexit. injection Hexit as <- <-. split; [done|].
  exists name. split; [by apply attr_inv|].
  split; [by apply bind_in_innermost|by eapply look_up_after_bind].
Qed.

Lemma shadow_names_binds_placeholder_witness :
  let node := Node "constant" None {["name" := VInt 7]} [VInt 0] in
  ∃ self',
    binding.ShadowNames.exit_constant
      {| binding.scopes := [examples.unit_scope] |} node
    = Ok (node, self')
    ∧ node = node
    ∧ ∃ name, ast.attrs node !! "name" = Some name
              ∧ bound_innermost "known_names"
                  {| binding.scopes := [examples.unit_scope] |} self' name
                  (VBool true)
              ∧ binding.look_up_name self' name = Ok (VBool true, self').
Proof.
  eexists. split; [reflexivity|].
  apply (shadow_names_binds_placeholder
           {| binding.scopes := [examples.unit_scope] |}).
  reflexivity.
Defined.

(** X18. [BindNamesToTypes.exit_constant] returns the node it was given
    and binds the constant's name, whatever hashable value it is, to the
    node's [type] in the innermost scope, replacing whatever the name
    was bound to there and leaving the enclosing scopes as they are; the
    lookup of the name then yields the type. *)
Theorem bind_names_to_types_binds_type (self self' : binding.ScopedPass)
    (node node' : AstNode)
    (Hexit : binding.BindNamesToTypes.exit_constant self node
             = Ok (node', self')) :
  node' = node
  ∧ ∃ name ty, ast.attrs node !! "name" = Some name
               ∧ ast.attrs node !! "type" = Some ty
               ∧ bound_innermost "known_names" self self' name ty
               ∧ binding.look_up_name self' name = Ok (ty, self').
Proof.
  unfold binding.BindNamesToTypes.exit_constant in Hexit.
  destruct (ast.attr node "name") as [name|] eqn:Hname; [|done].
  simpl in Hexit.
  destruct (ast.attr node "type") as [ty|] eqn:Hty; [|done]. simpl in Hexit.
  destruct (binding.bind_name self name ty) as [s1|] eqn:Hbind; [|done].
  simpl in Hexit. injection Hexit as <- <-. split; [done|].
  exists name, ty. split; [by apply attr_inv|]. split; [by apply attr_inv|].
  split; [by apply bind_in_innermost|by eapply look_up_after_bind].
Qed.

Lemma bind_names_to_types_binds_type_witness :
  let node :=
    Node "constant" None {["name" := VStr "K"; "type" := VStr "u8"]} [VInt 7] in
  let self :=
    {| binding.scopes :=
         [Node "unit" None
            {["known_names" := VDict {[KStr "K" := VBool true]}]} []] |} in
  ∃ self',
    binding.BindNamesToTypes.exit_constant self node = Ok (node, self')
    ∧ node = node
    ∧ ∃ name ty, ast.attrs node !! "name" = Some name
                 ∧ ast.attrs node !! "type" = Some ty
                 ∧ bound_innermost "known_names" self self' name ty
                 ∧ binding.look_up_name self' name = Ok (ty, self').
Proof.
  eexists. split; [reflexivity|].
  apply (bind_names_to_types_binds_type
           {| binding.scopes :=
                [Node "unit" None
                   {["known_names" := VDict {[KStr "K" := VBool true]}]} []] |}).
  reflexivity.
Defined.

(** X19. [EvaluateConstants.exit_constant] returns the empty list -- the
    [constant] node disappears from its parent -- and binds the
    constant's name, whatever hashable value it is, to the node's first
    child in the innermost scope, leaving the enclosing scopes as they
    are; the lookup of the name then yields that child. *)
Theorem evaluate_constants_binds_first_child (self self' : binding.ScopedPass)
    (node : AstNode) (out : list value)
    (Hexit : binding.EvaluateConstants.exit_constant self node = Ok (out, self')) :
  out = []
  ∧ ∃ name v rest, ast.attrs node !! "name" = Some name
                   ∧ ast.children node = v :: rest
                   ∧ bound_innermost "known_constants" self self' name v
                   ∧ binding.look_up_constant self' name = Ok (v, self').
Proof.
  unfold binding.EvaluateConstants.exit_constant in Hexit.
  destruct (ast.attr node "name") as [name|] eqn:Hname; [|done].
  simpl in Hexit.
  destruct (ast.children node) as [|v rest] eqn:Hch; [done|]. simpl in Hexit.
  destruct (binding.bind_constant self name v) as [s1|] eqn:Hbind; [|done].
  simpl in Hexit. injection Hexit as <- <-. split; [done|].
  exists name, v, rest. split; [by apply attr_inv|]. split; [done|].
  split; [by apply bind_in_innermost|by eapply look_up_after_bind].
Qed.

Lemma evaluate_constants_binds_first_child_witness :
  let node := Node "constant" None {["name" := VBool true]} [VInt 5] in
  ∃ self',
    binding.EvaluateConstants.exit_constant
      {| binding.scopes := [examples.unit_scope] |} node
    = Ok ([], self')
    ∧ [] = ([] : list value)
    ∧ ∃ name v rest, ast.attrs node !! "name" = Some name
                     ∧ ast.children node = v :: rest
                     ∧ bound_innermost "known_constants"
                         {| binding.scopes := [examples.unit_scope] |} self'
                         name v
                     ∧ binding.look_up_constant self' name = Ok (v, self').
Proof.
  eexists. split; [reflexivity|].
  apply (evaluate_constants_binds_first_child
           {| binding.scopes := [examples.unit_scope] |}).
  reflexivity.
Defined.

(** X20. A constant evaluated to a truthy value reaches its uses: with
    the scopes as [EvaluateConstants.exit_constant] left them,
    [ResolveConstants.exit_identifier] replaces an identifier of that
    name, whatever hashable value the name is, by the constant's first
    child. *)
Theorem evaluated_constant_is_resolved (self self' : binding.ScopedPass)
    (constant identifier : AstNode) (out : list value) (name : value)
    (v : value) (rest : list value)
    (Hexit : binding.EvaluateConstants.exit_constant self constant
             = Ok (out, self'))
    (Hname : ast.attrs constant !! "name" = Some name)
    (Huse : ast.attrs identifier !! "name" = Some name)
    (Hchild : ast.children constant = v :: rest)
    (Htruthy : truthy v = true) :
  binding.ResolveConstants.exit_identifier self' identifier = Ok (v, self').
Proof.
  unfold binding.EvaluateConstants.exit_constant in Hexit.
  rewrite (attr_lookup _ _ _ Hname) in Hexit. simpl in Hexit.
  rewrite Hchild in Hexit. simpl in Hexit.
  destruct (binding.bind_constant self name v) as [s1|] eqn:Hbind; [|done].
  simpl in Hexit. injection Hexit as <- <-.
  unfold binding.ResolveConstants.exit_identifier.
  rewrite (attr_lookup _ _ _ Huse). simpl.
  unfold binding.look_up_constant.
  rewrite (look_up_after_bind _ _ _ _ _ Hbind). simpl. by rewrite Htruthy.
Qed.

Lemma evaluated_constant_is_resolved_witness :
  let constant := Node "constant" None {["name" := VInt 7]} [VInt 42] in
  let identifier := Node "identifier" None {["name" := VInt 7]} [] in
  ∃ self',
    binding.EvaluateConstants.exit_constant
      {| binding.scopes := [examples.unit_scope] |} constant
    = Ok ([], self')
    ∧ binding.ResolveConstants.exit_identifier self' identifier
      = Ok (VInt 42, self').
Proof.
  eexists. split; [reflexivity|].
  apply (evaluated_constant_is_resolved
           {| binding.scopes := [examples.unit_scope] |} _
           (Node "constant" None {["name" := VInt 7]} [VInt 42])
           (Node "identifier" None {["name" := VInt 7]} [])
           [] (VInt 7) (VInt 42) []);
    reflexivity.
Defined.

Lemma exit_identifier_unbound_witness :
  ∃ self',
    binding.ResolveConstants.exit_identifier
      {| binding.scopes := [examples.unit_scope] |} examples.identifier_K
    = Ok (VNode examples.identifier_K, self').
Proof.
  apply (exit_identifier_unbound
           {| binding.scopes := [examples.unit_scope] |}
           examples.identifier_K "K").
  - reflexivity.
  - apply Forall_singleton. by left.
Defined.

Lemma exit_identifier_bound_truthy_witness :
  ∃ self',
    binding.ResolveConstants.exit_identifier
      {| binding.scopes :=
           [Node "unit" None
              {["known_constants" := VDict {[KStr "K" := VInt 1]}]} []]
           ++ Node "fun" None
                {["known_constants" := VDict {[KStr "K" := VInt 2]}]} []
           :: [Node "fun" None ∅ []] |}
      examples.identifier_K
    = Ok (VInt 2, self').
Proof.
  apply (exit_identifier_bound_truthy
           [Node "unit" None
              {["known_constants" := VDict {[KStr "K" := VInt 1]}]} []]
           (Node "fun" None
              {["known_constants" := VDict {[KStr "K" := VInt 2]}]} [])
           [Node "fun" None ∅ []]
           examples.identifier_K "K" (VInt 2)).
  - reflexivity.
  - eexists. split; reflexivity.
  - apply Forall_singleton. by left.
  - reflexivity.
Defined.

(** ** The generator: rules, translation table, modes *)

(** Loops that may raise, one turn at a time. *)
Lemma foldM_cons {A B} (f : B → A → result B) a l b :
  foldM f (a :: l) b = f b a ≫= foldM f l.
Proof.
  unfold foldM. simpl. destruct (f b a) as [b'|e]; simpl; [done|].
  apply foldM_raise.
Qed.

Lemma foldM_snoc {A B} (f : B → A → result B) a l b :
  foldM f (l ++ [a]) b = foldM f l b ≫= λ b', f b' a.
Proof. unfold foldM. by rewrite foldl_app. Qed.

(** A property every turn preserves holds when the loop ends normally. *)
Lemma foldM_invariant {A B} (P : B → Prop) (f : B → A → result B) l b b' :
  (∀ b a b', P b → a ∈ l → f b a = Ok b' → P b') →
  P b → foldM f l b = Ok b' → P b'.
Proof.
  revert b. induction l as [|a l IH]; intros b Hstep Hb Hfold.
  - by injection Hfold as <-.
  - rewrite foldM_cons in Hfold.
    destruct (f b a) as [b1|] eqn:Hf; [|done]. simpl in Hfold.
    apply (IH b1); [|by eapply Hstep; [|left|]|done].
    intros. eapply Hstep; [done|by right|done].
Qed.

(** X21. Whenever [next_symbol] returns a symbol, the item can be
    advanced: [advanced] raises nothing, moves the pointer over exactly
    that symbol and keeps everything else of the rule. *)
Theorem next_symbol_can_be_advanced {X : Type} (self : Rule.t X) (x : X)
    (Hnext : Rule.next_symbol self = Ok (Some x)) :
  ∃ p, Rule.pointer self = Some p
       ∧ Rule.rhs self !! p = Some x
       ∧ Rule.advanced self = Ok (Rule.with_pointer self (Some (S p)))
       ∧ Rule.next_symbol (Rule.with_pointer self (Some (S p)))
         = Ok (Rule.rhs self !! S p).
Proof.
  unfold Rule.next_symbol, Rule.advanced in *.
  destruct (Rule.pointer self) as [p|] eqn:Hp; [|done].
  case_bool_decide as Hlen; [done|].
  destruct (Rule.rhs self !! p) as [y|] eqn:Hy; [|done].
  injection Hnext as ->. exists p. split; [done|]. split; [done|].
  split; [by rewrite Nat.add_1_r|]. simpl.
  apply lookup_lt_Some in Hy.
  case_bool_decide as Hlen'.
  - rewrite Hlen'. f_equal. symmetry. by apply lookup_ge_None_2.
  - destruct (Rule.rhs self !! S p) eqn:Hz; [done|].
    apply lookup_ge_None in Hz. lia.
Qed.

Lemma next_symbol_can_be_advanced_witness :
  ∃ p, Rule.pointer (Rule.with_pointer examples.rule_E_eof (Some 1%nat)) = Some p
       ∧ Rule.rhs (Rule.with_pointer examples.rule_E_eof (Some 1%nat)) !! p
         = Some examples.eof
       ∧ Rule.advanced (Rule.with_pointer examples.rule_E_eof (Some 1%nat))
         = Ok (Rule.with_pointer
                 (Rule.with_pointer examples.rule_E_eof (Some 1%nat)) (Some (S p)))
       ∧ Rule.next_symbol
           (Rule.with_pointer
              (Rule.with_pointer examples.rule_E_eof (Some 1%nat)) (Some (S p)))
         = Ok (Rule.rhs (Rule.with_pointer examples.rule_E_eof (Some 1%nat)) !! S p).
Proof.
  apply (next_symbol_can_be_advanced
           (Rule.with_pointer examples.rule_E_eof (Some 1%nat)) examples.eof).
  reflexivity.
Defined.

(** The walk of [extend_rule] along the right-hand side. *)
Lemma extend_walk self rhs state acc state' xrhs :
  foldM (λ '(state, rhs) symbol,
           next ← TranslationTable.translate self (state, symbol);
           Ok (next, rhs ++ [(State state, symbol, State next)]))
        rhs (state, acc) = Ok (state', xrhs) →
  ∃ new,
    xrhs = acc ++ new
    ∧ (λ s : xsymbol, s.1.2) <$> new = rhs
    ∧ Forall (λ s : xsymbol,
                ∃ a b, s.1.1 = State a ∧ s.2 = State b
                       ∧ Dict.get (TranslationTable.translation_table self)
                                  (a, s.1.2) = Some b) new.
Proof.
  revert state acc. induction rhs as [|symbol rhs IH]; intros state acc Hfold.
  - injection Hfold as <- <-. exists []. by rewrite app_nil_r.
  - rewrite foldM_cons in Hfold.
    destruct (TranslationTable.translate self (state, symbol)) as [next|]
      eqn:Htr; [|done].
    assert (Dict.get (TranslationTable.translation_table self) (state, symbol)
            = Some next) as Hget.
    { unfold TranslationTable.translate in Htr.
      destruct (Dict.get _ _); [|done]. by injection Htr as ->. }
    simpl in Hfold. apply IH in Hfold as (new & -> & Hsyms & Hall).
    exists ((State state, symbol, State next) :: new).
    split; [by rewrite <- app_assoc|]. split; [by rewrite fmap_cons, Hsyms|].
    apply Forall_cons. split; [|done]. by exists state, next.
Qed.

(** X22. The extended rule [extend_rule] builds for an item maps back to
    the item's rule under [Rule.parent]; its left-hand side starts in
    the current state, and every triple of its right-hand side is a
    transition of the table. *)
Theorem extend_rule_round_trip (self : TranslationTable.t) (current : nat)
    (rule : Rule.t symbol) (xrule : Rule.t xsymbol) (start : option xsymbol)
    (Hext : TranslationTable.extend_rule self current rule = Ok (xrule, start)) :
  Rule.parent xrule = Rule.with_pointer rule None
  ∧ (Rule.lhs xrule).1.1 = State current
  ∧ Forall (λ s : xsymbol,
              ∃ a b, s.1.1 = State a ∧ s.2 = State b
                     ∧ Dict.get (TranslationTable.translation_table self)
                                (a, s.1.2) = Some b) (Rule.rhs xrule).
Proof.
  unfold TranslationTable.extend_rule in Hext.
  destruct (foldM _ (Rule.rhs rule) (current, [])) as [[st xrhs]|] eqn:Hwalk;
    [|done].
  simpl in Hext. apply extend_walk in Hwalk as (new & -> & Hsyms & Hall).
  simpl in *.
  destruct (Dict.get _ (current, Rule.lhs rule)); injection Hext as <- _;
    (split; [|split; [done|done]]);
    unfold Rule.parent, Rule.with_pointer; simpl; by rewrite Hsyms.
Qed.

Lemma extend_rule_round_trip_witness :
  let self :=
    TranslationTable.Make [examples.eof]
      [((0%nat, Nonterminal "E"), 1%nat); ((0%nat, Terminal "n"), 2%nat);
       ((1%nat, examples.eof), 3%nat)]
      examples.accept_itemsets ∅ in
  let xrule :=
    Rule.Make (State 0, Nonterminal "E", State 1)
      [(State 0, Nonterminal "E", State 1); (State 1, examples.eof, State 3)]
      (Some 0) false 0 None in
  Rule.parent xrule
  = Rule.with_pointer (Rule.with_pointer examples.rule_E_eof (Some 0%nat)) None
  ∧ (Rule.lhs xrule).1.1 = State 0
  ∧ Forall (λ s : xsymbol,
              ∃ a b, s.1.1 = State a ∧ s.2 = State b
                     ∧ Dict.get (TranslationTable.translation_table self)
                                (a, s.1.2) = Some b) (Rule.rhs xrule).
Proof.
  apply (extend_rule_round_trip
           (TranslationTable.Make [examples.eof]
              [((0%nat, Nonterminal "E"), 1%nat); ((0%nat, Terminal "n"), 2%nat);
               ((1%nat, examples.eof), 3%nat)]
              examples.accept_itemsets ∅)
           0 (Rule.with_pointer examples.rule_E_eof (Some 0%nat)) _ None).
  reflexivity.
Defined.

(** One turn of [build_modes]. *)
Lemma build_modes_step modes itemset modes' :
  (partials ← ItemSet.partials itemset;
   let ms : gset Z := list_to_set (Rule.mode <$> partials) in
   match elements ms with
   | [] => Ok (modes ++ [NORMAL_MODE])
   | [m] => Ok (modes ++ [m])
   | _ =>
       Raise (AssertionError
                ("mode/mode conflict: [" +:+
                 String.concat ", "
                   (Rule.__repr__ symbol_str <$> partials) +:+ "]"))
   end) = Ok modes' →
  ∃ partials m,
    ItemSet.partials itemset = Ok partials ∧ modes' = modes ++ [m]
    ∧ (partials = [] → m = NORMAL_MODE)
    ∧ ∀ r, r ∈ partials → Rule.mode r = m.
Proof.
  destruct (ItemSet.partials itemset) as [partials|]; [|done]. simpl.
  destruct (elements _) as [|m [|m' rest]] eqn:Hel; [| |done]; intros [= <-].
  - exists partials, NORMAL_MODE. split; [done|]. split; [done|]. split; [done|].
    intros r Hr.
    assert (Rule.mode r ∈ elements (list_to_set (Rule.mode <$> partials) : gset Z))
      as Hin.
    { apply elem_of_elements, elem_of_list_to_set, list_elem_of_fmap. by exists r. }
    rewrite Hel in Hin. by apply elem_of_nil in Hin.
  - exists partials, m. split; [done|]. split; [done|]. split.
    + intros ->. simpl in Hel. by rewrite elements_empty in Hel.
    + intros r Hr.
      assert (Rule.mode r ∈ elements (list_to_set (Rule.mode <$> partials) : gset Z))
        as Hin.
      { apply elem_of_elements, elem_of_list_to_set, list_elem_of_fmap.
        by exists r. }
      rewrite Hel in Hin. by apply list_elem_of_singleton in Hin.
Qed.

Lemma build_modes_fold itemsets acc modes :
  foldM (λ modes itemset,
           partials ← ItemSet.partials itemset;
           let ms : gset Z := list_to_set (Rule.mode <$> partials) in
           match elements ms with
           | [] => Ok (modes ++ [NORMAL_MODE])
           | [m] => Ok (modes ++ [m])
           | _ =>
               Raise (AssertionError
                        ("mode/mode conflict: [" +:+
                         String.concat ", "
                           (Rule.__repr__ symbol_str <$> partials) +:+ "]"))
           end) itemsets acc = Ok modes →
  ∃ new,
    modes = acc ++ new
    ∧ Forall2 (λ itemset m,
                 ∃ partials, ItemSet.partials itemset = Ok partials
                             ∧ (partials = [] → m = NORMAL_MODE)
                             ∧ ∀ r, r ∈ partials → Rule.mode r = m)
              itemsets new.
Proof.
  revert acc. induction itemsets as [|itemset itemsets IH]; intros acc Hfold.
  - injection Hfold as <-. exists []. by rewrite app_nil_r.
  - rewrite foldM_cons in Hfold.
    match type of Hfold with
    | ?step ≫= _ = _ => destruct step as [acc'|] eqn:Hstep; [|done]
    end.
    simpl in Hfold. apply build_modes_step in Hstep
      as (partials & m & Hp & -> & Hnil & Hall).
    apply IH in Hfold as (new & -> & Hrest).
    exists (m :: new). split; [by rewrite <- app_assoc|].
    apply Forall2_cons. split; [|done]. by exists partials.
Qed.

(** X23. [build_modes] gives every state one mode: the table has one
    entry per item set, which is the mode shared by the partially
    applied items of the state, or mode 0 when the state has none. *)
Theorem build_modes_one_mode_per_state (self : TranslationTable.t)
    (modes : list Z)
    (Hmodes : TranslationTable.build_modes self = Ok modes) :
  length modes = length (TranslationTable.itemsets self)
  ∧ ∀ state itemset m,
      TranslationTable.itemsets self !! state = Some itemset →
      modes !! state = Some m →
      ∃ partials, ItemSet.partials itemset = Ok partials
                  ∧ (partials = [] → m = NORMAL_MODE)
                  ∧ ∀ r, r ∈ partials → Rule.mode r = m.
Proof.
  unfold TranslationTable.build_modes in Hmodes.
  apply build_modes_fold in Hmodes as (new & -> & Hall). simpl.
  split; [symmetry; by eapply Forall2_length|].
  intros state itemset m Hi Hm.
  by eapply (Forall2_lookup_lr _ _ _ _ _ _ Hall).
Qed.

Lemma build_modes_one_mode_per_state_witness :
  let self :=
    TranslationTable.Make [examples.eof] [] examples.accept_itemsets ∅ in
  length [0; 0; 0; 0] = length (TranslationTable.itemsets self)
  ∧ ∀ state itemset m,
      TranslationTable.itemsets self !! state = Some itemset →
      [0; 0; 0; 0] !! state = Some m →
      ∃ partials, ItemSet.partials itemset = Ok partials
                  ∧ (partials = [] → m = NORMAL_MODE)
                  ∧ ∀ r, r ∈ partials → Rule.mode r = m.
Proof.
  apply (build_modes_one_mode_per_state
           (TranslationTable.Make [examples.eof] [] examples.accept_itemsets ∅)).
  vm_compute. reflexivity.
Defined.

(** ** The generator: the action/goto table *)

Lemma Dict_get_snoc {K} `{EqDecision K} {V} (d : Dict.t K V) k v k' :
  Dict.get (d ++ [(k, v)]) k'
  = match Dict.get d k' with
    | Some x => Some x
    | None => if decide (k' = k) then Some v else None
    end.
Proof.
  induction d as [|[k0 v0] d IH]; simpl; [done|].
  destruct (decide (k' = k0)); [done|apply IH].
Qed.

Lemma copy_translations_snoc translations f s t :
  BuildParser.copy_translations (translations ++ [((f, s), t)])
  = Dict.set (BuildParser.copy_translations translations) (f, s)
      (if Grammar.is_terminal s then Shift t else Goto t).
Proof. unfold BuildParser.copy_translations. by rewrite foldl_app. Qed.

(** X24. The table starts as a copy of the translation table: a
    transition on a terminal becomes the shift to its target, a
    transition on a nonterminal the goto, and a pair without transition
    has no entry. *)
Theorem copy_translations_lookup (translations : Dict.t (nat * symbol) nat)
    (f : nat) (s : symbol)
    (Hdict : NoDup (Dict.keys translations)) :
  Dict.get (BuildParser.copy_translations translations) (f, s)
  = (λ t, if Grammar.is_terminal s then Shift t else Goto t)
      <$> Dict.get translations (f, s).
Proof.
  induction translations as [|[[f' s'] t] translations IH] using rev_ind;
    [done|].
  unfold Dict.keys in Hdict. rewrite fmap_app in Hdict.
  apply NoDup_app in Hdict as (Hnd & Hnotin & _).
  rewrite copy_translations_snoc, Dict_get_snoc.
  destruct (decide ((f, s) = (f', s'))) as [[= <- <-]|Hne].
  - rewrite Dict_get_set.
    destruct (Dict.get translations (f, s)) eqn:Hget; [|done].
    exfalso. apply (Hnotin (f, s)); [|simpl; by left].
    apply Dict_get_is_Some. by eexists.
  - rewrite Dict_get_set_ne by done. rewrite IH by done.
    by destruct (Dict.get translations (f, s)).
Qed.

Lemma copy_translations_lookup_witness :
  Dict.get (BuildParser.copy_translations
              [((0%nat, Nonterminal "E"), 1%nat); ((0%nat, Terminal "n"), 2%nat)])
           (0%nat, Terminal "n")
  = (λ t, if Grammar.is_terminal (Terminal "n") then Shift t else Goto t)
      <$> Dict.get [((0%nat, Nonterminal "E"), 1%nat);
                    ((0%nat, Terminal "n"), 2%nat)]
                   (0%nat, Terminal "n").
Proof.
  apply (copy_translations_lookup
           [((0%nat, Nonterminal "E"), 1%nat); ((0%nat, Terminal "n"), 2%nat)]
           0 (Terminal "n")).
  apply (bool_decide_eq_true_1 _). reflexivity.
Defined.

(** One reduction changes one cell, and not a goto. *)
Lemma add_reduction_frame self itemsets finalset_rules k agtable symbol agtable' :
  BuildParser.add_reduction self itemsets finalset_rules k agtable symbol
  = Ok agtable' →
  (∀ key, key ≠ (k, symbol) → Dict.get agtable' key = Dict.get agtable key)
  ∧ (∀ t, Dict.get agtable (k, symbol) = Some (Goto t) →
          Dict.get agtable' (k, symbol) = Some (Goto t))
  ∧ (NoDup (Dict.keys agtable) → NoDup (Dict.keys agtable')).
Proof.
  unfold BuildParser.add_reduction. intros Hadd.
  assert (Dict.get agtable (k, symbol) ≠ None →
          ∀ t, Dict.get agtable (k, symbol) = Some (Goto t) → False) as Hgoto.
  { intros _ t Ht. rewrite Ht in Hadd.
    unfold BuildParser.resolve_conflict in Hadd. done. }
  destruct (match Dict.get agtable (k, symbol) with
            | Some existing => _
            | None => Ok false
            end) as [keep|]; [|done].
  simpl in Hadd. destruct keep.
  { injection Hadd as <-. by repeat split. }
  destruct (mjoin (finalset_rules !! k)) as [r|]; [|done]. simpl in Hadd.
  assert (∃ e, agtable' = Dict.set agtable (k, symbol) e) as [e ->].
  { destruct (_ && _); injection Hadd as <-; by eexists. }
  split; [|split].
  - intros key Hne. by rewrite Dict_get_set_ne.
  - intros t Ht. exfalso. apply (Hgoto ltac:(by rewrite Ht) t Ht).
  - apply Dict_set_NoDup.
Qed.

(** X25. Adding the reductions never disturbs a goto: every goto entry
    of the table is still there, unchanged, when [add_reductions] ends
    normally, and the keys of the table stay distinct. *)
Theorem add_reductions_keep_gotos (self : Grammar.t symbol)
    (itemsets : list (gset (Rule.t symbol)))
    (finalset_rules : list (option (Rule.t symbol)))
    (finalset_followsets : list (gset symbol))
    (agtable agtable' : Dict.t (nat * symbol) entry)
    (Hadd : BuildParser.add_reductions self itemsets finalset_rules
              finalset_followsets agtable = Ok agtable') :
  (∀ key t, Dict.get agtable key = Some (Goto t) →
            Dict.get agtable' key = Some (Goto t))
  ∧ (NoDup (Dict.keys agtable) → NoDup (Dict.keys agtable')).
Proof.
  unfold BuildParser.add_reductions in Hadd.
  revert Hadd.
  apply (foldM_invariant
           (λ ag : Dict.t (nat * symbol) entry,
              (∀ key t, Dict.get agtable key = Some (Goto t) →
                        Dict.get ag key = Some (Goto t))
              ∧ (NoDup (Dict.keys agtable) → NoDup (Dict.keys ag))));
    [|by split].
  intros ag [k followset] ag' Hag _.
  apply (foldM_invariant
           (λ ag : Dict.t (nat * symbol) entry,
              (∀ key t, Dict.get agtable key = Some (Goto t) →
                        Dict.get ag key = Some (Goto t))
              ∧ (NoDup (Dict.keys agtable) → NoDup (Dict.keys ag))));
    [|done].
  intros b symbol b' [Hb1 Hb2] _ Hstep.
  apply add_reduction_frame in Hstep as (Hframe & Hgoto & Hnd).
  split; [|by intros ?; apply Hnd, Hb2].
  intros key t Ht. destruct (decide (key = (k, symbol))) as [->|Hne].
  - apply Hgoto. by apply Hb1.
  - rewrite Hframe by done. by apply Hb1.
Qed.

Lemma add_reductions_keep_gotos_witness :
  ∃ agtable',
    BuildParser.add_reductions examples.accept_grammar examples.accept_itemsets
      examples.accept_finalset_rules [∅; {[examples.eof]}; ∅; ∅]
      examples.accept_agtable = Ok agtable'
    ∧ (∀ key t, Dict.get examples.accept_agtable key = Some (Goto t) →
                Dict.get agtable' key = Some (Goto t))
    ∧ (NoDup (Dict.keys examples.accept_agtable) → NoDup (Dict.keys agtable')).
Proof.
  eexists. split; [vm_compute; reflexivity|].
  apply (add_reductions_keep_gotos examples.accept_grammar
           examples.accept_itemsets examples.accept_finalset_rules
           [∅; {[examples.eof]}; ∅; ∅] examples.accept_agtable).
  vm_compute. reflexivity.
Defined.

(** ** The grammar: the starting rule *)

Lemma find_rule_indices_spec {X} `{EqDecision X} (g : Grammar.t X)
    (symbols : list X) k :
  k ∈ Grammar.find_rule_indices g symbols
  ↔ ∃ r, Grammar.rules g !! k = Some r ∧ Rule.lhs r ∈ symbols.
Proof.
  unfold Grammar.find_rule_indices. rewrite list_elem_of_fmap. split.
  - intros [[k' r] [-> [Hin Himap]%list_elem_of_filter]].
    apply elem_of_lookup_imap in Himap as (i & y & [= -> ->] & Hy).
    by exists y.
  - intros (r & Hr & Hin). exists (k, r). split; [done|].
    apply list_elem_of_filter. split; [done|].
    by apply (elem_of_lookup_imap_2 (λ k r, (k, r))).
Qed.

Lemma find_rule_indices_NoDup {X} `{EqDecision X} (g : Grammar.t X)
    (symbols : list X) :
  NoDup (Grammar.find_rule_indices g symbols).
Proof.
  unfold Grammar.find_rule_indices.
  assert ((λ kr : nat * Rule.t X, kr.1)
            <$> imap (λ k r, (k, r)) (Grammar.rules g)
          = seq 0 (length (Grammar.rules g))) as Hseq.
  { rewrite fmap_imap.
    rewrite (imap_ext _ (λ k _, k)) by done.
    by rewrite (imap_seq_0 (Grammar.rules g) (λ k, k)), list_fmap_id. }
  eapply (sublist_NoDup _ (seq 0 (length (Grammar.rules g))));
    [apply NoDup_seq|rewrite <- Hseq; apply fmap_sublist, sublist_filter].
Qed.

(** X26. [find_starting_rule_index] returns the index of the one rule
    that produces the start symbol, provided that rule has exactly one
    symbol on its right; it raises "No starting rule found" when no rule
    produces the start symbol, "Multiple starting rules found" when two
    do, and "Starting rule must have one token" when exactly one does
    and its right-hand side has another length. It raises nothing
    else. *)
Theorem find_starting_rule_index_spec {X} `{EqDecision X} (g : Grammar.t X) :
  match Grammar.find_starting_rule_index g with
  | Ok k =>
      ∃ r, Grammar.rules g !! k = Some r
           ∧ Rule.lhs r = Grammar.start_symbol g
           ∧ length (Rule.rhs r) = 1%nat
           ∧ ∀ k' r', Grammar.rules g !! k' = Some r' →
                      Rule.lhs r' = Grammar.start_symbol g → k' = k
  | Raise e =>
      (e = Exception "No starting rule found"
       ∧ ∀ k r, Grammar.rules g !! k = Some r →
                Rule.lhs r ≠ Grammar.start_symbol g)
      ∨ (e = Exception "Multiple starting rules found"
         ∧ ∃ k1 k2 r1 r2, k1 ≠ k2
             ∧ Grammar.rules g !! k1 = Some r1
             ∧ Grammar.rules g !! k2 = Some r2
             ∧ Rule.lhs r1 = Grammar.start_symbol g
             ∧ Rule.lhs r2 = Grammar.start_symbol g)
      ∨ (e = Exception "Starting rule must have one token"
         ∧ ∃ k r, Grammar.rules g !! k = Some r
                  ∧ Rule.lhs r = Grammar.start_symbol g
                  ∧ length (Rule.rhs r) ≠ 1%nat
                  ∧ ∀ k' r', Grammar.rules g !! k' = Some r' →
                             Rule.lhs r' = Grammar.start_symbol g → k' = k)
  end.
Proof.
  unfold Grammar.find_starting_rule_index.
  pose proof (find_rule_indices_spec g [Grammar.start_symbol g]) as Hspec.
  pose proof (find_rule_indices_NoDup g [Grammar.start_symbol g]) as Hnd.
  destruct (Grammar.find_rule_indices g [Grammar.start_symbol g])
    as [|k [|k2 rest]].
  - left. split; [done|]. intros k r Hr Hlhs.
    assert (k ∈ @nil nat) as Hin; [|by apply elem_of_nil in Hin].
    apply Hspec. exists r. split; [done|]. rewrite Hlhs. by left.
  - destruct (proj1 (Hspec k) ltac:(by left)) as (r & Hr & Hlhs).
    apply list_elem_of_singleton in Hlhs. rewrite Hr.
    assert (∀ k' r', Grammar.rules g !! k' = Some r' →
                     Rule.lhs r' = Grammar.start_symbol g → k' = k) as Huniq.
    { intros k' r' Hr' Hlhs'. apply list_elem_of_singleton, Hspec.
      exists r'. split; [done|]. rewrite Hlhs'. by left. }
    case_bool_decide as Hlen.
    + right. right. split; [done|]. by exists k, r.
    + exists r. by repeat split.
  - right. left. split; [done|].
    destruct (proj1 (Hspec k) ltac:(by left)) as (r1 & Hr1 & Hl1).
    destruct (proj1 (Hspec k2) ltac:(by right; left)) as (r2 & Hr2 & Hl2).
    apply list_elem_of_singleton in Hl1, Hl2.
    exists k, k2, r1, r2. repeat split; try done.
    apply NoDup_cons in Hnd as [Hnotin _]. intros ->. apply Hnotin. by left.
Qed.

(** ** Item sets: the closure *)

Lemma is_item_next r : is_item r → ∃ n, Rule.next_symbol r = Ok n.
Proof.
  intros (p & Hp & Hle). unfold Rule.next_symbol. rewrite Hp.
  case_bool_decide; [by eexists|].
  destruct (Rule.rhs r !! p) eqn:E; [by eexists|].
  apply lookup_ge_None in E. lia.
Qed.

Lemma nexts_fold (l : list (Rule.t symbol)) (acc : gset symbol) :
  Forall is_item l →
  ∃ ns,
    foldM (λ acc r,
             n ← Rule.next_symbol r;
             Ok (match n with
                 | Some x => if Grammar.is_terminal x then acc else acc ∪ {[x]}
                 | None => acc
                 end)) l acc = Ok ns
    ∧ ∀ N, N ∈ ns ↔ N ∈ acc ∨ ∃ r, r ∈ l ∧ Rule.next_symbol r = Ok (Some N)
                                     ∧ Grammar.is_terminal N = false.
Proof.
  revert acc. induction l as [|r l IH]; intros acc Hall.
  - exists acc. split; [done|]. intros N. split; [by left|].
    by intros [?|(r & ?%elem_of_nil & _)].
  - apply Forall_cons in Hall as [Hr Hl]. rewrite foldM_cons.
    destruct (is_item_next r Hr) as [n Hn]. rewrite Hn. simpl.
    destruct (IH (match n with
                  | Some x => if Grammar.is_terminal x then acc else acc ∪ {[x]}
                  | None => acc
                  end) Hl) as (ns & -> & Hns).
    exists ns. split; [done|]. intros N. rewrite Hns. split.
    + intros [Hacc|(r' & Hr' & Hnext & Hterm)].
      * destruct n as [x|]; [|by left].
        destruct (Grammar.is_terminal x) eqn:Hx; [by left|].
        apply elem_of_union in Hacc as [?|HN%elem_of_singleton]; [by left|].
        subst N. right. exists r. split; [by left|done].
      * right. exists r'. split; [by right|done].
    + intros [Hacc|(r' & [->|Hr']%elem_of_cons & Hnext & Hterm)].
      * left. destruct n as [x|]; [|done].
        destruct (Grammar.is_terminal x); [done|]. apply elem_of_union. by left.
      * left. rewrite Hn in Hnext. injection Hnext as ->. rewrite Hterm.
        apply elem_of_union. right. by apply elem_of_singleton.
      * right. by exists r'.
Qed.

Lemma nexts_spec (items : gset (Rule.t symbol)) :
  (∀ r, r ∈ items → is_item r) →
  ∃ ns, ItemSet.nexts items = Ok ns
        ∧ ∀ N, N ∈ ns ↔ ∃ r, r ∈ items ∧ Rule.next_symbol r = Ok (Some N)
                              ∧ Grammar.is_terminal N = false.
Proof.
  intros Hwf. unfold ItemSet.nexts.
  destruct (nexts_fold (elements items) ∅) as (ns & Hns & Hspec).
  { apply Forall_forall. intros r Hr. by apply Hwf, elem_of_elements. }
  exists ns. split; [done|]. intros N. rewrite Hspec. split.
  - intros [?%not_elem_of_empty|(r & Hr%elem_of_elements & ?)]; [done|].
    by exists r.
  - intros (r & Hr & ?). right. exists r. by rewrite elem_of_elements.
Qed.

(** The items one turn of the closure adds. *)
Lemma added_spec (grammar : Grammar.t symbol) (ns : gset symbol) x :
  x ∈ omap (λ k, (λ r, Rule.with_pointer r (Some 0%nat))
                   <$> (Grammar.rules grammar !! k))
           (Grammar.find_rule_indices grammar (elements ns))
  ↔ ∃ rule, rule ∈ Grammar.rules grammar ∧ Rule.lhs rule ∈ ns
            ∧ x = Rule.with_pointer rule (Some 0%nat).
Proof.
  rewrite list_elem_of_omap. split.
  - intros (k & Hk & Hx). apply find_rule_indices_spec in Hk as (r & Hr & Hlhs).
    rewrite Hr in Hx. injection Hx as <-. exists r.
    split; [by eapply list_elem_of_lookup_2|].
    split; [by apply elem_of_elements|done].
  - intros (rule & [k Hk]%list_elem_of_lookup & Hlhs & ->). exists k.
    split; [|by rewrite Hk].
    apply find_rule_indices_spec. exists rule.
    split; [done|by apply elem_of_elements].
Qed.

Lemma size_list_to_set_le {A} `{Countable A} (l : list A) :
  (size (list_to_set l : gset A) ≤ length l)%nat.
Proof.
  induction l as [|x l IH].
  { rewrite list_to_set_nil, size_empty. simpl. lia. }
  rewrite list_to_set_cons, size_union_alt, size_singleton. simpl.
  pose proof (subseteq_size (list_to_set l ∖ {[x]}) (list_to_set l : gset A)
                ltac:(by apply subseteq_difference_l)).
  lia.
Qed.

Lemma complete_closes (grammar : Grammar.t symbol) (fuel : nat)
    (items : gset (Rule.t symbol)) :
  let pool : gset (Rule.t symbol) :=
    list_to_set ((λ r, Rule.with_pointer r (Some 0%nat))
                   <$> Grammar.rules grammar) in
  (∀ r, r ∈ items → is_item r) →
  (size (pool ∖ items) < fuel)%nat →
  ∃ items',
    ItemSet.complete fuel grammar items = Some (Ok items')
    ∧ items ⊆ items'
    ∧ closed_itemset grammar items'
    ∧ ∀ r, r ∈ items' → r ∈ items ∨ r ∈ pool.
Proof.
  intros pool. revert items.
  induction fuel as [|fuel IH]; intros items Hwf Hfuel; [lia|].
  simpl. destruct (nexts_spec items Hwf) as (ns & -> & Hns). simpl.
  set (added := omap _ _).
  assert (∀ x, x ∈ added → x ∈ pool) as Hpool.
  { intros x (rule & Hrule & _ & ->)%added_spec.
    apply elem_of_list_to_set, list_elem_of_fmap. by exists rule. }
  case_bool_decide as Hsize.
  - assert (items ∪ list_to_set added = items) as Heq.
    { symmetry. apply set_subseteq_size_eq; [apply union_subseteq_l|lia]. }
    exists (items ∪ list_to_set added). split; [done|].
    split; [apply union_subseteq_l|]. split.
    + rewrite Heq. intros r N rule Hr Hnext Hterm Hrule Hlhs.
      rewrite <- Heq. apply elem_of_union. right.
      apply elem_of_list_to_set, added_spec. exists rule.
      split; [done|]. split; [|done]. rewrite Hlhs. apply Hns. by exists r.
    + intros r [?|Hr%elem_of_list_to_set]%elem_of_union; [by left|].
      right. by apply Hpool.
  - destruct (IH (items ∪ list_to_set added)) as (items' & Hrun & Hsub & Hcl & Hfrom).
    + intros r [?|Hr%elem_of_list_to_set]%elem_of_union; [by apply Hwf|].
      apply added_spec in Hr as (rule & _ & _ & ->).
      exists 0%nat. split; [done|]. simpl. lia.
    + assert (pool ∖ items
              = (pool ∖ (items ∪ list_to_set added))
                ∪ (list_to_set added ∖ items)) as Hsplit.
      { apply set_eq. intros x. rewrite elem_of_union, !elem_of_difference,
          elem_of_union, elem_of_list_to_set.
        split.
        - intros [Hp Hni]. destruct (decide (x ∈ added)); [right|left]; tauto.
        - intros [[Hp Hni]|[Ha Hni]]; [tauto|]. split; [by apply Hpool|done]. }
      rewrite Hsplit, size_union in Hfuel.
      2:{ intros x. rewrite !elem_of_difference, elem_of_union. tauto. }
      rewrite size_union_alt in Hsize. lia.
    + exists items'. split; [done|]. split; [|split; [done|]].
      * etransitivity; [apply union_subseteq_l|done].
      * intros r Hr. destruct (Hfrom r Hr) as [Hin|?]; [|by right].
        apply elem_of_union in Hin as [?|Hin%elem_of_list_to_set]; [by left|].
        right. by apply Hpool.
Qed.

(** X27. The closure of an item set ends within [len(rules) + 1] turns
    of its loop and raises nothing; the result contains the items given,
    is closed under "the pointer is before a nonterminal: add every rule
    producing it, pointer at 0", and holds nothing but the given items
    and rules of the grammar with the pointer at 0. *)
Theorem itemset_closure (grammar : Grammar.t symbol)
    (items : gset (Rule.t symbol))
    (Hitems : ∀ r, r ∈ items → is_item r) :
  ∃ items',
    ItemSet.__init__ (S (length (Grammar.rules grammar))) grammar items
    = Some (Ok items')
    ∧ items ⊆ items'
    ∧ closed_itemset grammar items'
    ∧ ∀ r, r ∈ items' →
           r ∈ items
           ∨ ∃ rule, rule ∈ Grammar.rules grammar
                     ∧ r = Rule.with_pointer rule (Some 0%nat).
Proof.
  destruct (complete_closes grammar (S (length (Grammar.rules grammar))) items
              Hitems) as (items' & Hrun & Hsub & Hcl & Hfrom).
  { eapply Nat.le_lt_trans; [apply subseteq_size, subseteq_difference_l; done|].
    eapply Nat.le_lt_trans; [apply size_list_to_set_le|].
    rewrite length_fmap. lia. }
  exists items'. split; [done|]. split; [done|]. split; [done|].
  intros r Hr. destruct (Hfrom r Hr) as [?|Hp]; [by left|]. right.
  apply elem_of_list_to_set, list_elem_of_fmap in Hp as (rule & -> & Hrule).
  by exists rule.
Qed.

Lemma itemset_closure_witness :
  ∃ items',
    ItemSet.__init__ (S (length (Grammar.rules examples.accept_grammar)))
      examples.accept_grammar
      {[ Rule.with_pointer examples.rule_S (Some 0%nat) ]}
    = Some (Ok items')
    ∧ {[ Rule.with_pointer examples.rule_S (Some 0%nat) ]} ⊆ items'
    ∧ closed_itemset examples.accept_grammar items'
    ∧ ∀ r, r ∈ items' →
           r ∈ ({[ Rule.with_pointer examples.rule_S (Some 0%nat) ]}
                  : gset (Rule.t symbol))
           ∨ ∃ rule, rule ∈ Grammar.rules examples.accept_grammar
                     ∧ r = Rule.with_pointer rule (Some 0%nat).
Proof.
  apply (itemset_closure examples.accept_grammar
           {[ Rule.with_pointer examples.rule_S (Some 0%nat) ]}).
  intros r Hr. apply elem_of_singleton in Hr as ->.
  exists 0%nat. split; [reflexivity|]. simpl. lia.
Defined.

(** ** FIRST and FOLLOW: the loops end *)

Section fixpoints.
Local Abbreviation setmap := (gmap xsymbol (gset symbol)).
Implicit Types (fs : setmap) (U : gset symbol) (K : list xsymbol).

Lemma weight_le K fs fs' : grows fs fs' → (weight K fs ≤ weight K fs')%nat.
Proof.
  intros Hg. unfold weight. induction K as [|k K IH]; csimpl; [done|].
  pose proof (subseteq_size _ _ (Hg k)). lia.
Qed.

Lemma weight_lt K fs fs' k :
  grows fs fs' → k ∈ K → (size (fs !!! k) < size (fs' !!! k))%nat →
  (weight K fs < weight K fs')%nat.
Proof.
  intros Hg Hk Hlt. unfold weight. induction K as [|k0 K IH]; csimpl.
  { by apply elem_of_nil in Hk. }
  pose proof (subseteq_size _ _ (Hg k0)).
  pose proof (weight_le K fs fs' Hg) as Hle. unfold weight in Hle.
  apply elem_of_cons in Hk as [<-|Hk]; [lia|].
  specialize (IH Hk). lia.
Qed.

Lemma weight_bounded K U fs :
  bounded U fs → (weight K fs ≤ length K * size U)%nat.
Proof.
  intros Hb. unfold weight. induction K as [|k K IH]; csimpl; [done|].
  pose proof (subseteq_size _ _ (Hb k)). lia.
Qed.

Lemma update_bounded U fs k s :
  bounded U fs → s ⊆ U → bounded U (Grammar.update fs k s).
Proof.
  intros Hb Hs k'. rewrite update_lookup.
  destruct (decide (k = k')) as [->|]; [|apply Hb].
  apply union_least; [apply Hb|done].
Qed.

(** *** The FOLLOW loop *)

Lemma follow_step_bounded U acc rule :
  bounded U acc.1 → bounded U (Grammar.follow_step acc rule).1.
Proof.
  destruct acc as [fs u]. unfold Grammar.follow_step. simpl. intros Hb.
  destruct (last _) as [d|]; [|done].
  destruct (Grammar.is_terminal _); [done|]. by apply update_bounded.
Qed.

Lemma follow_fold_bounded U rules acc :
  bounded U acc.1 → bounded U (foldl Grammar.follow_step acc rules).1.
Proof.
  revert acc. induction rules as [|rule rules IH]; intros acc Hb; [done|].
  cbn [foldl]. by apply IH, follow_step_bounded.
Qed.

Lemma follow_fold_weight K rules fs u fs' :
  (∀ rule d, rule ∈ rules → last (Rule.rhs rule) = Some d → d ∈ K) →
  foldl Grammar.follow_step (fs, u) rules = (fs', true) →
  u = true ∨ (weight K fs < weight K fs')%nat.
Proof.
  revert fs u. induction rules as [|rule rules IH]; intros fs u HK Hfold.
  { injection Hfold as _ ->. by left. }
  cbn [foldl] in Hfold.
  destruct (Grammar.follow_step (fs, u) rule) as [fs1 u1] eqn:Hstep.
  pose proof (follow_step_grows (fs, u) rule) as Hg1. rewrite Hstep in Hg1.
  pose proof (follow_fold_grows rules (fs1, u1)) as Hg2. rewrite Hfold in Hg2.
  simpl in Hg1, Hg2.
  destruct (IH fs1 u1) as [->|Hlt]; [by intros; eapply HK; [right|]|done| |].
  - unfold Grammar.follow_step in Hstep.
    destruct (last (Rule.rhs rule)) as [d|] eqn:Hlast;
      [|injection Hstep as _ <-; by left].
    destruct (Grammar.is_terminal d.1.2); [injection Hstep as _ <-; by left|].
    injection Hstep as <- Hu. destruct u; [by left|right]. simpl in Hu.
    apply bool_decide_eq_true in Hu.
    eapply Nat.lt_le_trans; [|by apply weight_le].
    eapply (weight_lt K _ _ d); [apply update_grows| |done].
    eapply HK; [by left|done].
  - right. eapply Nat.le_lt_trans; [by apply weight_le|done].
Qed.

Lemma follow_loop_ends K U rules fuel fs :
  (∀ rule d, rule ∈ rules → last (Rule.rhs rule) = Some d → d ∈ K) →
  bounded U fs →
  (length K * size U - weight K fs < fuel)%nat →
  ∃ fs', Grammar.follow_loop fuel fs rules = Some fs'.
Proof.
  intros HK. revert fs. induction fuel as [|fuel IH]; intros fs Hb Hfuel; [lia|].
  simpl. unfold Grammar.follow_pass.
  destruct (foldl Grammar.follow_step (fs, false) rules) as [fs1 u] eqn:Hfold.
  destruct u; [|by eexists].
  pose proof (follow_fold_bounded U rules (fs, false) Hb) as Hb1.
  rewrite Hfold in Hb1. simpl in Hb1.
  destruct (follow_fold_weight K rules fs false fs1 HK Hfold) as [?|Hlt];
    [done|].
  pose proof (weight_bounded K U fs1 Hb1).
  apply IH; [done|lia].
Qed.

(** *** The FIRST loop *)

Lemma first_scan_grows fs lhs rhs : grows fs (Grammar.first_scan fs lhs rhs).
Proof.
  revert fs. induction rhs as [|s rhs IH]; intros fs; simpl.
  - apply update_grows.
  - case_bool_decide; [apply update_grows|].
    eapply grows_trans; [apply update_grows|apply IH].
Qed.

Lemma first_scan_bounded U fs lhs rhs :
  EMPTY ∈ U → bounded U fs → bounded U (Grammar.first_scan fs lhs rhs).
Proof.
  intros HE. revert fs. induction rhs as [|s rhs IH]; intros fs Hb; simpl.
  - apply update_bounded; [done|]. by apply singleton_subseteq_l.
  - case_bool_decide; [by apply update_bounded|].
    apply IH, update_bounded; [done|].
    etransitivity; [apply subseteq_difference_l; reflexivity|apply Hb].
Qed.

Lemma first_step_grows acc rule : grows acc.1 (Grammar.first_step acc rule).1.
Proof. destruct acc. apply first_scan_grows. Qed.

Lemma first_fold_grows rules acc :
  grows acc.1 (foldl Grammar.first_step acc rules).1.
Proof.
  revert acc. induction rules as [|rule rules IH]; intros acc; cbn [foldl].
  - apply grows_refl.
  - eapply grows_trans; [apply first_step_grows|apply IH].
Qed.

Lemma first_fold_bounded U rules acc :
  EMPTY ∈ U → bounded U acc.1 →
  bounded U (foldl Grammar.first_step acc rules).1.
Proof.
  intros HE. revert acc.
  induction rules as [|rule rules IH]; intros acc Hb; [done|].
  cbn [foldl]. apply IH. destruct acc. by apply first_scan_bounded.
Qed.

Lemma first_fold_weight K rules fs u fs' :
  (∀ rule, rule ∈ rules → Rule.lhs rule ∈ K) →
  foldl Grammar.first_step (fs, u) rules = (fs', true) →
  u = true ∨ (weight K fs < weight K fs')%nat.
Proof.
  revert fs u. induction rules as [|rule rules IH]; intros fs u HK Hfold.
  { injection Hfold as _ ->. by left. }
  cbn [foldl] in Hfold.
  destruct (Grammar.first_step (fs, u) rule) as [fs1 u1] eqn:Hstep.
  pose proof (first_step_grows (fs, u) rule) as Hg1. rewrite Hstep in Hg1.
  pose proof (first_fold_grows rules (fs1, u1)) as Hg2. rewrite Hfold in Hg2.
  simpl in Hg1, Hg2.
  destruct (IH fs1 u1) as [->|Hlt]; [by intros; apply HK; right|done| |].
  - unfold Grammar.first_step in Hstep. injection Hstep as <- Hu.
    destruct u; [by left|right]. simpl in Hu.
    apply bool_decide_eq_true in Hu.
    eapply Nat.lt_le_trans; [|by apply weight_le].
    eapply (weight_lt K _ _ (Rule.lhs rule)); [apply first_scan_grows| |done].
    apply HK. by left.
  - right. eapply Nat.le_lt_trans; [by apply weight_le|done].
Qed.

Lemma first_loop_ends K U rules fuel fs :
  EMPTY ∈ U →
  (∀ rule, rule ∈ rules → Rule.lhs rule ∈ K) →
  bounded U fs →
  (length K * size U - weight K fs < fuel)%nat →
  ∃ fs', Grammar.first_loop fuel fs rules = Some fs' ∧ bounded U fs'.
Proof.
  intros HE HK. revert fs.
  induction fuel as [|fuel IH]; intros fs Hb Hfuel; [lia|].
  simpl. unfold Grammar.first_pass.
  destruct (foldl Grammar.first_step (fs, false) rules) as [fs1 u] eqn:Hfold.
  pose proof (first_fold_bounded U rules (fs, false) HE Hb) as Hb1.
  rewrite Hfold in Hb1. simpl in Hb1.
  destruct u; [|by eexists].
  destruct (first_fold_weight K rules fs false fs1 HK Hfold) as [?|Hlt];
    [done|].
  pose proof (weight_bounded K U fs1 Hb1).
  apply IH; [done|lia].
Qed.
End fixpoints.

(** ** FIRST and FOLLOW: what the fixed point holds *)

Section first_follow.
Local Abbreviation setmap := (gmap xsymbol (gset symbol)).
Implicit Types (fs : setmap) (U : gset symbol) (g : Grammar.t xsymbol).

Lemma symbols_fold (rules : list (Rule.t xsymbol)) (ts : gset xsymbol) x :
  x ∈ foldl (λ ts rule, ts ∪ {[Rule.lhs rule]} ∪ list_to_set (Rule.rhs rule))
            ts rules
  ↔ x ∈ ts ∨ ∃ rule, rule ∈ rules ∧ (x = Rule.lhs rule ∨ x ∈ Rule.rhs rule).
Proof.
  revert ts. induction rules as [|r rules IH]; intros ts; simpl.
  { split; [by left|]. by intros [?|(? & ?%elem_of_nil & _)]. }
  rewrite IH, !elem_of_union, elem_of_singleton, elem_of_list_to_set.
  split.
  - intros [[[?| ->]|?]|(rule & ? & ?)]; [by left|right; exists r..|].
    + split; [by left|by left].
    + split; [by left|by right].
    + right. exists rule. split; [by right|done].
  - intros [?|(rule & [->|?]%elem_of_cons & Hx)].
    + by left; left; left.
    + destruct Hx as [->|?]; [by left; left; right|by left; right].
    + right. by exists rule.
Qed.

Lemma lhs_in_symbols g rule :
  rule ∈ Grammar.rules g → Rule.lhs rule ∈ Grammar.symbols g.
Proof.
  intros Hin. apply symbols_fold. right. exists rule. by split; [|left].
Qed.

Lemma rhs_in_symbols g rule x :
  rule ∈ Grammar.rules g → x ∈ Rule.rhs rule → x ∈ Grammar.symbols g.
Proof.
  intros Hin Hx. apply symbols_fold. right. exists rule. by split; [|right].
Qed.

Lemma prepopulate_bounded U init g :
  (∀ k, k ∈ Grammar.symbols g → init k ⊆ U) →
  bounded U (Grammar.prepopulate init g).
Proof.
  intros Hinit. unfold Grammar.prepopulate.
  assert (∀ k, k ∈ elements (Grammar.symbols g) → init k ⊆ U) as Hl.
  { intros k Hk. by apply Hinit, elem_of_elements. }
  revert Hl. generalize (elements (Grammar.symbols g)) as l. intros l Hl.
  assert (bounded U (∅ : setmap)) as Hb.
  { intros k. rewrite lookup_total_empty. apply empty_subseteq. }
  revert Hb. generalize (∅ : setmap) as m. revert Hl.
  induction l as [|x l IH]; intros Hl m Hb; [done|]. simpl.
  apply IH; [by intros; apply Hl; right|].
  intros k. destruct (decide (x = k)) as [->|Hne].
  - rewrite lookup_total_insert_eq. apply Hl. by left.
  - rewrite lookup_total_insert_ne by done. apply Hb.
Qed.

(** *** The rules of [build_firstsets] applied once *)

Lemma first_base_grows acc rule : grows acc.1 (Grammar.first_base acc rule).1.
Proof.
  destruct acc as [fs nz]. unfold Grammar.first_base.
  destruct (Rule.rhs rule) as [|x ?]; [apply update_grows|].
  destruct (Grammar.is_terminal_x x); [apply update_grows|apply grows_refl].
Qed.

Lemma first_base_fold_grows rules acc :
  grows acc.1 (foldl Grammar.first_base acc rules).1.
Proof.
  revert acc. induction rules as [|rule rules IH]; intros acc; cbn [foldl].
  - apply grows_refl.
  - eapply grows_trans; [apply first_base_grows|apply IH].
Qed.

Lemma first_base_fold_bounded U rules acc :
  EMPTY ∈ U → bounded U acc.1 →
  bounded U (foldl Grammar.first_base acc rules).1.
Proof.
  intros HE. revert acc.
  induction rules as [|rule rules IH]; intros acc Hb; [done|].
  cbn [foldl]. apply IH. destruct acc as [fs nz]. unfold Grammar.first_base.
  simpl in Hb.
  destruct (Rule.rhs rule) as [|x ?].
  { apply update_bounded; [done|]. by apply singleton_subseteq_l. }
  destruct (Grammar.is_terminal_x x); [|done]. by apply update_bounded.
Qed.

(** The rules kept for rule 3 are rules of the grammar, and every rule
    that begins with a nonterminal is kept. *)
Lemma first_base_fold_nzrules rules acc rule :
  rule ∈ (foldl Grammar.first_base acc rules).2
  ↔ rule ∈ acc.2
    ∨ rule ∈ rules
      ∧ ∃ x rest, Rule.rhs rule = x :: rest ∧ Grammar.is_terminal_x x = false.
Proof.
  revert acc. induction rules as [|r rules IH]; intros acc; cbn [foldl].
  { split; [by left|]. by intros [?|[?%elem_of_nil _]]. }
  rewrite IH. destruct acc as [fs nz]. unfold Grammar.first_base. simpl.
  destruct (Rule.rhs r) as [|x rest] eqn:Hrhs; simpl.
  - split.
    + intros [?|[? ?]]; [by left|right]. split; [by right|done].
    + intros [?|[[->|?]%elem_of_cons (x & rest & Hx & ?)]];
        [by left|congruence|right; eauto].
  - destruct (Grammar.is_terminal_x x) eqn:Hterm; simpl.
    + split.
      * intros [?|[? ?]]; [by left|right]. split; [by right|done].
      * intros [?|[[->|?]%elem_of_cons (x' & rest' & Hx & ?)]];
          [by left|congruence|right; eauto].
    + rewrite elem_of_app, list_elem_of_singleton. split.
      * intros [[?| ->]|[? ?]]; [by left|right..].
        -- split; [by left|eauto].
        -- split; [by right|done].
      * intros [?|[[->|?]%elem_of_cons ?]];
          [by left; left|by left; right|right; eauto].
Qed.

(** Rules 1 and 2 hold after the first pass over the rules. *)
Lemma first_base_fold_spec rules acc rule :
  rule ∈ rules →
  match Rule.rhs rule with
  | [] => EMPTY ∈ (foldl Grammar.first_base acc rules).1 !!! Rule.lhs rule
  | x :: _ =>
      Grammar.is_terminal_x x = true →
      acc.1 !!! x ⊆ (foldl Grammar.first_base acc rules).1 !!! Rule.lhs rule
  end.
Proof.
  revert acc. induction rules as [|r rules IH]; intros acc Hin.
  { by apply elem_of_nil in Hin. }
  cbn [foldl]. apply elem_of_cons in Hin as [<-|Hin].
  - pose proof (first_base_fold_grows rules (Grammar.first_base acc rule)
                  (Rule.lhs rule)) as Hg.
    destruct acc as [fs nz]. unfold Grammar.first_base in Hg |- *.
    destruct (Rule.rhs rule) as [|x rest].
    + apply Hg. simpl. rewrite update_lookup, decide_True by done.
      apply elem_of_union_r. by apply elem_of_singleton.
    + intros Hterm. rewrite Hterm in Hg |- *. etransitivity; [|apply Hg].
      simpl. rewrite update_lookup, decide_True by done.
      apply union_subseteq_r.
  - specialize (IH (Grammar.first_base acc r) Hin).
    destruct (Rule.rhs rule) as [|x rest]; [done|].
    intros Hterm. etransitivity; [|by apply IH].
    apply first_base_grows.
Qed.

(** *** Rule 3 at the fixed point *)

Lemma first_scan_other fs lhs rhs k :
  k ≠ lhs → Grammar.first_scan fs lhs rhs !!! k = fs !!! k.
Proof.
  intros Hne. revert fs. induction rhs as [|s rhs IH]; intros fs; simpl.
  - by rewrite update_lookup, decide_False.
  - case_bool_decide; [by rewrite update_lookup, decide_False|].
    by rewrite IH, update_lookup, decide_False.
Qed.

Lemma first_scan_fixed fs0 lhs rhs fs :
  (∀ k, fs !!! k = fs0 !!! k) →
  Grammar.first_scan fs lhs rhs !!! lhs = fs0 !!! lhs →
  first_rule_holds fs0 lhs rhs.
Proof.
  revert fs. induction rhs as [|s rhs IH]; intros fs Heq Hfix; simpl in *.
  - rewrite <- Hfix, update_lookup, decide_True by done.
    apply elem_of_union_r. by apply elem_of_singleton.
  - rewrite (Heq s) in Hfix. case_bool_decide as HE.
    + rewrite <- Hfix, update_lookup, decide_True by done.
      apply union_subseteq_r.
    + set (fs1 := Grammar.update fs lhs (fs0 !!! s ∖ {[EMPTY]})) in *.
      assert (fs1 !!! lhs ⊆ fs0 !!! lhs) as Hsub.
      { rewrite <- Hfix. apply first_scan_grows. }
      unfold fs1 in Hsub.
      rewrite update_lookup, decide_True, Heq in Hsub by done.
      assert (fs0 !!! s ∖ {[EMPTY]} ⊆ fs0 !!! lhs) as Hs.
      { etransitivity; [apply union_subseteq_r|apply Hsub]. }
      split; [done|]. apply (IH fs1); [|done].
      intros k. unfold fs1. rewrite update_lookup, Heq.
      destruct (decide (lhs = k)) as [<-|]; [|done].
      rewrite (comm_L (∪)). by apply subseteq_union_1_L.
Qed.

Lemma first_rule_holds_ext fs fs' lhs rhs :
  (∀ k, fs !!! k = fs' !!! k) →
  first_rule_holds fs lhs rhs → first_rule_holds fs' lhs rhs.
Proof.
  intros Heq. induction rhs as [|s rhs IH]; simpl; rewrite !Heq; [done|].
  case_bool_decide; [done|]. intros [? ?]. split; [done|by apply IH].
Qed.

Lemma first_step_updated fs rule : (Grammar.first_step (fs, true) rule).2 = true.
Proof. done. Qed.

Lemma first_fold_updated rules fs :
  (foldl Grammar.first_step (fs, true) rules).2 = true.
Proof.
  revert fs. induction rules as [|rule rules IH]; intros fs; [done|].
  cbn [foldl]. unfold Grammar.first_step at 2. simpl. apply IH.
Qed.

(** A turn that reports no update has changed no set, and then rule 3
    holds of every kept rule. *)
Lemma first_fold_stable rules fs fs' :
  foldl Grammar.first_step (fs, false) rules = (fs', false) →
  (∀ k, fs' !!! k = fs !!! k)
  ∧ ∀ rule, rule ∈ rules →
      first_rule_holds fs (Rule.lhs rule) (Rule.rhs rule).
Proof.
  revert fs. induction rules as [|rule rules IH]; intros fs Hfold.
  { simpl in Hfold. injection Hfold as <-. split; [done|].
    by intros ? ?%elem_of_nil. }
  cbn [foldl] in Hfold.
  destruct (Grammar.first_step (fs, false) rule) as [fs1 u1] eqn:Hstep.
  destruct u1.
  { pose proof (first_fold_updated rules fs1) as Hu.
    rewrite Hfold in Hu. done. }
  destruct (IH _ Hfold) as [Heq Hrest].
  unfold Grammar.first_step in Hstep. injection Hstep as <- Hsize.
  simpl in Hsize. apply bool_decide_eq_false in Hsize.
  set (fs1 := Grammar.first_scan fs (Rule.lhs rule) (Rule.rhs rule)) in *.
  assert (fs1 !!! Rule.lhs rule = fs !!! Rule.lhs rule) as Hlhs.
  { symmetry. apply set_subseteq_size_eq; [apply first_scan_grows|].
    fold fs1. lia. }
  assert (∀ k, fs1 !!! k = fs !!! k) as Heq1.
  { intros k. destruct (decide (k = Rule.lhs rule)) as [->|Hne]; [done|].
    by apply first_scan_other. }
  split.
  - intros k. by rewrite Heq, Heq1.
  - intros rule' [->|Hin]%elem_of_cons.
    + by apply (first_scan_fixed fs _ _ fs).
    + apply (first_rule_holds_ext fs1); [done|]. by apply Hrest.
Qed.

Lemma first_loop_grows fuel fs rules fs' :
  Grammar.first_loop fuel fs rules = Some fs' → grows fs fs'.
Proof.
  revert fs. induction fuel as [|fuel IH]; intros fs; [done|]. simpl.
  unfold Grammar.first_pass.
  pose proof (first_fold_grows rules (fs, false)) as Hg.
  destruct (foldl Grammar.first_step (fs, false) rules) as [fs1 u].
  destruct u.
  - intros H. eapply grows_trans; [apply Hg|by apply IH].
  - by intros [= <-].
Qed.

Lemma first_loop_fixed fuel fs rules fs' :
  Grammar.first_loop fuel fs rules = Some fs' →
  ∀ rule, rule ∈ rules →
    first_rule_holds fs' (Rule.lhs rule) (Rule.rhs rule).
Proof.
  revert fs. induction fuel as [|fuel IH]; intros fs; [done|]. simpl.
  unfold Grammar.first_pass.
  destruct (foldl Grammar.first_step (fs, false) rules) as [fs1 u] eqn:Hfold.
  destruct u; [apply IH|].
  intros [= <-] rule Hin.
  destruct (first_fold_stable _ _ _ Hfold) as [Heq Hrules].
  apply (first_rule_holds_ext fs); [done|]. by apply Hrules.
Qed.

End first_follow.

(** ** FIRST and FOLLOW: the builders *)

Section builders.
Local Abbreviation setmap := (gmap xsymbol (gset symbol)).
Implicit Types (fs : setmap) (U : gset symbol) (g : Grammar.t xsymbol).

Lemma size_union_le {A} `{Countable A} (X Y : gset A) :
  (size (X ∪ Y) ≤ size X + size Y)%nat.
Proof.
  rewrite size_union_alt.
  pose proof (subseteq_size (Y ∖ X) Y ltac:(by apply subseteq_difference_l)).
  lia.
Qed.

Lemma bare_symbols_size g :
  (size (bare_symbols g) ≤ S (size (Grammar.symbols g)))%nat.
Proof.
  unfold bare_symbols.
  etransitivity; [apply size_union_le|]. rewrite size_singleton.
  pose proof (size_list_to_set_le
                ((λ s : xsymbol, s.1.2) <$> elements (Grammar.symbols g))) as Hle.
  rewrite length_fmap in Hle.
  change (size (Grammar.symbols g))
    with (length (elements (Grammar.symbols g))). lia.
Qed.

Lemma bare_symbols_spec g x :
  x ∈ Grammar.symbols g → x.1.2 ∈ bare_symbols g.
Proof.
  intros Hx. apply elem_of_union_r, elem_of_list_to_set, list_elem_of_fmap.
  exists x. split; [done|]. by apply elem_of_elements.
Qed.

Lemma first_prepopulate_bounded g :
  bounded (bare_symbols g)
    (Grammar.prepopulate
       (λ sym, if Grammar.is_terminal_x sym then {[sym.1.2]} else ∅) g).
Proof.
  apply prepopulate_bounded. intros k Hk.
  destruct (Grammar.is_terminal_x k); [|apply empty_subseteq].
  by apply singleton_subseteq_l, bare_symbols_spec.
Qed.

(** [build_firstsets] returns once the fuel exceeds [n * (n + 1)] for a
    grammar of [n] symbols, and its sets hold bare symbols of the
    grammar only. *)
Lemma build_firstsets_ends g fuel :
  (size (Grammar.symbols g) * S (size (Grammar.symbols g)) < fuel)%nat →
  ∃ firstsets, Grammar.build_firstsets fuel g = Some firstsets
    ∧ bounded (bare_symbols g) firstsets.
Proof.
  intros Hfuel. unfold Grammar.build_firstsets.
  set (fs0 := Grammar.prepopulate _ g).
  pose proof (first_base_fold_bounded (bare_symbols g) (Grammar.rules g)
                (fs0, []) ltac:(by apply elem_of_union_l, elem_of_singleton)
                (first_prepopulate_bounded g)) as Hb.
  pose proof (first_base_fold_nzrules (Grammar.rules g) (fs0, [])) as Hnz.
  destruct (foldl Grammar.first_base (fs0, []) (Grammar.rules g))
    as [fs1 nzrules]. simpl in Hb, Hnz.
  apply (first_loop_ends (elements (Grammar.symbols g)) (bare_symbols g));
    [by apply elem_of_union_l, elem_of_singleton| |done|].
  - intros rule [[]%elem_of_nil|[Hin _]]%Hnz.
    by apply elem_of_elements, lhs_in_symbols.
  - pose proof (bare_symbols_size g) as Hsize.
    assert (length (elements (Grammar.symbols g)) = size (Grammar.symbols g))
      as -> by done.
    nia.
Qed.

Lemma follow_adjacent_bounded U firstsets rhs fs :
  bounded U firstsets → bounded U fs →
  bounded U (Grammar.follow_adjacent firstsets fs rhs).
Proof.
  intros Hf. revert fs. induction rhs as [|d rhs IH]; intros fs Hb; [done|].
  destruct rhs as [|b rest]; [done|].
  cbn [Grammar.follow_adjacent]. apply IH.
  destruct (Grammar.is_terminal_x d); [done|]. by apply update_bounded.
Qed.

Lemma adjacent_fold_bounded U firstsets rules fs :
  bounded U firstsets → bounded U fs →
  bounded U (foldl (λ fs rule,
                      Grammar.follow_adjacent firstsets fs (Rule.rhs rule))
                   fs rules).
Proof.
  intros Hf. revert fs. induction rules as [|rule rules IH]; intros fs Hb;
    [done|].
  simpl. by apply IH, follow_adjacent_bounded.
Qed.

Lemma bounded_mono U U' fs : U ⊆ U' → bounded U fs → bounded U' fs.
Proof. intros HU Hb k. etransitivity; [apply Hb|done]. Qed.

Lemma build_followsets_ends g fuel :
  (size (Grammar.symbols g)
   * (S (size (Grammar.symbols g)) + length (Grammar.end_symbols g))
   < fuel)%nat →
  ∃ firstsets followsets,
    Grammar.build_firstsets fuel g = Some firstsets
    ∧ Grammar.build_followsets fuel g = Some followsets.
Proof.
  intros Hfuel.
  destruct (build_firstsets_ends g fuel) as (firstsets & Hfirst & Hb1);
    [nia|].
  exists firstsets. unfold Grammar.build_followsets. rewrite Hfirst. simpl.
  set (ends := list_to_set ((λ s : xsymbol, s.1.2) <$> Grammar.end_symbols g)
               : gset symbol).
  set (U := bare_symbols g ∪ ends).
  edestruct (follow_loop_ends (elements (Grammar.symbols g)) U
               (Grammar.rules g) fuel) as [followsets Hfollow];
    [| | |by exists followsets].
  - intros rule d Hin Hlast.
    eapply elem_of_elements, rhs_in_symbols; [done|].
    by apply last_Some_elem_of.
  - apply adjacent_fold_bounded.
    + eapply bounded_mono; [|done]. apply union_subseteq_l.
    + apply prepopulate_bounded. intros k _.
      case_bool_decide; [apply union_subseteq_r|apply empty_subseteq].
  - assert (size U ≤ S (size (Grammar.symbols g))
                     + length (Grammar.end_symbols g))%nat as Hsize.
    { unfold U. etransitivity; [apply size_union_le|].
      pose proof (bare_symbols_size g).
      pose proof (size_list_to_set_le
                    ((λ s : xsymbol, s.1.2) <$> Grammar.end_symbols g)) as Hle.
      rewrite length_fmap in Hle. fold ends in Hle. lia. }
    assert (length (elements (Grammar.symbols g)) = size (Grammar.symbols g))
      as -> by done.
    nia.
Qed.

(** X28. [build_firstsets] reaches its fixed point within
    [n * (n + 1) + 1] turns of its loop for a grammar of [n] symbols
    (one turn when there is no rule at all), and the
    sets it returns obey the three rules of its comments: a terminal is
    in its own FIRST set, and in FIRST of the left-hand side of a rule
    that begins with it; [EMPTY] is in FIRST of the left-hand side of an
    empty rule; for a rule that begins with a nonterminal, FIRST of each
    symbol is passed to the left-hand side as far as the symbols before
    it can be empty. *)
Theorem build_firstsets_fixed_point g fuel
    (Hfuel : (size (Grammar.symbols g) * S (size (Grammar.symbols g))
              < fuel)%nat) :
  ∃ firstsets, Grammar.build_firstsets fuel g = Some firstsets
    ∧ (∀ x, x ∈ Grammar.symbols g → Grammar.is_terminal_x x = true →
         x.1.2 ∈ firstsets !!! x)
    ∧ (∀ rule x rest, rule ∈ Grammar.rules g →
         Rule.rhs rule = x :: rest → Grammar.is_terminal_x x = true →
         x.1.2 ∈ firstsets !!! Rule.lhs rule)
    ∧ (∀ rule, rule ∈ Grammar.rules g → Rule.rhs rule = [] →
         EMPTY ∈ firstsets !!! Rule.lhs rule)
    ∧ (∀ rule x rest, rule ∈ Grammar.rules g →
         Rule.rhs rule = x :: rest → Grammar.is_terminal_x x = false →
         first_rule_holds firstsets (Rule.lhs rule) (Rule.rhs rule)).
Proof.
  destruct (build_firstsets_ends g fuel Hfuel) as (firstsets & Hfirst & _).
  exists firstsets. split; [done|].
  unfold Grammar.build_firstsets in Hfirst.
  set (fs0 := Grammar.prepopulate _ g) in Hfirst.
  pose proof (first_base_fold_grows (Grammar.rules g) (fs0, [])) as Hg1.
  pose proof (first_base_fold_nzrules (Grammar.rules g) (fs0, [])) as Hnz.
  pose proof (first_base_fold_spec (Grammar.rules g) (fs0, [])) as Hbase.
  destruct (foldl Grammar.first_base (fs0, []) (Grammar.rules g))
    as [fs1 nzrules]. simpl in Hg1, Hnz, Hbase.
  pose proof (first_loop_grows _ _ _ _ Hfirst) as Hg2.
  assert (∀ x, x ∈ Grammar.symbols g → Grammar.is_terminal_x x = true →
            x.1.2 ∈ fs0 !!! x) as Hterm0.
  { intros x Hx Hterm. unfold fs0. rewrite prepopulate_lookup by done.
    rewrite Hterm. by apply elem_of_singleton. }
  split; [|split; [|split]].
  - intros x Hx Hterm. by apply (Hg2 x), (Hg1 x), Hterm0.
  - intros rule x rest Hin Hrhs Hterm. apply (Hg2 (Rule.lhs rule)).
    specialize (Hbase rule Hin). rewrite Hrhs in Hbase.
    apply (Hbase Hterm), Hterm0; [|done].
    eapply rhs_in_symbols; [done|]. rewrite Hrhs. by left.
  - intros rule Hin Hrhs. apply (Hg2 (Rule.lhs rule)).
    specialize (Hbase rule Hin). by rewrite Hrhs in Hbase.
  - intros rule x rest Hin Hrhs Hterm.
    apply (first_loop_fixed _ _ _ _ Hfirst), Hnz. right. eauto.
Qed.

Lemma build_firstsets_fixed_point_witness :
  ∃ firstsets,
    Grammar.build_firstsets 100 examples.nullable_xgrammar = Some firstsets
    ∧ (∀ x, x ∈ Grammar.symbols examples.nullable_xgrammar →
         Grammar.is_terminal_x x = true → x.1.2 ∈ firstsets !!! x)
    ∧ (∀ rule x rest, rule ∈ Grammar.rules examples.nullable_xgrammar →
         Rule.rhs rule = x :: rest → Grammar.is_terminal_x x = true →
         x.1.2 ∈ firstsets !!! Rule.lhs rule)
    ∧ (∀ rule, rule ∈ Grammar.rules examples.nullable_xgrammar →
         Rule.rhs rule = [] → EMPTY ∈ firstsets !!! Rule.lhs rule)
    ∧ (∀ rule x rest, rule ∈ Grammar.rules examples.nullable_xgrammar →
         Rule.rhs rule = x :: rest → Grammar.is_terminal_x x = false →
         first_rule_holds firstsets (Rule.lhs rule) (Rule.rhs rule)).
Proof.
  apply (build_firstsets_fixed_point examples.nullable_xgrammar 100).
  vm_compute. lia.
Defined.

(** X29. [build_followsets] reaches its fixed point within
    [n * (n + 1 + e) + 1] turns of its loop, and [build_firstsets]
    before it within as many, for a grammar of [n] symbols and [e] end
    symbols; the sets it returns hold: the end symbols after
    the start symbol; FIRST of the next symbol after a nonterminal
    inside a rule; FOLLOW of the left-hand side after a nonterminal that
    ends a rule. *)
Theorem build_followsets_fixed_point g fuel
    (Hfuel : (size (Grammar.symbols g)
              * (S (size (Grammar.symbols g))
                 + length (Grammar.end_symbols g))
              < fuel)%nat) :
  ∃ firstsets followsets,
    Grammar.build_firstsets fuel g = Some firstsets
    ∧ Grammar.build_followsets fuel g = Some followsets
    ∧ (Grammar.start_symbol g ∈ Grammar.symbols g →
       ∀ e, e ∈ Grammar.end_symbols g →
         e.1.2 ∈ followsets !!! Grammar.start_symbol g)
    ∧ (∀ rule i d b, rule ∈ Grammar.rules g →
         Rule.rhs rule !! i = Some d → Rule.rhs rule !! S i = Some b →
         Grammar.is_terminal_x d = false →
         firstsets !!! b ⊆ followsets !!! d)
    ∧ (∀ rule d, rule ∈ Grammar.rules g →
         last (Rule.rhs rule) = Some d →
         Grammar.is_terminal_x d = false →
         followsets !!! Rule.lhs rule ⊆ followsets !!! d).
Proof.
  destruct (build_followsets_ends g fuel Hfuel)
    as (firstsets & followsets & Hfirst & Hfollow).
  exists firstsets, followsets. split; [done|]. split; [done|].
  by apply (build_followsets_guarantees fuel).
Qed.

Lemma build_followsets_fixed_point_witness :
  ∃ firstsets followsets,
    Grammar.build_firstsets 100 examples.nullable_xgrammar = Some firstsets
    ∧ Grammar.build_followsets 100 examples.nullable_xgrammar
      = Some followsets
    ∧ (Grammar.start_symbol examples.nullable_xgrammar
       ∈ Grammar.symbols examples.nullable_xgrammar →
       ∀ e, e ∈ Grammar.end_symbols examples.nullable_xgrammar →
         e.1.2 ∈ followsets !!! Grammar.start_symbol examples.nullable_xgrammar)
    ∧ (∀ rule i d b, rule ∈ Grammar.rules examples.nullable_xgrammar →
         Rule.rhs rule !! i = Some d → Rule.rhs rule !! S i = Some b →
         Grammar.is_terminal_x d = false →
         firstsets !!! b ⊆ followsets !!! d)
    ∧ (∀ rule d, rule ∈ Grammar.rules examples.nullable_xgrammar →
         last (Rule.rhs rule) = Some d →
         Grammar.is_terminal_x d = false →
         followsets !!! Rule.lhs rule ⊆ followsets !!! d).
Proof.
  apply (build_followsets_fixed_point examples.nullable_xgrammar 100).
  vm_compute. lia.
Defined.
End builders.
